(** * KD extension pack for fairseq: architecture presets, the KD-aware
      label-smoothed cross-entropy criterion and the entropy-weighted KD loss.

    Shallow embedding of
    - [custom/__init__.py]                                   (module [Presets]),
    - [fairseq/criterions/kd_label_smoothed_cross_entropy.py] (module [Criterion]),
    - [fairseq/criterions/Dynamic_KD.py]                      (in module [Kernels]),
    - [fairseq/tasks/kd_translation.py]                       (module [Task]).

    Numbers.  Python floats and tensor entries are read as exact rationals
    ([Q]) in everything that is executed (selection, queues, weighting); the
    two transcendental primitives of the tensor runtime, [exp] and [log], are
    parameters of the criterion model.  Two places where a float is not a
    rational are modelled as such: the product under [math.ceil], which is
    rounded to a double before the ceiling is taken, and a KL divergence
    that is nan.  The two functions whose claims are analytic (the entropy
    weight of [dynamic_kd_loss] and the soft-max of [get_lang_kd_rates]) are
    read over the real numbers with the real exponential and logarithm. *)

From Stdlib Require Import ZArith QArith Qround Qabs Qpower Reals Psatz Lia List String
  Permutation Sorting.Sorted SetoidList SetoidPermutation.
From stdpp Require Import gmap strings list.
Import ListNotations.

(* ===================================================================== *)
(** * Part I: the model                                                   *)
(* ===================================================================== *)

(** ** Python exceptions and fallible results

    Besides the exceptions there is one outcome that is none: [NotANumber]
    stands for a call that returns with nan as its loss, a value the
    rationals do not have. *)

Inductive exn : Type :=
  | TypeError            (* an operation applied to [None] *)
  | UnboundLocalError    (* a local read before its assignment *)
  | ValueError           (* raised explicitly by the criterion *)
  | IndexError           (* [x[-1]] on an empty tensor, a mask of another shape *)
  | KeyError             (* [d[k]] on a missing key *)
  | AttributeError       (* a method the object does not have *)
  | ZeroDivisionError    (* Python float division by an [int] zero *)
  | OverflowError        (* [math.ceil] of an infinite float *)
  | RuntimeError         (* shape errors reported by the tensor runtime *)
  | NotANumber.          (* no exception: the loss that is returned is nan *)

Definition result (A : Type) : Type := exn + A.

Definition ok {A} (a : A) : result A := inr a.
Definition raise {A} (e : exn) : result A := inl e.

Definition bind {A B} (r : result A) (k : A -> result B) : result B :=
  match r with
  | inl e => inl e
  | inr a => k a
  end.

Notation "'let!' x ':=' r 'in' k" := (bind r (fun x => k))
  (at level 10, x name, r at level 100, k at level 200, only parsing).
Notation "'let!' ' p ':=' r 'in' k" := (bind r (fun p => k))
  (at level 10, p pattern, r at level 100, k at level 200, only parsing).

(** [x] where [x] may be [None] and the code then uses it as a value *)
Definition not_none {A} (o : option A) : result A :=
  match o with
  | Some a => ok a
  | None => raise TypeError
  end.

(** ** Architecture presets ([custom/__init__.py]) *)

Module Presets.

(** Values stored in the [args] namespace. *)
Inductive value : Type :=
  | VInt (n : Z)
  | VBool (b : bool)
  | VNone.

(** [args] is an [argparse.Namespace]: attribute name to value. *)
Abbreviation namespace := (gmap string value).

(** [getattr(args, name, default)] *)
Definition getattr (args : namespace) (name : string) (default : value) : value :=
  match args !! name with
  | Some v => v
  | None => default
  end.

(** [args.name = getattr(args, name, default)] *)
Definition fill (name : string) (default : value) (args : namespace) : namespace :=
  <[name := getattr args name default]> args.

(** The assignments of each preset, in source order; the call of
    [base_architecture] that ends every preset is added by [preset]. *)

Definition transformer_small_link_8heads (args : namespace) : namespace :=
  let args := fill "link" (VBool true) args in
  let args := fill "encoder_embed_dim" (VInt 512) args in
  let args := fill "encoder_ffn_embed_dim" (VInt 1024) args in
  let args := fill "encoder_layers" (VInt 3) args in
  let args := fill "encoder_attention_heads" (VInt 8) args in
  let args := fill "decoder_layers" (VInt 6) args in
  let args := fill "decoder_attention_heads" (VInt 8) args in
  args.

Definition transformer_tiny_link_8heads (args : namespace) : namespace :=
  let args := fill "link" (VBool true) args in
  let args := fill "encoder_embed_dim" (VInt 512) args in
  let args := fill "encoder_ffn_embed_dim" (VInt 1024) args in
  let args := fill "encoder_layers" (VInt 3) args in
  let args := fill "encoder_attention_heads" (VInt 8) args in
  let args := fill "decoder_layers" (VInt 3) args in
  let args := fill "decoder_attention_heads" (VInt 8) args in
  args.

Definition transformer_small_link (args : namespace) : namespace :=
  let args := fill "link" (VBool true) args in
  let args := fill "encoder_embed_dim" (VInt 512) args in
  let args := fill "encoder_ffn_embed_dim" (VInt 1024) args in
  let args := fill "encoder_layers" (VInt 3) args in
  let args := fill "encoder_attention_heads" (VInt 4) args in
  let args := fill "decoder_layers" (VInt 6) args in
  let args := fill "decoder_attention_heads" (VInt 4) args in
  args.

(** In the source this function is called [transformer_2layers] like the
    next one; it is the one registered as ["transformer_2layers_8heads"]. *)
Definition transformer_2layers_8heads (args : namespace) : namespace :=
  let args := fill "link" (VBool true) args in
  let args := fill "encoder_embed_dim" (VInt 512) args in
  let args := fill "encoder_ffn_embed_dim" (VInt 1024) args in
  let args := fill "encoder_layers" (VInt 2) args in
  let args := fill "encoder_attention_heads" (VInt 8) args in
  let args := fill "decoder_layers" (VInt 2) args in
  let args := fill "decoder_attention_heads" (VInt 8) args in
  args.

Definition transformer_2layers (args : namespace) : namespace :=
  let args := fill "link" (VBool true) args in
  let args := fill "encoder_embed_dim" (VInt 512) args in
  let args := fill "encoder_ffn_embed_dim" (VInt 1024) args in
  let args := fill "encoder_layers" (VInt 2) args in
  let args := fill "encoder_attention_heads" (VInt 4) args in
  let args := fill "decoder_layers" (VInt 2) args in
  let args := fill "decoder_attention_heads" (VInt 4) args in
  args.

Definition transformer_3layers_regressor (args : namespace) : namespace :=
  let args := fill "regressor" (VBool true) args in
  let args := fill "encoder_embed_dim" (VInt 512) args in
  let args := fill "encoder_ffn_embed_dim" (VInt 1024) args in
  let args := fill "encoder_layers" (VInt 3) args in
  let args := fill "encoder_attention_heads" (VInt 4) args in
  let args := fill "decoder_layers" (VInt 3) args in
  let args := fill "decoder_attention_heads" (VInt 4) args in
  args.

Definition transformer_2layers_regressor (args : namespace) : namespace :=
  let args := fill "regressor" (VBool true) args in
  let args := fill "encoder_embed_dim" (VInt 512) args in
  let args := fill "encoder_ffn_embed_dim" (VInt 1024) args in
  let args := fill "encoder_layers" (VInt 2) args in
  let args := fill "encoder_attention_heads" (VInt 4) args in
  let args := fill "decoder_layers" (VInt 2) args in
  let args := fill "decoder_attention_heads" (VInt 4) args in
  args.

Definition transformer_tiny_link (args : namespace) : namespace :=
  let args := fill "link" (VBool true) args in
  let args := fill "encoder_embed_dim" (VInt 512) args in
  let args := fill "encoder_ffn_embed_dim" (VInt 1024) args in
  let args := fill "encoder_layers" (VInt 3) args in
  let args := fill "encoder_attention_heads" (VInt 4) args in
  let args := fill "decoder_layers" (VInt 3) args in
  let args := fill "decoder_attention_heads" (VInt 4) args in
  args.

Definition transformer_tiny_nolink (args : namespace) : namespace :=
  let args := fill "link" (VBool false) args in
  let args := fill "encoder_embed_dim" (VInt 512) args in
  let args := fill "encoder_ffn_embed_dim" (VInt 1024) args in
  let args := fill "encoder_layers" (VInt 3) args in
  let args := fill "encoder_attention_heads" (VInt 4) args in
  let args := fill "decoder_layers" (VInt 3) args in
  let args := fill "decoder_attention_heads" (VInt 4) args in
  args.

Definition transformer_big (args : namespace) : namespace :=
  let args := fill "encoder_embed_dim" (VInt 1024) args in
  let args := fill "encoder_ffn_embed_dim" (VInt 4096) args in
  let args := fill "encoder_attention_heads" (VInt 16) args in
  let args := fill "encoder_normalize_before" (VBool false) args in
  let args := fill "decoder_embed_dim" (VInt 1024) args in
  let args := fill "decoder_ffn_embed_dim" (VInt 4096) args in
  let args := fill "decoder_attention_heads" (VInt 16) args in
  args.

Definition transformer_huge (args : namespace) : namespace :=
  let args := fill "encoder_embed_dim" (VInt 1536) args in
  let args := fill "encoder_ffn_embed_dim" (VInt 4096) args in
  let args := fill "encoder_attention_heads" (VInt 16) args in
  let args := fill "encoder_normalize_before" (VBool false) args in
  let args := fill "decoder_embed_dim" (VInt 1536) args in
  let args := fill "decoder_ffn_embed_dim" (VInt 4096) args in
  let args := fill "decoder_attention_heads" (VInt 16) args in
  args.

Definition transformer_xlarge (args : namespace) : namespace :=
  let args := fill "encoder_embed_dim" (VInt 2048) args in
  let args := fill "encoder_ffn_embed_dim" (VInt 8192) args in
  let args := fill "encoder_attention_heads" (VInt 16) args in
  let args := fill "encoder_normalize_before" (VBool false) args in
  let args := fill "decoder_embed_dim" (VInt 2048) args in
  let args := fill "decoder_ffn_embed_dim" (VInt 8192) args in
  let args := fill "decoder_attention_heads" (VInt 16) args in
  args.

(** [@register_model_architecture("transformer", name)]: registered name
    to the preset's own assignments. *)
Definition ARCH_REGISTRY : list (string * (namespace -> namespace)) :=
  [ ("transformer_small_link_8heads", transformer_small_link_8heads);
    ("transformer_tiny_link_8heads", transformer_tiny_link_8heads);
    ("transformer_small_link", transformer_small_link);
    ("transformer_2layers_8heads", transformer_2layers_8heads);
    ("transformer_2layers", transformer_2layers);
    ("transformer_3layers_regressor", transformer_3layers_regressor);
    ("transformer_2layers_regressor", transformer_2layers_regressor);
    ("transformer_tiny_link", transformer_tiny_link);
    ("transformer_tiny_nolink", transformer_tiny_nolink);
    ("transformer_2x", transformer_big);
    ("transformer_4x", transformer_huge);
    ("transformer_9x", transformer_xlarge) ]%string.

(** A registered preset as the framework calls it: the preset's own
    assignments, then the host framework's [base_architecture]. *)
Definition preset (base_architecture : namespace -> namespace)
    (own : namespace -> namespace) (args : namespace) : namespace :=
  base_architecture (own args).

(** The table of section 4.1 of the specification, row by row: preset name
    to the (field, default) pairs it documents.  The columns embed, ffn,
    enc layers, enc heads, dec layers, dec heads are the encoder embedding
    and feed-forward dimensions and the layer and head counts; the rows 2x,
    4x and 9x give encoder and decoder embedding, feed-forward and head
    values and the encoder's normalize-before flag. *)
Definition small_row (enc_layers enc_heads dec_layers dec_heads : Z)
    (flag : string) (on : bool) : list (string * value) :=
  [ ("encoder_embed_dim", VInt 512);
    ("encoder_ffn_embed_dim", VInt 1024);
    ("encoder_layers", VInt enc_layers);
    ("encoder_attention_heads", VInt enc_heads);
    ("decoder_layers", VInt dec_layers);
    ("decoder_attention_heads", VInt dec_heads);
    (flag, VBool on) ]%string.

Definition big_row (embed ffn heads : Z) : list (string * value) :=
  [ ("encoder_embed_dim", VInt embed);
    ("decoder_embed_dim", VInt embed);
    ("encoder_ffn_embed_dim", VInt ffn);
    ("decoder_ffn_embed_dim", VInt ffn);
    ("encoder_attention_heads", VInt heads);
    ("decoder_attention_heads", VInt heads);
    ("encoder_normalize_before", VBool false) ]%string.

Definition spec_table : list (string * list (string * value)) :=
  [ ("transformer_small_link_8heads", small_row 3 8 6 8 "link" true);
    ("transformer_tiny_link_8heads", small_row 3 8 3 8 "link" true);
    ("transformer_small_link", small_row 3 4 6 4 "link" true);
    ("transformer_2layers_8heads", small_row 2 8 2 8 "link" true);
    ("transformer_2layers", small_row 2 4 2 4 "link" true);
    ("transformer_3layers_regressor", small_row 3 4 3 4 "regressor" true);
    ("transformer_2layers_regressor", small_row 2 4 2 4 "regressor" true);
    ("transformer_tiny_link", small_row 3 4 3 4 "link" true);
    ("transformer_tiny_nolink", small_row 3 4 3 4 "link" false);
    ("transformer_2x", big_row 1024 4096 16);
    ("transformer_4x", big_row 1536 4096 16);
    ("transformer_9x", big_row 2048 8192 16) ]%string.

(** A gap filler in the style of the host framework's [base_architecture]
    (a few of its fields), used to run the presets on concrete inputs. *)
Definition sample_base_architecture (args : namespace) : namespace :=
  let args := fill "encoder_embed_dim" (VInt 512) args in
  let args := fill "encoder_layers" (VInt 6) args in
  let args := fill "decoder_embed_dim" (getattr args "encoder_embed_dim" VNone) args in
  let args := fill "decoder_layers" (VInt 6) args in
  let args := fill "dropout" (VInt 0) args in
  args.

End Presets.

(** ** Numbers

    The arithmetic the numeric kernels are written over: the field operations
    and the two transcendental primitives of the tensor runtime. *)

Module Arith.

Record ops (A : Type) : Type := Ops {
  zero : A;
  one : A;
  add : A -> A -> A;
  sub : A -> A -> A;
  mul : A -> A -> A;
  div : A -> A -> A;
  of_Z : Z -> A;
  exp : A -> A;
  log : A -> A
}.
Arguments Ops {A}.
Arguments zero {A}. Arguments one {A}. Arguments add {A}. Arguments sub {A}.
Arguments mul {A}. Arguments div {A}. Arguments of_Z {A}.
Arguments exp {A}. Arguments log {A}.

(** Rationals, with the runtime's [exp] and [log] as parameters. *)
Definition Qops (texp tlog : Q -> Q) : ops Q :=
  Ops 0%Q 1%Q Qplus Qminus Qmult Qdiv inject_Z texp tlog.

(** Real numbers, with the real exponential and natural logarithm. *)
Definition Rops : ops R :=
  Ops 0%R 1%R Rplus Rminus Rmult Rdiv IZR Rtrigo_def.exp ln.

End Arith.

(** A 2-D tensor of shape (N, V): its rows and the size of its last
    dimension, which the code reads as [x.size(-1)] even when N = 0. *)
Record tensor2 (A : Type) : Type := Tensor2 { ncols : nat; rows : list (list A) }.
Arguments Tensor2 {A}.
Arguments ncols {A}.
Arguments rows {A}.

(** ** Kernels that use [exp] and [log], written once for both readings *)

Module Kernels.
Section Generic.

Context {A : Type} (o : Arith.ops A).

Local Notation "0" := (Arith.zero o).
Local Notation "1" := (Arith.one o).
Local Infix "+" := (Arith.add o).
Local Infix "-" := (Arith.sub o).
Local Infix "*" := (Arith.mul o).
Local Infix "/" := (Arith.div o).

(** An [int] read as a number *)
Definition of_nat (n : nat) : A := Arith.of_Z o (Z.of_nat n).

(** [x.sum()] *)
Definition total (x : list A) : A := fold_right (Arith.add o) 0 x.

(** [x.mean()] *)
Definition mean (x : list A) : A := total x / of_nat (length x).

(** [F.softmax(x, dim=-1)] on one row *)
Definition softmax (x : list A) : list A :=
  let e := map (Arith.exp o) x in
  map (fun a => a / total e) e.

(** [F.log_softmax(x, dim=-1)] on one row *)
Definition log_softmax (x : list A) : list A :=
  let lse := Arith.log o (total (map (Arith.exp o) x)) in
  map (fun a => a - lse) x.

(** *** [Dynamic_KD.py] *)

(** [1e-6] *)
Definition tiny : A := 1 / Arith.of_Z o 1000000.

(** [- torch.sum(student_probs * torch.log(student_probs + 1e-6), dim=1)],
    one example *)
Definition entropy_of_probs (student_probs : list A) : A :=
  0 - total (map (fun p => p * Arith.log o (p + tiny)) student_probs).

(** The weight of one example as a function of its probabilities:
    [student_entropy / torch.log(torch.ones_like(student_entropy) *
    student_logits.size(1))] *)
Definition weight_of_probs (V : nat) (student_probs : list A) : A :=
  entropy_of_probs student_probs / Arith.log o (1 * of_nat V).

(** [instance_weight], one entry per example: the weight of
    [student_probs = F.softmax(student_logits, dim=-1)] *)
Definition instance_weight (student_logits : tensor2 A) : list A :=
  map (fun row => weight_of_probs (ncols student_logits) (softmax row))
      (rows student_logits).

(** [F.kl_div(input, target, reduction="none").sum(-1)] on one row: the
    point-wise term is [target * (log target - input)]. *)
Definition kl_div_row (input target : list A) : A :=
  total (map (fun p => snd p * (Arith.log o (snd p) - fst p)) (combine input target)).

Definition dynamic_kd_loss (student_logits teacher_logits : tensor2 A)
    (temperature : A) : A :=
  let instance_weight := instance_weight student_logits in
  let input :=
    map (fun row => log_softmax (map (fun a => a / temperature) row))
        (rows student_logits) in
  let target :=
    map (fun row => softmax (map (fun a => a / temperature) row))
        (rows teacher_logits) in
  let batch_loss :=
    map (fun p => kl_div_row (fst p) (snd p) * (temperature * temperature))
        (combine input target) in
  let weighted_kld :=
    mean (map (fun p => fst p * snd p) (combine batch_loss instance_weight)) in
  weighted_kld.

(** *** [get_lang_kd_rates] of the criterion

    [indices] is the insertion-ordered dictionary from language id to the
    list of sentence positions of that language; [T] is
    [self.kd_selection_temp], which may be [None]. *)
Definition get_lang_kd_rates (use_adaptive_kd_rates : bool) (kd_rate : option A)
    (indices : list (Z * list nat)) (T : option A) : result (list (option A)) :=
  if use_adaptive_kd_rates then
    let lens := map (fun kv => of_nat (length (snd kv))) indices in
    let! T := not_none T in
    let lens_prob := softmax (map (fun n => (1 / n) / T) lens) in
    ok (map Some lens_prob)
  else
    ok (repeat kd_rate (length indices)).

End Generic.
End Kernels.

(** ** The tensor runtime, over the rationals *)

Module Torch.

Local Open Scope Q_scope.

(** A 4-D tensor of shape (B, C, H, W). *)
Definition tensor4 : Type := list (list (list (list Q))).

(** A value that is a 0-dim tensor or Python float ([Scalar]) or a 1-D
    tensor ([Vector]); arithmetic between the two broadcasts the scalar. *)
Inductive tval : Type :=
  | Scalar (q : Q)
  | Vector (v : list Q).

Definition Qltb (x y : Q) : bool := negb (Qle_bool y x).

(** [x.sum()] *)
Definition tsum (x : list Q) : Q := fold_right Qplus 0 x.

Fixpoint mapM {A B} (f : A -> result B) (l : list A) : result (list B) :=
  match l with
  | [] => ok []
  | a :: l' =>
      let! b := f a in
      let! bs := mapM f l' in
      ok (b :: bs)
  end.

(** Element-wise binary operation on two 1-D tensors of the same size. *)
Definition zip_same {A B C} (f : A -> B -> C) (x : list A) (y : list B)
  : result (list C) :=
  if Nat.eqb (length x) (length y)
  then ok (map (fun p => f (fst p) (snd p)) (combine x y))
  else raise RuntimeError.

(** [x.masked_fill_(mask, v)]: the mask is broadcast to the shape of [x],
    so it has the size of [x] or size 1. *)
Definition masked_fill (x : list Q) (mask : list bool) (v : Q) : result (list Q) :=
  match mask with
  | [m] => ok (map (fun a => if m then v else a) x)
  | _ => zip_same (fun a (m : bool) => if m then v else a) x mask
  end.

(** [x[mask]] for a boolean mask, which must have the shape of [x] *)
Definition select (x : list Q) (mask : list bool) : result (list Q) :=
  if Nat.eqb (length x) (length mask)
  then ok (map fst (List.filter (fun p : Q * bool => snd p) (combine x mask)))
  else raise IndexError.

(** [mask.nonzero().view(-1)] *)
Fixpoint nonzero_from (i : nat) (mask : list bool) : list nat :=
  match mask with
  | [] => []
  | m :: mask' => if m then i :: nonzero_from (S i) mask' else nonzero_from (S i) mask'
  end.
Definition nonzero (mask : list bool) : list nat := nonzero_from 0 mask.

(** [x.gather(0, index)] on a 1-D tensor *)
Definition gather0 (x : list Q) (index : list nat) : result (list Q) :=
  mapM (fun i => match nth_error x i with
                 | Some v => ok v
                 | None => raise RuntimeError
                 end) index.

(** [x.gather(dim=-1, index=target.unsqueeze(-1))] on a 2-D tensor: one
    entry per row of the index.  The index tensor may have fewer rows than
    [x], not more, and its entries must lie in [0, V). *)
Definition gather_last (x : tensor2 Q) (index : list Z) : result (list Q) :=
  if (length (rows x) <? length index)%nat then raise RuntimeError else
  mapM (fun p : list Q * Z =>
          let (row, t) := p in
          if ((0 <=? t)%Z && (t <? Z.of_nat (ncols x))%Z)%bool
          then match nth_error row (Z.to_nat t) with
               | Some v => ok v
               | None => raise RuntimeError
               end
          else raise RuntimeError) (combine (rows x) index).

(** [x.index_select(0, index)] on the rows of a 2-D view *)
Definition index_select0 {A} (x : list A) (index : list nat) : result (list A) :=
  mapM (fun i => match nth_error x i with
                 | Some r => ok r
                 | None => raise RuntimeError
                 end) index.

(** [x.view(b, -1)] of a 1-D tensor: [b] rows of equal size. *)
Fixpoint chunks {A} (fuel : nat) (w : nat) (x : list A) : list (list A) :=
  match fuel with
  | O => []
  | S fuel' => firstn w x :: chunks fuel' w (skipn w x)
  end.
Definition view_rows {A} (b : nat) (x : list A) : result (list (list A)) :=
  match b with
  | O => if Nat.eqb (length x) 0 then ok [] else raise RuntimeError
  | S _ => if Nat.eqb (length x mod b) 0
           then ok (chunks b (length x / b) x)
           else raise RuntimeError
  end.

(** Sorting in descending order, as [topk(..., largest=True)] returns its
    values. *)
Fixpoint insert_desc (a : Q) (l : list Q) : list Q :=
  match l with
  | [] => [a]
  | b :: l' => if Qle_bool b a then a :: l else b :: insert_desc a l'
  end.
Definition sort_desc (l : list Q) : list Q := fold_right insert_desc [] l.

(** [x.topk(k, dim=0, largest=True)[0]] *)
Definition topk (x : list Q) (k : Z) : result (list Q) :=
  if ((k <? 0)%Z || (Z.of_nat (length x) <? k)%Z)%bool
  then raise RuntimeError
  else ok (firstn (Z.to_nat k) (sort_desc x)).

(** [x[-1]] *)
Definition item_last (x : list Q) : result Q :=
  match rev x with
  | [] => raise IndexError
  | a :: _ => ok a
  end.

(** *** Python floats under [math.ceil]

    A Python float is an IEEE double.  [round_double x] is the double
    nearest to [x]: a 53-bit significand, ties to the even one.  The
    exponent is not bounded here; a result of magnitude [2^1024] or more
    stands for an infinite float ([float_is_inf]). *)

(** The integer nearest to [x], the even one of two *)
Definition round_half_even (x : Q) : Z :=
  let f := Qfloor x in
  match Qcompare (x - inject_Z f) (1 # 2) with
  | Lt => f
  | Gt => (f + 1)%Z
  | Eq => if Z.even f then f else (f + 1)%Z
  end.

(** [floor(log2 x)] of a positive [x] *)
Definition ilog2 (x : Q) : Z :=
  let e := (Z.log2 (Qnum x) - Z.log2 (Z.pos (Qden x)))%Z in
  if Qle_bool (2 ^ e) x then e else (e - 1)%Z.

Definition round_double (x : Q) : Q :=
  if Qeq_bool x 0 then 0 else
  let a := Qabs x in
  let ulp := 2 ^ (ilog2 a - 52) in
  let r := inject_Z (round_half_even (a / ulp)) * ulp in
  if Qle_bool 0 x then r else - r.

Definition float_is_inf (x : Q) : bool := Qle_bool (2 ^ 1024) (Qabs x).

(** The positive double with significand [m] and exponent [e], for
    [2^52 <= m < 2^53]. *)
Definition double_of (m e : Z) : Q := inject_Z m * 2 ^ (e - 52).

(** [n * rate] for an [int] n and a float rate: the [int] is converted to a
    float and the product is rounded. *)
Definition float_mul (n : nat) (rate : Q) : Q :=
  round_double (round_double (inject_Z (Z.of_nat n)) * rate).

(** [math.ceil(n * rate)], where the product is finite *)
Definition ceil_mul (n : nat) (rate : Q) : Z :=
  Qceiling (float_mul n rate).

(** Broadcasting arithmetic on [tval]: a scalar combines with everything,
    and two 1-D tensors combine when they have the same size or one of them
    has size 1. *)
Definition tval_map (f : Q -> Q) (x : tval) : tval :=
  match x with
  | Scalar q => Scalar (f q)
  | Vector v => Vector (map f v)
  end.

Definition broadcast (f : Q -> Q -> Q) (v w : list Q) : result (list Q) :=
  match v, w with
  | [a], _ => ok (map (f a) w)
  | _, [b] => ok (map (fun a => f a b) v)
  | _, _ => zip_same f v w
  end.

Definition tval_op (f : Q -> Q -> Q) (x y : tval) : result tval :=
  match x, y with
  | Scalar a, Scalar b => ok (Scalar (f a b))
  | Scalar a, Vector v => ok (Vector (map (f a) v))
  | Vector v, Scalar b => ok (Vector (map (fun a => f a b) v))
  | Vector v, Vector w => let! r := broadcast f v w in ok (Vector r)
  end.

Arguments masked_fill : simpl never.
Arguments broadcast : simpl never.

Definition tval_sum (x : tval) : Q :=
  match x with
  | Scalar q => q
  | Vector v => tsum v
  end.

(** [F.mse_loss(a, b, reduction='mean')] on tensors of the same shape *)
Definition flatten4 (x : tensor4) : list Q := concat (concat (concat x)).

Definition mse_loss (a b : tensor4) : result Q :=
  let! d := zip_same (fun p q => (p - q) * (p - q)) (flatten4 a) (flatten4 b) in
  ok (tsum d / inject_Z (Z.of_nat (length d))).

(** [rearrange(x, 'B C H W -> B C (H W)')] *)
Definition rearrange (x : tensor4) : list (list (list Q)) := map (map (@concat Q)) x.

(** [x[:, -4:, :, :]] *)
Definition last4 (x : tensor4) : tensor4 :=
  map (fun c => skipn (length c - 4) c) x.

(** [x.shape[2]] of a 4-D tensor (read on its first channel) *)
Definition shape2 (x : tensor4) : nat :=
  match x with
  | (h :: _) :: _ => length h
  | _ => 0%nat
  end.

End Torch.

(** ** The criterion ([kd_label_smoothed_cross_entropy.py]) *)

Module Criterion.

Import Torch.
Local Open Scope Q_scope.

(** What the criterion reads from the task. *)
Record task : Type := Task {
  task_kd_strategy : string;
  src_lang_ids : list Z;
  target_pad : Z                (* [task.target_dictionary.pad()] *)
}.

(** [KDLabelSmoothedCrossEntropyCriterionConfig]: the constructor's
    arguments. *)
Record config : Type := Config {
  cfg_sentence_avg : bool;
  cfg_label_smoothing : Q;
  cfg_kd_rate : option Q;
  cfg_kd_queue_size : Z;
  cfg_student_temp : Q;
  cfg_teacher_temp : Q;
  cfg_alpha : option Q;
  cfg_use_adaptive_weightage : bool;
  cfg_adaptive_smoothing : option Q;
  cfg_use_adaptive_kd_rates : bool;
  cfg_kd_selection_temp : option Q;
  cfg_rambda : Q;
  cfg_decay : Q;
  cfg_loss_type : string;
  cfg_decoder_kd : bool;
  cfg_self_kd : bool;
  cfg_cross_kd : bool;
  cfg_value_kd : bool;
  cfg_regressor : bool;
  cfg_ignore_prefix_size : Z;
  cfg_report_accuracy : bool
}.

(** The attributes of the criterion that no method assigns after
    construction. *)
Record criterion : Type := Criterion {
  sentence_avg : bool;
  eps : Q;
  ignore_prefix_size : Z;
  report_accuracy : bool;
  padding_idx : Z;
  kd_strategy : string;
  student_temp : Q;
  teacher_temp : Q;
  kd_rate : option Q;
  kd_queue_size : Z;
  num_languages : nat;
  use_adaptive_weightage : bool;
  use_adaptive_kd_rates : bool;
  kd_selection_temp : option Q;
  beta : option Q;
  rambda : Q;
  decay : Q;
  loss_type : string;
  decoder_kd : bool;
  self_kd : bool;
  cross_kd : bool;
  value_kd : bool;
  regressor : bool
}.

(** [self.queue]: one tensor, or a dictionary of tensors per language id. *)
Inductive queue_t : Type :=
  | QueueTensor (q : list Q)
  | QueueDict (d : gmap Z (list Q)).

(** The attributes that [forward] assigns: [self.alpha] and [self.queue]. *)
Record state : Type := State {
  alpha : option tval;
  queue : queue_t
}.

Definition __init__ (t : task) (cfg : config) : criterion * state :=
  let kd_strategy := task_kd_strategy t in
  ( {| sentence_avg := cfg_sentence_avg cfg;
       eps := cfg_label_smoothing cfg;
       ignore_prefix_size := cfg_ignore_prefix_size cfg;
       report_accuracy := cfg_report_accuracy cfg;
       padding_idx := target_pad t;
       kd_strategy := kd_strategy;
       student_temp := cfg_student_temp cfg;
       teacher_temp := cfg_teacher_temp cfg;
       kd_rate := cfg_kd_rate cfg;
       kd_queue_size := cfg_kd_queue_size cfg;
       num_languages := length (src_lang_ids t);
       use_adaptive_weightage := cfg_use_adaptive_weightage cfg;
       use_adaptive_kd_rates := cfg_use_adaptive_kd_rates cfg;
       kd_selection_temp := cfg_kd_selection_temp cfg;
       beta := match cfg_adaptive_smoothing cfg with
               | Some _ => Some 1
               | None => cfg_adaptive_smoothing cfg
               end;
       rambda := cfg_rambda cfg;
       decay := cfg_decay cfg;
       loss_type := cfg_loss_type cfg;
       decoder_kd := cfg_decoder_kd cfg;
       self_kd := cfg_self_kd cfg;
       cross_kd := cfg_cross_kd cfg;
       value_kd := cfg_value_kd cfg;
       regressor := cfg_regressor cfg |},
    {| alpha := if cfg_use_adaptive_weightage cfg then None
                else option_map Scalar (cfg_alpha cfg);
       queue := if String.eqb kd_strategy "global_multi_level"
                then QueueDict (fold_left (fun d id => <[id := []]> d)
                                          (src_lang_ids t) ∅)
                else QueueTensor [] |} ).

(** [get_lang_ids]: per sentence, the token at the first non-padding
    position ([torch.max] of the boolean mask gives the first maximum, and
    position 0 when the whole row is padding). *)
Fixpoint argmax_bool (mask : list bool) : nat :=
  match mask with
  | [] => 0%nat
  | true :: _ => 0%nat
  | false :: mask' =>
      if existsb (fun b => b) mask' then S (argmax_bool mask') else 0%nat
  end.

Definition get_lang_ids (c : criterion) (tokens : list (list Z)) : result (list Z) :=
  mapM (fun row =>
          let non_pad_mask := map (fun t => negb (t =? padding_idx c)%Z) row in
          let col_index := argmax_bool non_pad_mask in
          match nth_error row col_index with
          | Some id => ok id
          | None => raise RuntimeError
          end) tokens.

(** The body shared by [push_to_FIFO_queue] and [push_to_lang_FIFO_queue]:
    [if tensor_sz + current_queue_sz >= kd_queue_size: queue = queue[tensor_sz:]]
    and then [queue = torch.cat((queue, tensor))]. *)
Definition push (kd_queue_size : Z) (queue tensor : list Q) : list Q :=
  let tensor_sz := length tensor in
  let current_queue_sz := length queue in
  let queue :=
    if (kd_queue_size <=? Z.of_nat (tensor_sz + current_queue_sz))%Z
    then skipn tensor_sz queue
    else queue in
  queue ++ tensor.

Definition push_to_FIFO_queue (c : criterion) (st : state) (tensor : list Q)
  : result state :=
  match queue st with
  | QueueTensor q =>
      ok {| alpha := alpha st;
            queue := QueueTensor (push (kd_queue_size c) q tensor) |}
  | QueueDict _ => raise AttributeError
  end.

Definition push_to_lang_FIFO_queue (c : criterion) (st : state) (id : Z)
    (tensor : list Q) : result state :=
  match queue st with
  | QueueDict d =>
      match d !! id with
      | Some q =>
          ok {| alpha := alpha st;
                queue := QueueDict (<[id := push (kd_queue_size c) q tensor]> d) |}
      | None => raise KeyError
      end
  | QueueTensor _ => raise IndexError
  end.

(** [label_smoothed_nll_loss].  The per-token results keep one entry per
    row (the source's (N, 1) and (N) shapes are both read as 1-D); with
    [reduce] they are 0-dim. *)
Definition label_smoothed_nll_loss (lprobs : tensor2 Q) (target : list Z)
    (epsilon : Q) (ignore_index : option Z) (reduce : bool)
  : result (tval * tval) :=
  let! picked := gather_last lprobs target in
  let nll_loss := map Qopp picked in
  let smooth_loss := map (fun row => - tsum row) (rows lprobs) in
  let! masked :=
    match ignore_index with
    | Some ignore_index =>
        let pad_mask := map (fun t => (t =? ignore_index)%Z) target in
        let! n := masked_fill nll_loss pad_mask 0 in
        let! s := masked_fill smooth_loss pad_mask 0 in
        ok (n, s)
    | None => ok (nll_loss, smooth_loss)
    end in
  let (nll_loss, smooth_loss) := masked : list Q * list Q in
  let (nll_loss, smooth_loss) :=
    if reduce
    then (Scalar (tsum nll_loss), Scalar (tsum smooth_loss))
    else (Vector nll_loss, Vector smooth_loss) in
  if (Z.of_nat (ncols lprobs) - 1 =? 0)%Z then raise ZeroDivisionError else
  let eps_i := epsilon / inject_Z (Z.of_nat (ncols lprobs) - 1) in
  let! a := tval_op Qmult (Scalar (1 - epsilon - eps_i)) nll_loss in
  let! b := tval_op Qmult (Scalar eps_i) smooth_loss in
  let! loss := tval_op Qplus a b in
  ok (loss, nll_loss).

(** *** Inputs of [forward] *)

(** The batch: [sample["net_input"]["src_tokens"]] (B, S), [sample["target"]]
    (B, T), [sample["ntokens"]] and the teacher artifacts, each of which
    [sample.get] may find absent.  [teacher_output] holds
    [teacher_output[0]], the teacher logits of shape (B, T, V). *)
Record sample : Type := Sample {
  src_tokens : list (list Z);
  target : list (list Z);
  ntokens : Z;
  teacher_output : option (list (list (list Q)));
  teacher_lprobs : option (list (list (list Q)));
  teacher_attn_output : option tensor4;
  teacher_decoder_self_attn_output : option tensor4;
  teacher_decoder_cross_attn_output : option tensor4;
  teacher_value_relation : option tensor4
}.

(** What the call of [model] on the batch's [net_input] and
    [model.get_normalized_probs] return: the student logits [net_output[0]]
    (B, T, V), the student log-probabilities (B, T, V) with V, the decoder
    attention tensors of [net_output[1]] and the encoder-side maps. *)
Record model_out : Type := ModelOut {
  vocab : nat;
  logits : list (list (list Q));
  normalized_lprobs : list (list (list Q));
  self_attn_tensor : option tensor4;
  cross_attn_tensor : option tensor4;
  attn_output : option tensor4;
  value_relation : option tensor4;
  regressed_maps : option tensor4
}.

(** [x[:, n:]] for an [int] n >= 0 *)
Definition drop_prefix {A} (n : Z) (x : list (list A)) : list (list A) :=
  map (skipn (Z.to_nat n)) x.

Definition get_lprobs_and_target (c : criterion) (m : model_out) (s : sample)
  : tensor2 Q * list Z :=
  let lprobs := normalized_lprobs m in
  let target := target s in
  let (lprobs, target) :=
    if (0 <? ignore_prefix_size c)%Z
    then (drop_prefix (ignore_prefix_size c) lprobs,
          drop_prefix (ignore_prefix_size c) target)
    else (lprobs, target) in
  (Tensor2 (vocab m) (concat lprobs), concat target).

(** [x.view(-1)] *)
Definition view1 (x : tval) : list Q :=
  match x with
  | Scalar q => [q]
  | Vector v => v
  end.

(** A local variable that is read: unbound when no branch assigned it. *)
Definition bound {A} (o : option A) : result A :=
  match o with
  | Some a => ok a
  | None => raise UnboundLocalError
  end.

(** [indices.setdefault(val, []).append(idx)] on the insertion-ordered
    dictionary [indices] *)
Fixpoint setdefault_append (indices : list (Z * list nat)) (val : Z) (idx : nat)
  : list (Z * list nat) :=
  match indices with
  | [] => [(val, [idx])]
  | (k, l) :: rest =>
      if (k =? val)%Z then (k, l ++ [idx]) :: rest
      else (k, l) :: setdefault_append rest val idx
  end.

(** [for idx, val in enumerate(lang_ids): indices.setdefault(val, []).append(idx)] *)
Fixpoint group_from (idx : nat) (lang_ids : list Z) (indices : list (Z * list nat))
  : list (Z * list nat) :=
  match lang_ids with
  | [] => indices
  | val :: rest => group_from (S idx) rest (setdefault_append indices val idx)
  end.
Definition group_by_lang (lang_ids : list Z) : list (Z * list nat) :=
  group_from 0 lang_ids [].

(** [self.queue[idx]] *)
Definition queue_of (st : state) (idx : Z) : result (list Q) :=
  match queue st with
  | QueueDict d =>
      match d !! idx with
      | Some q => ok q
      | None => raise KeyError
      end
  | QueueTensor _ => raise IndexError
  end.

(** [x.topk(math.ceil(x.size(0) * kd_rate), dim=0, largest=True)[0][-1]] *)
Definition loss_gate (x : list Q) (kd_rate : option Q) : result Q :=
  let! kd_rate := not_none kd_rate in
  if float_is_inf (float_mul (length x) kd_rate) then raise OverflowError else
  let! top := topk x (ceil_mul (length x) kd_rate) in
  item_last top.

(** [(1.0 - self.alpha) * a + self.alpha * b] for 0-dim [a] and [b] *)
Definition mix (alpha : option tval) (a b : Q) : result tval :=
  let! alpha := not_none alpha in
  let! x := tval_op Qmult (tval_map (fun al => 1 - al) alpha) (Scalar a) in
  let! y := tval_op Qmult alpha (Scalar b) in
  tval_op Qplus x y.

(** [((1.0 - self.alpha) * golden_loss).sum()] *)
Definition golden_part (alpha : option tval) (golden_loss : list Q) : result Q :=
  let! alpha := not_none alpha in
  let! x := tval_op Qmult (tval_map (fun al => 1 - al) alpha) (Vector golden_loss) in
  ok (tval_sum x).

(** The selection shared by [batch_level] and [global_level]:
    [KD_mask = nll_loss < loss_gate] and then [kd_loss[~KD_mask]]. *)
Definition select_at_or_above (nll_loss : list Q) (loss_gate : Q) (kd_loss : list Q)
  : result (list Q) :=
  let KD_mask := map (fun x => Qltb x loss_gate) nll_loss in
  select kd_loss (map negb KD_mask).

(** Lines 357 to 372 ([batch_level]): the gate from the batch's own NLL
    values, then the masked per-token KD values [kd_loss] (computed after
    the gate), then the selection. *)
Definition batch_level_select (nll_loss : list Q) (kd_rate : option Q)
    (kd_loss : result (list Q)) : result (list Q) :=
  let! loss_gate := loss_gate nll_loss kd_rate in
  let! kd_loss := kd_loss in
  select_at_or_above nll_loss loss_gate kd_loss.

(** The first loop of the [global_multi_level] branch: push the NLL values
    of every language to its queue.  The local [nll_loss_lang] keeps the
    value of the last iteration. *)
Fixpoint push_languages (c : criterion) (st : state) (nll_rows : list (list Q))
    (items : list (Z * list nat)) (nll_loss_lang : option (list Q))
  : result (state * option (list Q)) :=
  match items with
  | [] => ok (st, nll_loss_lang)
  | (key, val) :: rest =>
      let! selected := index_select0 nll_rows val in
      let nll_loss_lang := concat selected in
      let! st := push_to_lang_FIFO_queue c st key nll_loss_lang in
      push_languages c st nll_rows rest (Some nll_loss_lang)
  end.

(** The second loop: [for idx, kd_rate in zip(indices.keys(), kd_rates)],
    accumulating [total_kd_loss].  [nll_loss_lang] is the variable the first
    loop left behind, and [KD_indices] index the whole-batch [kd_loss]. *)
Fixpoint select_languages (st : state) (kd_loss : list Q)
    (nll_loss_lang : option (list Q)) (pairs : list (Z * option Q))
    (total_kd_loss : Q) : result Q :=
  match pairs with
  | [] => ok total_kd_loss
  | (idx, kd_rate) :: rest =>
      let! q := queue_of st idx in
      let! loss_gate := loss_gate q kd_rate in
      let! nll_loss_lang' := bound nll_loss_lang in
      let KD_mask := map (fun x => Qle_bool loss_gate x) nll_loss_lang' in
      let KD_indices := nonzero KD_mask in
      let! picked := gather0 kd_loss KD_indices in
      select_languages st kd_loss nll_loss_lang rest (total_kd_loss + tsum picked)
  end.

(** *** The loss, for a tensor runtime with exponential [texp] and
    logarithm [tlog] *)

Section Runtime.

Variables texp tlog : Q -> Q.

Local Abbreviation o := (Arith.Qops texp tlog).

(** [F.relu(torch.tanh(x))], with [tanh] as the quotient of the runtime's
    exponentials.  Nothing is assumed of [texp] here: an exponential that
    vanishes on large negative arguments makes the quotient exactly 1 (or
    -1) there, which is how the runtime's [tanh] saturates for large [x]. *)
Definition tanh (x : Q) : Q := (texp x - texp (- x)) / (texp x + texp (- x)).
Definition relu (x : Q) : Q := if Qle_bool x 0 then 0 else x.

(** [F.cross_entropy(input, target, reduction='none')] with class
    probabilities as targets: one value per row. *)
Definition cross_entropy (input target : list (list Q)) : result (list Q) :=
  zip_same (fun x p =>
              - tsum (map (fun q => fst q * snd q)
                          (combine p (Kernels.log_softmax o x))))
           input target.

(** [F.kl_div(F.log_softmax(rearrange(a)), F.log_softmax(rearrange(b)),
    log_target=True)] before its reduction: the point-wise terms
    [exp(target) * (target - input)]. *)
Definition kl_log_softmax (a b : tensor4) : result (list Q) :=
  let input := concat (concat (map (map (Kernels.log_softmax o)) (rearrange a))) in
  let target := concat (concat (map (map (Kernels.log_softmax o)) (rearrange b))) in
  zip_same (fun i t => texp t * (t - i)) input target.

(** [reduction='sum'] and [reduction='batchmean'] *)
Definition kl_sum (a b : tensor4) : result Q :=
  let! terms := kl_log_softmax a b in ok (tsum terms).
Definition kl_batchmean (a b : tensor4) : result Q :=
  let! terms := kl_log_softmax a b in
  ok (tsum terms / inject_Z (Z.of_nat (length a))).

(** [F.kl_div(input, target, reduction='mean')]: the point-wise terms are
    [target * (log target - input)], and 0 where the target is 0.  The
    result is nan ([None]) when a target is negative (the logarithm of a
    negative number) and when the tensors have no entry (the mean of
    nothing). *)
Definition kl_div_mean (input target : tensor4) : result (option Q) :=
  let! terms :=
    zip_same (fun i t => if Qeq_bool t 0 then 0 else t * (tlog t - i))
             (flatten4 input) (flatten4 target) in
  if (existsb (fun t => Qltb t 0) (flatten4 target) || Nat.eqb (length terms) 0)%bool
  then ok None
  else ok (Some (tsum terms / inject_Z (Z.of_nat (length terms)))).

(** The confidence weight of the two [_uncertainty] modes: [probs],
    [entropy], [avg_prob], [weight], [weight_mean]. *)
Definition entropy_weight_mean (lprobs : tensor2 Q) : result Q :=
  let entropy :=
    map (fun row => tsum (map (fun lp => texp lp * lp) row)) (rows lprobs) in
  if Nat.eqb (ncols lprobs) 0 then raise ZeroDivisionError else
  let avg_prob := repeat (1 / inject_Z (Z.of_nat (ncols lprobs)) * 1) (ncols lprobs) in
  let denom := tsum (map (fun a => a * tlog a) avg_prob) in
  let weight := map (fun h => h / denom) entropy in
  ok (tsum weight / inject_Z (Z.of_nat (length weight))).

(** [kd_loss = F.cross_entropy(student_logits_T, teacher_probs_T,
    reduction='none')] followed by [kd_loss.masked_fill_(pad_mask, 0)].
    A temperature of 0 is outside the model: the runtime divides by it
    without an exception. *)
Definition kd_cross_entropy (c : criterion) (student_logits teacher_logits : list (list Q))
    (pad_mask : list bool) : result (list Q) :=
  let student_logits_T := map (map (fun x => x / student_temp c)) student_logits in
  let teacher_probs_T :=
    map (fun row => Kernels.softmax o (map (fun x => x / teacher_temp c) row))
        teacher_logits in
  let! kd_loss := cross_entropy student_logits_T teacher_probs_T in
  masked_fill kd_loss pad_mask 0.

(** Lines 411 to 431 ([global_multi_level]): group the sentences by
    language, push every language's NLL values to its queue, then gate and
    select per language.  [kd_loss] is the masked per-token KD loss of the
    whole batch. *)
Definition global_multi_level_select (c : criterion) (st : state)
    (inp_tokens : list (list Z)) (nll_loss kd_loss : list Q)
  : result (state * Q) :=
  let! lang_ids := get_lang_ids c inp_tokens in
  let indices := group_by_lang lang_ids in
  let! nll_rows := view_rows (length inp_tokens) nll_loss in
  let! pushed := push_languages c st nll_rows indices None in
  let (st, nll_loss_lang) := pushed : state * option (list Q) in
  let! kd_rates :=
    Kernels.get_lang_kd_rates o (use_adaptive_kd_rates c) (kd_rate c)
      indices (kd_selection_temp c) in
  let! total_kd_loss :=
    select_languages st kd_loss nll_loss_lang
      (combine (map fst indices) kd_rates) 0 in
  ok (st, total_kd_loss).

(** The local variables of [compute_loss] that outlive the strategy
    branches. *)
Record locals : Type := Locals {
  l_state : state;
  l_loss : tval;
  l_extra : gmap string tval;
  l_kd_loss : option (list Q);
  l_lprobs : tensor2 Q;
  l_golden_loss : list Q
}.

(** The three entries every strategy adds to [extra]. *)
Definition log_kd (extra : gmap string tval) (kd nll_student nll_teacher : Q)
  : gmap string tval :=
  <["nll_loss_teacher" := Scalar nll_teacher]>
    (<["nll_loss_student" := Scalar nll_student]>
       (<["kd_loss" := Scalar kd]> extra)).

(** Lines 295 to 438 of [compute_loss]: golden loss and the KD strategy. *)
Definition token_level (c : criterion) (st : state) (m : model_out) (s : sample)
  : result locals :=
  let (lprobs, target) := get_lprobs_and_target c m s in
  let pad_mask := map (fun t => (t =? padding_idx c)%Z) target in
  let extra : gmap string tval := ∅ in
  (* student logits, teacher probabilities *)
  let student_logits := concat (logits m) in
  let! teacher_logits := not_none (teacher_output s) in
  let teacher_logits := concat teacher_logits in
  let teacher_lprobs := teacher_lprobs s in
  (* preliminary loss and nll_loss of the student *)
  let! gn := label_smoothed_nll_loss lprobs target (eps c)
               (Some (padding_idx c)) false in
  let (golden_loss, nll_loss) := gn : tval * tval in
  let! nll_loss_teacher :=
    match teacher_lprobs with
    | Some tl =>
        let! r := label_smoothed_nll_loss (Tensor2 (vocab m) (concat tl)) target
                    (eps c) (Some (padding_idx c)) false in
        ok (Some (snd r))
    | None => ok None
    end in
  let nll_loss := view1 nll_loss in
  let! nll_loss_teacher := bound nll_loss_teacher in
  let nll_loss_teacher := view1 nll_loss_teacher in
  let golden_loss := view1 golden_loss in
  let extra := <["golden_loss" := Scalar (tsum golden_loss)]> extra in
  match teacher_output s with
  | None =>
      ok (Locals st (Vector golden_loss) extra None lprobs golden_loss)
  | Some _ =>
      if String.eqb (kd_strategy c) "word_and_seq_level" then
        let! kd_loss := kd_cross_entropy c student_logits teacher_logits pad_mask in
        let extra := log_kd extra (tsum kd_loss) (tsum nll_loss) (tsum nll_loss_teacher) in
        let! st :=
          if use_adaptive_weightage c then
            let! beta := not_none (beta c) in
            let! a := zip_same (fun t n => relu (tanh (beta * (t - n))))
                               nll_loss_teacher nll_loss in
            ok (State (Some (Vector a)) (queue st))
          else ok st in
        let! g := golden_part (alpha st) golden_loss in
        let! al := not_none (alpha st) in
        let! k := tval_op Qmult al (Vector kd_loss) in
        ok (Locals st (Scalar (g + tval_sum k)) extra (Some kd_loss) lprobs golden_loss)
      else if (negb (use_adaptive_weightage c)
               && String.eqb (kd_strategy c) "batch_level")%bool then
        let! kd_loss :=
          batch_level_select nll_loss (kd_rate c)
            (kd_cross_entropy c student_logits teacher_logits pad_mask) in
        let extra := log_kd extra (tsum kd_loss) (tsum nll_loss) (tsum nll_loss_teacher) in
        let! loss := mix (alpha st) (tsum golden_loss) (tsum kd_loss) in
        ok (Locals st loss extra (Some kd_loss) lprobs golden_loss)
      else if (negb (use_adaptive_weightage c)
               && String.eqb (kd_strategy c) "global_level")%bool then
        let student_logits_T := map (map (fun x => x / student_temp c)) student_logits in
        let teacher_probs_T :=
          map (fun row => Kernels.softmax o (map (fun x => x / teacher_temp c) row))
              teacher_logits in
        let! kd_loss := cross_entropy student_logits_T teacher_probs_T in
        let! st := push_to_FIFO_queue c st nll_loss in
        let! q := match queue st with
                  | QueueTensor q => ok q
                  | QueueDict _ => raise AttributeError
                  end in
        let! loss_gate := loss_gate q (kd_rate c) in
        let! kd_loss := masked_fill kd_loss pad_mask 0 in
        let! kd_loss := select_at_or_above nll_loss loss_gate kd_loss in
        let extra := log_kd extra (tsum kd_loss) (tsum nll_loss) (tsum nll_loss_teacher) in
        let! loss := mix (alpha st) (tsum golden_loss) (tsum kd_loss) in
        ok (Locals st loss extra (Some kd_loss) lprobs golden_loss)
      else if (negb (use_adaptive_weightage c)
               && String.eqb (kd_strategy c) "global_multi_level")%bool then
        let! kd_loss := kd_cross_entropy c student_logits teacher_logits pad_mask in
        let! r := global_multi_level_select c st (src_tokens s) nll_loss kd_loss in
        let (st, total_kd_loss) := r : state * Q in
        let extra := log_kd extra total_kd_loss (tsum nll_loss) (tsum nll_loss_teacher) in
        let! loss := mix (alpha st) (tsum golden_loss) total_kd_loss in
        ok (Locals st loss extra (Some kd_loss) lprobs golden_loss)
      else raise ValueError
  end.

(** The attention and value-relation maps handed to [compute_loss]. *)
Record maps : Type := Maps {
  attn : option tensor4;
  decoder_self_attn : option tensor4;
  decoder_cross_attn : option tensor4;
  teacher_attn : option tensor4;
  teacher_decoder_self_attn : option tensor4;
  teacher_decoder_cross_attn : option tensor4;
  m_value_relation : option tensor4;
  m_teacher_value_relation : option tensor4;
  m_regressed_maps : option tensor4
}.

(** [F.mse_loss(a, b, reduction='mean')] where an argument may be [None] *)
Definition mse_loss_opt (a b : option tensor4) : result Q :=
  let! a := not_none a in
  let! b := not_none b in
  mse_loss a b.

Definition kl_sum_opt (a b : option tensor4) : result Q :=
  let! a := not_none a in
  let! b := not_none b in
  kl_sum a b.

(** The [if self.value_kd:] block of the modes [mse], [mse_uncertainty]
    and [regression]. *)
Definition value_relation_term (c : criterion) (epoch : Z) (mp : maps) : result Q :=
  let! value_relation := not_none (m_value_relation mp) in
  let x := shape2 value_relation in
  let! teacher_value_relation := not_none (m_teacher_value_relation mp) in
  let! kl := kl_batchmean teacher_value_relation value_relation in
  ok (kl * rambda c * decay c ^ (epoch - 1) / inject_Z (Z.of_nat x * 4)).

Definition value_relation_if (c : criterion) (epoch : Z) (mp : maps)
  : result (option Q) :=
  if value_kd c then
    let! v := value_relation_term c epoch mp in ok (Some v)
  else ok None.

(** The decoder self- and cross-attention terms, with [F.mse_loss]. *)
Definition decoder_mse (c : criterion) (epoch : Z) (mp : maps)
  : result (option Q * option Q) :=
  if (self_kd c && cross_kd c)%bool then
    let! a := mse_loss_opt (decoder_self_attn mp) (teacher_decoder_self_attn mp) in
    let! b := mse_loss_opt (decoder_cross_attn mp) (teacher_decoder_cross_attn mp) in
    ok (Some (a * rambda c * decay c ^ (epoch - 1) / 2),
        Some (b * rambda c * decay c ^ (epoch - 1) / 2))
  else if self_kd c then
    let! a := mse_loss_opt (decoder_self_attn mp) (teacher_decoder_self_attn mp) in
    ok (Some (a * rambda c * decay c ^ (epoch - 1)), None)
  else if cross_kd c then
    let! b := mse_loss_opt (decoder_cross_attn mp) (teacher_decoder_cross_attn mp) in
    ok (None, Some (b * rambda c * decay c ^ (epoch - 1)))
  else ok (None, None).

(** The same terms with the summed KL divergence of the [kld] modes. *)
Definition decoder_kld (c : criterion) (epoch : Z) (mp : maps)
  : result (option Q * option Q) :=
  if (self_kd c && cross_kd c)%bool then
    let! a := kl_sum_opt (decoder_self_attn mp) (teacher_decoder_self_attn mp) in
    let! b := kl_sum_opt (decoder_cross_attn mp) (teacher_decoder_cross_attn mp) in
    ok (Some (a * decay c ^ (epoch - 1) / 2 * rambda c),
        Some (b * decay c ^ (epoch - 1) / 2 * rambda c))
  else if self_kd c then
    let! a := kl_sum_opt (decoder_self_attn mp) (teacher_decoder_self_attn mp) in
    ok (Some (a * decay c ^ (epoch - 1) * rambda c), None)
  else if cross_kd c then
    let! b := kl_sum_opt (decoder_cross_attn mp) (teacher_decoder_cross_attn mp) in
    ok (None, Some (b * decay c ^ (epoch - 1) * rambda c))
  else ok (None, None).

Definition decoder_if (c : criterion)
    (terms : result (option Q * option Q)) : result (option Q * option Q) :=
  if decoder_kd c then terms else ok (None, None).

(** What a loss-type block leaves behind: the five auxiliary losses (each
    [None] until assigned), or the early [return loss, extra] of the two
    [_uncertainty] modes. *)
Record aux : Type := Aux {
  attn_loss : option Q;
  decoder_self_attn_loss : option Q;
  decoder_cross_attn_loss : option Q;
  value_relation_loss : option Q;
  regression_loss : option Q
}.

Inductive outcome : Type :=
  | Continue (a : aux)
  | Return (loss : tval) (extra : gmap string tval).

(** The tail shared by [mse_uncertainty] (factor 1, no [weight] entry)
    and [kld_uncertainty] (factor 2, [weight] logged). *)
Definition uncertainty_return (l : locals) (attn_loss : Q)
    (dec : option Q * option Q) (factor : Q) (log_weight : bool)
  : result outcome :=
  let! ds := not_none (fst dec) in
  let! dc := not_none (snd dec) in
  let rep_loss := attn_loss + ds + dc in
  let extra := <["attn_loss" := Scalar attn_loss]> (l_extra l) in
  let extra := <["decoder_self_attn_loss" := Scalar ds]> extra in
  let extra := <["decoder_cross_attn_loss" := Scalar dc]> extra in
  let! weight_mean := entropy_weight_mean (l_lprobs l) in
  let! loss := golden_part (alpha (l_state l)) (l_golden_loss l) in
  let rep_loss := weight_mean * rep_loss * factor in
  let! kd_loss := bound (l_kd_loss l) in
  let! al := not_none (alpha (l_state l)) in
  let kd_loss :=
    tval_map (fun a => (1 - weight_mean) * a * tsum kd_loss * factor) al in
  let extra := if log_weight then <["weight" := Scalar weight_mean]> extra else extra in
  let extra := <["rep_loss" := Scalar rep_loss]> extra in
  let extra := <["kd_loss" := kd_loss]> extra in
  let! added := tval_op Qplus (Scalar rep_loss) kd_loss in
  let! loss := tval_op Qplus (Scalar loss) added in
  ok (Return loss extra).

Definition no_aux : aux := Aux None None None None None.

(** The block of one loss type, for an epoch in 1..100 with [attn] and
    [teacher_attn] present.  In [regression] with [decoder_kd], and always
    in [minilm], the code reads the local [decoder_attn], which nothing
    assigns before. *)
Definition loss_type_block (c : criterion) (l : locals) (epoch : Z) (mp : maps)
    (attn teacher_attn : tensor4) : result outcome :=
  let lt := loss_type c in
  if String.eqb lt "mse" then
    let! a := mse_loss attn teacher_attn in
    let attn_loss := a * rambda c * decay c ^ (epoch - 1) in
    let! v := value_relation_if c epoch mp in
    let! dec := decoder_if c (decoder_mse c epoch mp) in
    ok (Continue (Aux (Some attn_loss) (fst dec) (snd dec) v None))
  else if String.eqb lt "mse_uncertainty" then
    let! a := mse_loss attn teacher_attn in
    let attn_loss := a * rambda c * decay c ^ (epoch - 1) in
    let! v := value_relation_if c epoch mp in
    let! dec := decoder_if c (decoder_mse c epoch mp) in
    uncertainty_return l attn_loss dec 1 false
  else if String.eqb lt "regression" then
    let! r := mse_loss_opt (Some attn) (m_regressed_maps mp) in
    let regression_loss := r * rambda c * decay c ^ (epoch - 1) / 50 in
    let! v := value_relation_if c epoch mp in
    if decoder_kd c then raise UnboundLocalError
    else ok (Continue (Aux None None None v (Some regression_loss)))
  else if String.eqb lt "kld_uncertainty" then
    let! _ := golden_part (alpha (l_state l)) (l_golden_loss l) in
    let! a := kl_sum attn teacher_attn in
    let attn_loss := a * decay c ^ (epoch - 1) * rambda c in
    let! dec := decoder_if c (decoder_kld c epoch mp) in
    uncertainty_return l attn_loss dec 2 true
  else if String.eqb lt "kld" then
    let! a := kl_sum attn teacher_attn in
    let attn_loss := a * decay c ^ (epoch - 1) * rambda c in
    let! dec := decoder_if c (decoder_kld c epoch mp) in
    ok (Continue (Aux (Some attn_loss) (fst dec) (snd dec) None None))
  else if String.eqb lt "decoder" then
    let! dec := decoder_mse c epoch mp in
    ok (Continue (Aux None (fst dec) (snd dec) None None))
  else if String.eqb lt "minilm" then
    let attn := last4 attn in
    let teacher_attn := last4 teacher_attn in
    let! value_relation := not_none (m_value_relation mp) in
    let! teacher_value_relation := not_none (m_teacher_value_relation mp) in
    raise UnboundLocalError
  else ok (Continue no_aux).

(** [if epoch: ...]: the epoch gate and the 100-epoch horizon.  Above
    epoch 100 the two KL terms are multiplied by 0; a term that is nan stays
    nan, is truthy and is added to the loss, which is nan then. *)
Definition auxiliary (c : criterion) (l : locals) (epoch : option Z) (mp : maps)
  : result outcome :=
  match epoch with
  | None => ok (Continue no_aux)
  | Some e =>
      if (e =? 0)%Z then ok (Continue no_aux)
      else
        match attn mp, teacher_attn mp with
        | Some attn, Some teacher_attn =>
            if (e <=? 100)%Z then loss_type_block c l e mp attn teacher_attn
            else
              let! a := kl_div_mean attn teacher_attn in
              let! value_relation := not_none (m_value_relation mp) in
              let! teacher_value_relation := not_none (m_teacher_value_relation mp) in
              let! v := kl_div_mean value_relation teacher_value_relation in
              match a, v with
              | Some a, Some v =>
                  let attn_loss := a * rambda c * 0 in
                  let value_relation_loss := v * rambda c * 0 in
                  ok (Continue (Aux (Some attn_loss) None None
                                    (Some value_relation_loss) None))
              | _, _ => raise NotANumber
              end
        | _, _ => ok (Continue no_aux)
        end
  end.

(** [if x: extra[name] = x.sum(); loss += x] *)
Definition add_if (name : string) (x : option Q) (acc : tval * gmap string tval)
  : result (tval * gmap string tval) :=
  match x with
  | None => ok acc
  | Some q =>
      if Qeq_bool q 0 then ok acc
      else
        let! loss := tval_op Qplus (fst acc) (Scalar q) in
        ok (loss, <[name := Scalar q]> (snd acc))
  end.

(** [compute_loss]: the loss, [extra], and the criterion's state after
    the call. *)
Definition compute_loss (c : criterion) (st : state) (m : model_out) (s : sample)
    (epoch : option Z) (mp : maps) : result (tval * gmap string tval * state) :=
  let! l := token_level c st m s in
  let! out := auxiliary c l epoch mp in
  match out with
  | Return loss extra => ok (loss, extra, l_state l)
  | Continue a =>
      let acc := (l_loss l, l_extra l) in
      let! acc := add_if "attn_loss" (attn_loss a) acc in
      let! acc := add_if "decoder_self_attn_loss" (decoder_self_attn_loss a) acc in
      let! acc := add_if "decoder_cross_attn_loss" (decoder_cross_attn_loss a) acc in
      let! acc := add_if "value_relation_loss" (value_relation_loss a) acc in
      let! acc := add_if "regression_loss" (regression_loss a) acc in
      ok (fst acc, snd acc, l_state l)
  end.

(** [compute_accuracy] *)
Fixpoint argmax_from (i best_i : nat) (best : Q) (row : list Q) : nat :=
  match row with
  | [] => best_i
  | x :: row' =>
      if Qltb best x then argmax_from (S i) i x row'
      else argmax_from (S i) best_i best row'
  end.
Definition argmax (row : list Q) : nat :=
  match row with
  | [] => 0%nat
  | x :: row' => argmax_from 1 0 x row'
  end.

Definition compute_accuracy (c : criterion) (m : model_out) (s : sample)
  : result (Z * Z) :=
  let (lprobs, target) := get_lprobs_and_target c m s in
  let mask := map (fun t => negb (t =? padding_idx c)%Z) target in
  let! hits :=
    zip_same (fun row t => (Z.of_nat (argmax row) =? t)%Z) (rows lprobs) target in
  let! masked := zip_same andb hits mask in
  ok (Z.of_nat (length (List.filter (fun b : bool => b) masked)),
      Z.of_nat (length (List.filter (fun b : bool => b) mask))).

(** [extra[key].data if extra.get(key, None) is not None else default] *)
Definition extra_or (extra : gmap string tval) (key : string) (default : tval) : tval :=
  match extra !! key with
  | Some v => v
  | None => default
  end.

(** [forward]: loss, sample size, logging output, and the state after the
    call. *)
Definition forward (c : criterion) (st : state) (m : model_out) (s : sample)
    (epoch : option Z) : result (tval * Z * gmap string tval * state) :=
  let mp := {| attn := attn_output m;
               decoder_self_attn := self_attn_tensor m;
               decoder_cross_attn := cross_attn_tensor m;
               teacher_attn := teacher_attn_output s;
               teacher_decoder_self_attn := teacher_decoder_self_attn_output s;
               teacher_decoder_cross_attn := teacher_decoder_cross_attn_output s;
               m_value_relation := value_relation m;
               m_teacher_value_relation := teacher_value_relation s;
               m_regressed_maps := regressed_maps m |} in
  let! r := compute_loss c st m s epoch mp in
  let '(loss, extra, st) := r in
  let nsentences := Z.of_nat (length (target s)) in
  let sample_size := if sentence_avg c then nsentences else ntokens s in
  let zero := Scalar 0 in
  let logging_output : gmap string tval :=
    list_to_map
      [ ("loss", loss);
        ("ntokens", Scalar (inject_Z (ntokens s)));
        ("nsentences", Scalar (inject_Z nsentences));
        ("sample_size", Scalar (inject_Z sample_size));
        ("kd_loss", extra_or extra "kd_loss" zero);
        ("nll_loss_student", extra_or extra "nll_loss_student" loss);
        ("nll_loss_teacher", extra_or extra "nll_loss_teacher" zero);
        ("attn_loss", extra_or extra "attn_loss" zero);
        ("decoder_self_attn_loss", extra_or extra "decoder_self_attn_loss" zero);
        ("decoder_cross_attn_loss", extra_or extra "decoder_cross_attn_loss" zero);
        ("rep_loss", extra_or extra "rep_loss" zero);
        ("golden_loss", extra_or extra "golden_loss" zero);
        ("weight", extra_or extra "weight" zero) ]%string in
  let! logging_output :=
    if report_accuracy c then
      let! acc := compute_accuracy c m s in
      ok (<["total" := Scalar (inject_Z (snd acc))]>
            (<["n_correct" := Scalar (inject_Z (fst acc))]> logging_output))
    else ok logging_output in
  ok (loss, sample_size, logging_output, st).

End Runtime.

End Criterion.

(** ** Sequences of calls, and the specification's reading of the selection *)

Module Spec.

Import Torch Criterion.
Local Open Scope Q_scope.

(** [push_to_FIFO_queue] called once per tensor of [tensors], in order. *)
Fixpoint push_all (c : criterion) (st : state) (tensors : list (list Q))
  : result state :=
  match tensors with
  | [] => ok st
  | tensor :: rest =>
      let! st := push_to_FIFO_queue c st tensor in
      push_all c st rest
  end.

(** The number of entries that a push of [tensor] removes from the front of
    [queue]: as many as the tensor has (all of the queue when it is the
    shorter one) once the two sizes add up to [kd_queue_size], none before. *)
Definition evicted (kd_queue_size : Z) (queue tensor : list Q) : nat :=
  if (kd_queue_size <=? Z.of_nat (length tensor + length queue))%Z
  then Nat.min (length tensor) (length queue)
  else 0%nat.

(** The order in which [topk] returns its values. *)
Definition descending : list Q -> Prop := StronglySorted (fun a b => b <= a).
Definition strictly_descending : list Q -> Prop := StronglySorted (fun a b => b < a).

(** The values of a tensor are pairwise distinct. *)
Fixpoint pairwise_distinct (x : list Q) : bool :=
  match x with
  | [] => true
  | a :: x' => forallb (fun b => negb (Qeq_bool a b)) x' && pairwise_distinct x'
  end.

(** The KD values of the tokens whose NLL satisfies [keep]. *)
Definition kd_where (keep : Q -> bool) (nll_loss kd_loss : list Q) : list Q :=
  map snd (List.filter (fun p : Q * Q => keep (fst p)) (combine nll_loss kd_loss)).

(** The specification's testable property 4 for [batch_level]: the summed
    KD loss contains only the tokens strictly below the gate. *)
Definition kd_strictly_below_gate (loss_gate : Q) (nll_loss kd_loss : list Q) : list Q :=
  kd_where (fun x => Qltb x loss_gate) nll_loss kd_loss.

(** What the code of [batch_level] keeps: the tokens at or above the gate. *)
Definition kd_at_or_above_gate (loss_gate : Q) (nll_loss kd_loss : list Q) : list Q :=
  kd_where (fun x => Qle_bool loss_gate x) nll_loss kd_loss.

(** The base label-smoothed NLL in the specification's words, for one token
    with log-probabilities [row] and target [t]: the negative log-likelihood
    [-lprobs[target]], the smoothing loss [-sum lprobs], both zeroed at
    padding positions, and with [eps_i = epsilon / (V - 1)] the loss
    [(1 - epsilon - eps_i) * nll + eps_i * smooth_loss]. *)
Definition token_nll (pad : Z) (row : list Q) (t : Z) : Q :=
  if (t =? pad)%Z then 0 else - nth (Z.to_nat t) row 0.

Definition token_smooth (pad : Z) (row : list Q) (t : Z) : Q :=
  if (t =? pad)%Z then 0 else - tsum row.

Definition token_loss (V : nat) (epsilon : Q) (pad : Z) (row : list Q) (t : Z) : Q :=
  let eps_i := epsilon / inject_Z (Z.of_nat V - 1) in
  (1 - epsilon - eps_i) * token_nll pad row t + eps_i * token_smooth pad row t.

(** The specification's reading of [global_multi_level]: for every language
    of the batch, the gate of that language's own queue (after the batch
    was pushed), applied to that language's own tokens: the sum of their KD
    values where their NLL is at or above the gate. *)
Fixpoint per_language_total (st : state) (nll_rows kd_rows : list (list Q))
    (pairs : list ((Z * list nat) * option Q)) : result Q :=
  match pairs with
  | [] => ok 0
  | ((key, val), kd_rate) :: rest =>
      let! q := queue_of st key in
      let! gate := loss_gate q kd_rate in
      let! nll_lang := index_select0 nll_rows val in
      let! kd_lang := index_select0 kd_rows val in
      let here := tsum (kd_at_or_above_gate gate (concat nll_lang) (concat kd_lang)) in
      let! there := per_language_total st nll_rows kd_rows rest in
      ok (here + there)
  end.

Definition global_multi_level_expected (texp tlog : Q -> Q) (c : criterion)
    (st : state) (inp_tokens : list (list Z)) (nll_loss kd_loss : list Q)
  : result Q :=
  let! lang_ids := get_lang_ids c inp_tokens in
  let indices := group_by_lang lang_ids in
  let! nll_rows := view_rows (length inp_tokens) nll_loss in
  let! kd_rows := view_rows (length inp_tokens) kd_loss in
  let! pushed := push_languages c st nll_rows indices None in
  let! kd_rates :=
    Kernels.get_lang_kd_rates (Arith.Qops texp tlog) (use_adaptive_kd_rates c)
      (kd_rate c) indices (kd_selection_temp c) in
  per_language_total (fst pushed) nll_rows kd_rows (combine indices kd_rates).

(** *** The weighting of the representation terms *)

Section Schedule.

Variables texp tlog : Q -> Q.





End Schedule.













(** A one-hot probability vector over [V] classes: all the mass on class
    [k]. *)
Definition one_hot (V k : nat) : list R :=
  repeat 0%R k ++ [1%R] ++ repeat 0%R (V - k - 1).

End Spec.

(** ** Concrete configurations, batches and a rational runtime *)

Module Examples.

Import Torch Criterion.
Local Open Scope Q_scope.

(** Rational stand-ins for the runtime's [exp] and [log]: the exponential
    series to 10 terms, and the series of [2 atanh ((y-1)/(y+1))] to 8
    terms (0 outside the positive numbers). *)
Fixpoint exp_terms (n : nat) (k : Z) (term x : Q) : Q :=
  match n with
  | O => 0
  | S n' => Qred (term + exp_terms n' (k + 1) (Qred (term * x / inject_Z (k + 1))) x)
  end.
Definition exp_q (x : Q) : Q := exp_terms 10 0 1 x.

Fixpoint atanh_terms (n : nat) (k : Z) (power z2 : Q) : Q :=
  match n with
  | O => 0
  | S n' => Qred (power / inject_Z (2 * k + 1)
                  + atanh_terms n' (k + 1) (Qred (power * z2)) z2)
  end.
Definition log_q (y : Q) : Q :=
  if Qle_bool y 0 then 0
  else let z := Qred ((y - 1) / (y + 1)) in
       Qred (2 * atanh_terms 8 0 z (Qred (z * z))).

Definition a_task (kd_strategy : string) : task :=
  {| task_kd_strategy := kd_strategy; src_lang_ids := [100; 200]%Z; target_pad := 1%Z |}.

(** A configuration with the defaults of the source where it has them
    ([label_smoothing = 0], temperatures 1, no adaptive options), a fixed
    [kd_rate] and [alpha] of 1/2, [rambda = 8] and [decay = 1/2]. *)
Definition a_config (kd_queue_size : Z) (adaptive_smoothing : option Q)
    (loss_type : string) (decoder_kd : bool) : config :=
  {| cfg_sentence_avg := false;
     cfg_label_smoothing := 0;
     cfg_kd_rate := Some (1 # 2);
     cfg_kd_queue_size := kd_queue_size;
     cfg_student_temp := 1;
     cfg_teacher_temp := 1;
     cfg_alpha := Some (1 # 2);
     cfg_use_adaptive_weightage := false;
     cfg_adaptive_smoothing := adaptive_smoothing;
     cfg_use_adaptive_kd_rates := false;
     cfg_kd_selection_temp := None;
     cfg_rambda := 8;
     cfg_decay := 1 # 2;
     cfg_loss_type := loss_type;
     cfg_decoder_kd := decoder_kd;
     cfg_self_kd := true;
     cfg_cross_kd := true;
     cfg_value_kd := false;
     cfg_regressor := false;
     cfg_ignore_prefix_size := 0;
     cfg_report_accuracy := false |}.

(** A batch of one sentence with one target token over a vocabulary of two
    classes: the student's logits are (0, 1) and its log-probabilities those
    of [log_softmax (0, 1)] to one decimal; the teacher's are mirrored.  The
    student's encoder attention map is the single entry 1 where the teacher
    has 2; the decoder maps of student and teacher coincide. *)
Definition one_token_model : model_out :=
  {| vocab := 2;
     logits := [[[0; 1]]];
     normalized_lprobs := [[[-(13 # 10); -(3 # 10)]]];
     self_attn_tensor := Some [[[[1 # 2]]]];
     cross_attn_tensor := Some [[[[1 # 3]]]];
     attn_output := Some [[[[1]]]];
     value_relation := None;
     regressed_maps := None |}.

Definition one_token_sample : sample :=
  {| src_tokens := [[100; 5]]%Z;
     target := [[0]]%Z;
     ntokens := 1;
     teacher_output := Some [[[1; 0]]];
     teacher_lprobs := Some [[[-(3 # 10); -(13 # 10)]]];
     teacher_attn_output := Some [[[[2]]]];
     teacher_decoder_self_attn_output := Some [[[[1 # 2]]]];
     teacher_decoder_cross_attn_output := Some [[[[1 # 3]]]];
     teacher_value_relation := None |}.

(** The maps [forward] passes to [compute_loss] for a model output and a
    batch. *)
Definition maps_of (m : model_out) (s : sample) : maps :=
  {| attn := attn_output m;
     decoder_self_attn := self_attn_tensor m;
     decoder_cross_attn := cross_attn_tensor m;
     teacher_attn := teacher_attn_output s;
     teacher_decoder_self_attn := teacher_decoder_self_attn_output s;
     teacher_decoder_cross_attn := teacher_decoder_cross_attn_output s;
     m_value_relation := value_relation m;
     m_teacher_value_relation := teacher_value_relation s;
     m_regressed_maps := regressed_maps m |}.


End Examples.

(** ** The task ([fairseq/tasks/kd_translation.py]) *)

Module Task.

(** A fairseq [Dictionary] as the task reads it: [len(d)] symbols, [d[i]]
    the i-th of them (the unknown word beyond the end), and [d.pad()]. *)
Record dictionary : Type := Dictionary {
  symbols : list string;
  unk_word : string;
  pad : Z
}.

Definition getitem (d : dictionary) (i : nat) : string := nth i (symbols d) (unk_word d).

(** [KDTranslationConfig]: the fields the task adds to [TranslationConfig]. *)
Record KDTranslationConfig : Type := Config {
  cfg_loss_type : string;
  cfg_regressor : bool;
  cfg_decoder_kd : Z;
  cfg_self_kd : Z;
  cfg_cross_kd : Z;
  cfg_value_kd : Z;
  cfg_kd_strategy : string;
  cfg_teacher_checkpoint_path : string;
  cfg_rambda : Q;
  cfg_link : bool
}.

(** The attributes of a [KDTranslationTask]. *)
Record KDTranslationTask : Type := Task {
  src_dict : dictionary;
  tgt_dict : dictionary;
  kd_strategy : string;
  src_lang_ids : list Z;
  rambda : Q;
  link : bool;
  regressor : bool;
  loss_type : string;
  decoder_kd : Z;
  self_kd : Z;
  cross_kd : Z;
  value_kd : Z
}.

(** [s.startswith(prefix)] *)
Definition startswith (s prefix : string) : bool := String.prefix prefix s.

Definition __init__ (cfg : KDTranslationConfig) (src_dict tgt_dict : dictionary)
  : KDTranslationTask :=
  {| src_dict := src_dict;
     tgt_dict := tgt_dict;
     kd_strategy := cfg_kd_strategy cfg;
     src_lang_ids :=
       map Z.of_nat
           (List.filter (fun i => startswith (getitem src_dict i) "__src__")
                        (seq 0 (length (symbols src_dict))));
     rambda := cfg_rambda cfg;
     link := cfg_link cfg;
     regressor := cfg_regressor cfg;
     loss_type := cfg_loss_type cfg;
     decoder_kd := cfg_decoder_kd cfg;
     self_kd := cfg_self_kd cfg;
     cross_kd := cfg_cross_kd cfg;
     value_kd := cfg_value_kd cfg |}.

(** What the criterion reads from the task: [task.kd_strategy],
    [task.src_lang_ids] and [task.target_dictionary.pad()]. *)
Definition as_criterion_task (t : KDTranslationTask) : Criterion.task :=
  {| Criterion.task_kd_strategy := kd_strategy t;
     Criterion.src_lang_ids := src_lang_ids t;
     Criterion.target_pad := pad (tgt_dict t) |}.

End Task.

(** ** [reduce_metrics] and [logging_outputs_can_be_summed]

    The two static methods of the criterion.  The logging outputs are
    dictionaries from key to number; the calls of the host framework's
    [metrics] module are collected in order.  Divisions are exact; a sum of
    [sample_size] or [ntokens] that is 0 is outside the model. *)

Module Metrics.

Local Open Scope Q_scope.

Abbreviation logging_output := (gmap string Q).

(** [log.get(key, 0)] *)
Definition get (log : logging_output) (key : string) : Q :=
  match log !! key with
  | Some v => v
  | None => 0
  end.

(** [sum(log.get(key, 0) for log in logging_outputs)] *)
Definition sum_of (key : string) (logging_outputs : list logging_output) : Q :=
  fold_left (fun acc log => acc + get log key) logging_outputs 0.

(** One call of [metrics]: [log_scalar(key, value, weight, round=...)] with
    the default weight 1 written out, or [log_derived(key, fn)], of which
    only the key is kept. *)
Inductive call : Type :=
  | log_scalar (key : string) (value : Q) (weight : Q) (round : option Z)
  | log_derived (key : string).

Section Reduce.

(** [math.log(2)] *)
Variable ln2 : Q.

Definition reduce_metrics (logging_outputs : list logging_output) : list call :=
  let loss := sum_of "loss" logging_outputs in
  let nll_loss_student := sum_of "nll_loss_student" logging_outputs in
  let ntokens := sum_of "ntokens" logging_outputs in
  let sample_size := sum_of "sample_size" logging_outputs in
  let nll_loss_teacher := sum_of "nll_loss_teacher" logging_outputs in
  let kd_loss := sum_of "kd_loss" logging_outputs in
  let attn_loss := sum_of "attn_loss" logging_outputs in
  let decoder_self_attn_loss := sum_of "decoder_self_attn_loss" logging_outputs in
  let decoder_cross_attn_loss := sum_of "decoder_cross_attn_loss" logging_outputs in
  let rep_loss := sum_of "rep_loss" logging_outputs in
  let golden_loss := sum_of "golden_loss" logging_outputs in
  let weight := sum_of "weight" logging_outputs in
  [ log_scalar "loss" (loss / sample_size / ln2) sample_size (Some 3%Z);
    log_scalar "attn_loss" (attn_loss / sample_size / ln2) sample_size (Some 3%Z);
    log_scalar "rep_loss" (rep_loss / sample_size / ln2) sample_size (Some 3%Z);
    log_scalar "golden_loss" (golden_loss / sample_size / ln2) sample_size (Some 3%Z);
    log_scalar "decoder_self_attn_loss"
      (decoder_self_attn_loss / sample_size / ln2) sample_size (Some 3%Z);
    log_scalar "decoder_cross_attn_loss"
      (decoder_cross_attn_loss / sample_size / ln2) sample_size (Some 3%Z);
    log_scalar "nll_loss" (nll_loss_student / ntokens / ln2) ntokens (Some 3%Z);
    log_scalar "nll_loss_teacher" (nll_loss_teacher / ntokens / ln2) ntokens (Some 3%Z);
    log_scalar "kd_loss" (kd_loss / ntokens / ln2) ntokens (Some 3%Z);
    log_scalar "weight" (weight / 16) 1 (Some 3%Z);
    log_derived "ppl" ]
  ++
  let total := sum_of "total" logging_outputs in
  if Torch.Qltb 0 total then
    let n_correct := sum_of "n_correct" logging_outputs in
    [ log_scalar "total" total 1 None;
      log_scalar "n_correct" n_correct 1 None;
      log_derived "accuracy" ]
  else [].

End Reduce.

Definition logging_outputs_can_be_summed : bool := true.

End Metrics.

(** ** Notions used to state the further properties *)

Module Laws.

Import Torch Criterion.
Local Open Scope Q_scope.

(** The first token of a sentence that is not padding; the padding index
    itself when there is none. *)
Definition first_non_pad (pad : Z) (row : list Z) : Z :=
  hd pad (List.filter (fun t => negb (t =? pad)%Z) row).

(** [push_to_lang_FIFO_queue] called once per (language id, tensor) pair, in
    order. *)
Fixpoint push_lang_all (c : criterion) (st : state) (pushes : list (Z * list Q))
  : result state :=
  match pushes with
  | [] => ok st
  | (id, tensor) :: rest =>
      let! st := push_to_lang_FIFO_queue c st id tensor in
      push_lang_all c st rest
  end.

(** The tensors pushed for one language, in order. *)
Definition tensors_of (id : Z) (pushes : list (Z * list Q)) : list (list Q) :=
  map snd (List.filter (fun p : Z * list Q => (fst p =? id)%Z) pushes).

(** The per-example KD terms of [dynamic_kd_loss] before the entropy
    weighting: its [batch_loss]. *)
Definition kd_batch_loss {A} (o : Arith.ops A) (student_logits teacher_logits : tensor2 A)
    (temperature : A) : list A :=
  let input :=
    map (fun row => Kernels.log_softmax o (map (fun a => Arith.div o a temperature) row))
        (rows student_logits) in
  let target :=
    map (fun row => Kernels.softmax o (map (fun a => Arith.div o a temperature) row))
        (rows teacher_logits) in
  map (fun p => Arith.mul o (Kernels.kl_div_row o (fst p) (snd p))
                            (Arith.mul o temperature temperature))
      (combine input target).

(** Two calls of [metrics] with the same key and rounding and equal
    numbers. *)
Definition call_equiv (a b : Metrics.call) : Prop :=
  match a, b with
  | Metrics.log_scalar k v w r, Metrics.log_scalar k' v' w' r' =>
      k = k' /\ v == v' /\ w == w' /\ r = r'
  | Metrics.log_derived k, Metrics.log_derived k' => k = k'
  | _, _ => False
  end.

(** A single logging output that holds, for every key, the sum over the
    logging outputs of the workers. *)
Definition summed (total : Metrics.logging_output)
    (logging_outputs : list Metrics.logging_output) : Prop :=
  forall key, Metrics.get total key == Metrics.sum_of key logging_outputs.

(** Whether a run returned a result. *)
Definition returned {A} (r : result A) : bool :=
  match r with
  | inr _ => true
  | inl _ => false
  end.

(** What a run of [compute_loss] leaves in [self.alpha] (nothing when it
    raised). *)
Definition alpha_after (r : result (tval * gmap string tval * state)) : option tval :=
  match r with
  | inr (_, _, st) => alpha st
  | inl _ => None
  end.

(** Whether the representation part went on to the common tail, and
    whether it returned early. *)
Definition continues (r : result outcome) : bool :=
  match r with
  | inr (Continue _) => true
  | _ => false
  end.


(** Two values of [self.queue] of the same kind: two tensors, or two
    dictionaries with the same language ids as keys. *)
Definition same_queue_shape (q q' : queue_t) : Prop :=
  match q, q' with
  | QueueTensor _, QueueTensor _ => True
  | QueueDict d, QueueDict d' => forall id, is_Some (d' !! id) <-> is_Some (d !! id)
  | _, _ => False
  end.

(** The keys of [extra] that the part of [compute_loss] after the KD
    strategy may assign. *)
Definition aux_keys : list string :=
  [ "attn_loss"; "decoder_self_attn_loss"; "decoder_cross_attn_loss";
    "value_relation_loss"; "regression_loss"; "weight"; "rep_loss";
    "kd_loss" ]%string.

End Laws.

(** ** More concrete configurations and batches *)

Module Runs.

Import Torch Criterion.
Local Open Scope Q_scope.

(** A rational stand-in for the runtime's [exp] that is positive and
    monotone on all of Q: [1 + x] from 0 on, [1 / (1 - x)] below. *)
Definition monotone_exp (x : Q) : Q :=
  if Qle_bool 0 x then 1 + x else 1 / (1 - x).

(** The configuration of [Examples.a_config] with adaptive weightage:
    [use_adaptive_weightage] set and [adaptive_smoothing = 1/2]. *)
Definition adaptive_config : config :=
  {| cfg_sentence_avg := false;
     cfg_label_smoothing := 0;
     cfg_kd_rate := Some (1 # 2);
     cfg_kd_queue_size := 20000;
     cfg_student_temp := 1;
     cfg_teacher_temp := 1;
     cfg_alpha := Some (1 # 2);
     cfg_use_adaptive_weightage := true;
     cfg_adaptive_smoothing := Some (1 # 2);
     cfg_use_adaptive_kd_rates := false;
     cfg_kd_selection_temp := None;
     cfg_rambda := 8;
     cfg_decay := 1 # 2;
     cfg_loss_type := "mse";
     cfg_decoder_kd := false;
     cfg_self_kd := true;
     cfg_cross_kd := true;
     cfg_value_kd := false;
     cfg_regressor := false;
     cfg_ignore_prefix_size := 0;
     cfg_report_accuracy := true |}.

(** The one-token batch of [Examples] without [teacher_lprobs]. *)
Definition sample_without_teacher_lprobs : sample :=
  {| src_tokens := [[100; 5]]%Z;
     target := [[0]]%Z;
     ntokens := 1;
     teacher_output := Some [[[1; 0]]];
     teacher_lprobs := None;
     teacher_attn_output := Some [[[[2]]]];
     teacher_decoder_self_attn_output := Some [[[[1 # 2]]]];
     teacher_decoder_cross_attn_output := Some [[[[1 # 3]]]];
     teacher_value_relation := None |}.



(** The value of a Python float literal: the double nearest to the
    decimal that is written. *)
Definition float_literal (x : Q) : Q := Qred (round_double x).

(** The configuration [Examples.a_config 20000 None "mse" false] with
    another [kd_rate]. *)
Definition rate_config (kd_rate : Q) : config :=
  {| cfg_sentence_avg := false;
     cfg_label_smoothing := 0;
     cfg_kd_rate := Some kd_rate;
     cfg_kd_queue_size := 20000;
     cfg_student_temp := 1;
     cfg_teacher_temp := 1;
     cfg_alpha := Some (1 # 2);
     cfg_use_adaptive_weightage := false;
     cfg_adaptive_smoothing := None;
     cfg_use_adaptive_kd_rates := false;
     cfg_kd_selection_temp := None;
     cfg_rambda := 8;
     cfg_decay := 1 # 2;
     cfg_loss_type := "mse";
     cfg_decoder_kd := false;
     cfg_self_kd := true;
     cfg_cross_kd := true;
     cfg_value_kd := false;
     cfg_regressor := false;
     cfg_ignore_prefix_size := 0;
     cfg_report_accuracy := false |}.

(** A batch of one sentence with five target tokens over a vocabulary of
    two classes, every target being class 0.  The student's
    log-probabilities are those of the log-softmax of its logits to one
    decimal, so its NLL values are 1.3, 0.3, 0.7, 2.1 and 0.1; the teacher's
    NLL values are 0.3, 1.3, 0.7, 0.3 and 40. *)
Definition five_token_model : model_out :=
  {| vocab := 2;
     logits := [[[0; 1]; [1; 0]; [0; 0]; [0; 2]; [2; 0]]];
     normalized_lprobs :=
       [[[-(13 # 10); -(3 # 10)]; [-(3 # 10); -(13 # 10)]; [-(7 # 10); -(7 # 10)];
         [-(21 # 10); -(1 # 10)]; [-(1 # 10); -(21 # 10)]]];
     self_attn_tensor := None;
     cross_attn_tensor := None;
     attn_output := None;
     value_relation := None;
     regressed_maps := None |}.

Definition five_token_sample : sample :=
  {| src_tokens := [[100; 5; 6; 7; 8; 9]]%Z;
     target := [[0; 0; 0; 0; 0]]%Z;
     ntokens := 5;
     teacher_output := Some [[[1; 0]; [0; 1]; [0; 0]; [1; 0]; [0; 40]]];
     teacher_lprobs :=
       Some [[[-(3 # 10); -(13 # 10)]; [-(13 # 10); -(3 # 10)]; [-(7 # 10); -(7 # 10)];
              [-(3 # 10); -(13 # 10)]; [-(40); 0]]];
     teacher_attn_output := None;
     teacher_decoder_self_attn_output := None;
     teacher_decoder_cross_attn_output := None;
     teacher_value_relation := None |}.

(** A stand-in for an exponential that vanishes on large negative
    arguments, as the runtime's does: [monotone_exp] from -18 on, 0 below. *)
Definition underflowing_exp (x : Q) : Q :=
  if Qle_bool (-(18)) x then monotone_exp x else 0.

(** No attention or value-relation map at all. *)
Definition no_maps : maps :=
  {| attn := None;
     decoder_self_attn := None;
     decoder_cross_attn := None;
     teacher_attn := None;
     teacher_decoder_self_attn := None;
     teacher_decoder_cross_attn := None;
     m_value_relation := None;
     m_teacher_value_relation := None;
     m_regressed_maps := None |}.

End Runs.

(* ===================================================================== *)
(** * Part II: the properties                                             *)
(* ===================================================================== *)

(** Peel one [let!] off a hypothesis [bind r k = ok x]. *)
Ltac bind_inv_as H E :=
  match type of H with
  | bind ?r _ = _ => destruct r eqn:E; simpl in H; [discriminate H|]
  end.
Tactic Notation "bind_inv" hyp(H) "as" ident(E) := bind_inv_as H E.
Tactic Notation "bind_inv" hyp(H) := let E := fresh "E" in bind_inv_as H E.

(** ** Architecture presets *)

Section PresetProperties.

Import Presets.

(** The host framework's filler: whatever else it does, it leaves the
    fields that are already set as they are. *)
Variable base_architecture : namespace -> namespace.
Hypothesis base_fills_gaps :
  forall (args : namespace) k v,
    args !! k = Some v -> base_architecture args !! k = Some v.

Lemma fill_keeps name d (args : namespace) k v :
  args !! k = Some v -> fill name d args !! k = Some v.
Proof.
  intros H. unfold fill, getattr.
  destruct (decide (name = k)) as [->|Hne].
  - rewrite H. by rewrite lookup_insert_eq.
  - by rewrite lookup_insert_ne.
Qed.

Lemma own_keeps name own :
  In (name, own) ARCH_REGISTRY ->
  forall (args : namespace) k v, args !! k = Some v -> own args !! k = Some v.
Proof.
  intros Hin args k v H. unfold ARCH_REGISTRY in Hin. simpl in Hin.
  repeat (destruct Hin as [Heq | Hin];
    [ inversion Heq; subst; clear Heq; repeat apply fill_keeps; exact H | ]).
  contradiction.
Qed.

Lemma own_matches_table name own :
  In (name, own) ARCH_REGISTRY ->
  exists row, In (name, row) spec_table /\ own ∅ = list_to_map row.
Proof.
  intros Hin. unfold ARCH_REGISTRY in Hin. simpl in Hin.
  repeat (destruct Hin as [Heq | Hin];
    [ inversion Heq; subst; clear Heq;
      eexists; split;
      [ unfold spec_table; simpl; auto 20 | reflexivity ] | ]).
  contradiction.
Qed.

(** C10. Every registered preset, run on the empty configuration, assigns
    exactly the fields and values of its row of the table of section 4.1
    (and they survive the final call of the base filler); and run on any
    configuration it leaves every field the caller supplied unchanged. *)
Theorem preset_defaults_and_supplied_fields name own :
  In (name, own) ARCH_REGISTRY ->
  exists row,
    In (name, row) spec_table /\
    own ∅ = list_to_map row /\
    (forall k v, In (k, v) row ->
       preset base_architecture own ∅ !! k = Some v) /\
    (forall (args : namespace) k v,
       args !! k = Some v ->
       preset base_architecture own args !! k = Some v).
Proof using base_fills_gaps.
  intros Hin.
  destruct (own_matches_table name own Hin) as (row & Hrow & Heq).
  exists row. split; [exact Hrow|]. split; [exact Heq|]. split.
  - intros k v Hkv. unfold preset. apply base_fills_gaps. rewrite Heq.
    clear Heq Hin.
    unfold spec_table in Hrow. simpl in Hrow.
    repeat (destruct Hrow as [Hr | Hrow];
      [ inversion Hr; subst; clear Hr; simpl in Hkv;
        repeat (destruct Hkv as [Hk | Hkv];
          [ inversion Hk; subst; reflexivity | ]);
        contradiction | ]).
    contradiction.
  - intros args k v H. unfold preset. apply base_fills_gaps.
    eapply own_keeps; eauto.
Qed.

End PresetProperties.

Lemma sample_base_fills_gaps (args : Presets.namespace) k v :
  args !! k = Some v -> Presets.sample_base_architecture args !! k = Some v.
Proof.
  intros H. unfold Presets.sample_base_architecture.
  repeat apply fill_keeps. exact H.
Qed.

Lemma preset_defaults_and_supplied_fields_witness :
  exists row,
    In ("transformer_2x"%string, row) Presets.spec_table /\
    Presets.transformer_big ∅ = list_to_map row /\
    (forall k v, In (k, v) row ->
       Presets.preset Presets.sample_base_architecture Presets.transformer_big ∅ !! k
       = Some v) /\
    (forall (args : Presets.namespace) k v,
       args !! k = Some v ->
       Presets.preset Presets.sample_base_architecture Presets.transformer_big args !! k
       = Some v).
Proof.
  apply (preset_defaults_and_supplied_fields
           Presets.sample_base_architecture sample_base_fills_gaps
           "transformer_2x"%string Presets.transformer_big).
  unfold Presets.ARCH_REGISTRY. simpl. auto 20.
Defined.

(** ** The history queue of [global_level] *)

Section QueueProperties.

Import Torch Criterion Spec.

Lemma push_length_le (K : Z) (q t : list Q) :
  (Z.of_nat (length q) <= K)%Z -> (Z.of_nat (length t) <= K)%Z ->
  (Z.of_nat (length (push K q t)) <= K)%Z.
Proof.
  intros Hq Ht. unfold push.
  destruct (K <=? Z.of_nat (length t + length q))%Z eqn:E.
  - rewrite length_app, length_skipn. lia.
  - apply Z.leb_gt in E. rewrite length_app. lia.
Qed.

(** Whatever is evicted is a prefix of the queue: the result is a suffix of
    the old queue followed by the new tensor. *)
Lemma push_suffix (K : Z) (q t : list Q) :
  exists n, (n <= length q)%nat /\ push K q t = skipn n (q ++ t).
Proof.
  unfold push.
  destruct (K <=? Z.of_nat (length t + length q))%Z.
  - exists (Nat.min (length t) (length q)). split; [lia|].
    rewrite skipn_app.
    replace (Nat.min (length t) (length q) - length q)%nat with 0%nat by lia.
    simpl. f_equal.
    destruct (Nat.le_gt_cases (length t) (length q)) as [Hle|Hgt].
    + by rewrite Nat.min_l.
    + rewrite Nat.min_r by lia. rewrite !skipn_all2 by lia. reflexivity.
  - exists 0%nat. split; [lia|]. reflexivity.
Qed.

Lemma push_all_invariant (c : criterion) (tensors : list (list Q)) :
  Forall (fun t => (Z.of_nat (length t) <= kd_queue_size c)%Z) tensors ->
  forall (st : state) (q0 : list Q),
    queue st = QueueTensor q0 ->
    (Z.of_nat (length q0) <= kd_queue_size c)%Z ->
    exists st' q,
      push_all c st tensors = ok st' /\
      queue st' = QueueTensor q /\
      (Z.of_nat (length q) <= kd_queue_size c)%Z /\
      exists n, q = skipn n (q0 ++ concat tensors).
Proof.
  induction 1 as [|t rest Ht Hrest IH]; intros st q0 Hst Hq0.
  - exists st, q0. simpl. repeat split; auto.
    exists 0%nat. by rewrite app_nil_r.
  - simpl. unfold push_to_FIFO_queue. rewrite Hst. simpl.
    destruct (push_suffix (kd_queue_size c) q0 t) as (n1 & Hn1 & Hp).
    edestruct (IH (State (alpha st) (QueueTensor (push (kd_queue_size c) q0 t)))
                  (push (kd_queue_size c) q0 t)) as (st' & q & Hrun & Hq & Hlen & n & Hn).
    { reflexivity. }
    { by apply push_length_le. }
    exists st', q. repeat split; auto.
    exists (n + n1)%nat. rewrite Hn, Hp.
    rewrite <- skipn_skipn. f_equal.
    change (concat (t :: rest)) with (t ++ concat rest).
    rewrite (app_assoc q0 t (concat rest)).
    rewrite (skipn_app n1 (q0 ++ t)).
    replace (n1 - length (q0 ++ t))%nat with 0%nat
      by (rewrite length_app; lia).
    reflexivity.
Qed.

Lemma push_all_suffix (c : criterion) (tensors : list (list Q)) :
  forall (st : state) (q0 : list Q),
    queue st = QueueTensor q0 ->
    exists st' q,
      push_all c st tensors = ok st' /\
      queue st' = QueueTensor q /\
      alpha st' = alpha st /\
      exists n, q = skipn n (q0 ++ concat tensors).
Proof.
  induction tensors as [|t rest IH]; intros st q0 Hst.
  - exists st, q0. simpl. repeat split; auto.
    exists 0%nat. by rewrite app_nil_r.
  - simpl. unfold push_to_FIFO_queue. rewrite Hst. simpl.
    destruct (push_suffix (kd_queue_size c) q0 t) as (n1 & Hn1 & Hp).
    edestruct (IH (State (alpha st) (QueueTensor (push (kd_queue_size c) q0 t)))
                  (push (kd_queue_size c) q0 t)) as (st' & q & Hrun & Hq & Hal & n & Hn).
    { reflexivity. }
    exists st', q. repeat split; auto.
    exists (n + n1)%nat. rewrite Hn, Hp.
    rewrite <- skipn_skipn. f_equal.
    change (concat (t :: rest)) with (t ++ concat rest).
    rewrite (app_assoc q0 t (concat rest)).
    rewrite (skipn_app n1 (q0 ++ t)).
    replace (n1 - length (q0 ++ t))%nat with 0%nat
      by (rewrite length_app; lia).
    reflexivity.
Qed.

Lemma push_all_app (c : criterion) (xs ys : list (list Q)) (st : state) :
  push_all c st (xs ++ ys) = bind (push_all c st xs) (fun st' => push_all c st' ys).
Proof.
  revert st. induction xs as [|x xs IH]; intros st; simpl; [reflexivity|].
  destruct (push_to_FIFO_queue c st x) as [e|st1]; simpl; [reflexivity|]. apply IH.
Qed.

Lemma firstn_S_nth {A} (l : list A) (i : nat) (a : A) :
  nth_error l i = Some a -> firstn (S i) l = firstn i l ++ [a].
Proof.
  revert i. induction l as [|b l IH]; intros [|i] H; simpl in *; try discriminate.
  - by injection H as ->.
  - f_equal. by apply IH.
Qed.

Lemma push_evicted (K : Z) (q t : list Q) :
  push K q t = skipn (evicted K q t) q ++ t.
Proof.
  unfold push, evicted.
  destruct (K <=? Z.of_nat (length t + length q))%Z; [|reflexivity].
  f_equal. destruct (Nat.le_gt_cases (length t) (length q)) as [Hle|Hgt].
  - by rewrite Nat.min_l.
  - rewrite Nat.min_r by lia. rewrite !skipn_all2 by lia. reflexivity.
Qed.

(** C3, as amended. From any queue and for every sequence of pushes, what
    the queue holds after each push is a suffix of everything pushed so far,
    in order: only the oldest values have been evicted.  The next push
    evicts exactly [evicted] entries from the front: as many as the tensor
    has (the whole queue when it is the shorter one) if the two sizes add up
    to [kd_queue_size] or more, none otherwise.  When the queue starts within
    capacity (as the empty queue of the constructor does) and no tensor
    pushed so far is longer than [kd_queue_size], the queue holds at most
    [kd_queue_size] entries. *)
Theorem queue_bounded_and_oldest_evicted (c : criterion) (st : state)
    (q0 : list Q) (tensors : list (list Q)) (i : nat) :
  queue st = QueueTensor q0 ->
  exists st' q,
    push_all c st (firstn i tensors) = ok st' /\
    queue st' = QueueTensor q /\
    (exists n, q = skipn n (q0 ++ concat (firstn i tensors))) /\
    (forall t, nth_error tensors i = Some t ->
       exists st'',
         push_all c st (firstn (S i) tensors) = ok st'' /\
         queue st'' = QueueTensor (skipn (evicted (kd_queue_size c) q t) q ++ t) /\
         (evicted (kd_queue_size c) q t <= length q)%nat) /\
    ((Z.of_nat (length q0) <= kd_queue_size c)%Z ->
     Forall (fun t => (Z.of_nat (length t) <= kd_queue_size c)%Z) (firstn i tensors) ->
     (Z.of_nat (length q) <= kd_queue_size c)%Z).
Proof.
  intros Hst.
  destruct (push_all_suffix c (firstn i tensors) st q0 Hst)
    as (st' & q & Hrun & Hq & Hal & Hsuf).
  exists st', q. split; [exact Hrun|]. split; [exact Hq|]. split; [exact Hsuf|].
  split.
  - intros t Ht. rewrite (firstn_S_nth _ _ _ Ht), push_all_app, Hrun. simpl.
    unfold push_to_FIFO_queue. rewrite Hq. simpl.
    eexists. split; [reflexivity|]. simpl. split.
    + by rewrite push_evicted.
    + unfold evicted. destruct (_ <=? _)%Z; lia.
  - intros Hq0 Hall.
    destruct (push_all_invariant c (firstn i tensors) Hall st q0 Hst Hq0)
      as (st2 & q2 & Hrun2 & Hq2 & Hlen & _).
    rewrite Hrun in Hrun2. injection Hrun2 as <-.
    rewrite Hq in Hq2. injection Hq2 as <-. exact Hlen.
Qed.

End QueueProperties.

Lemma queue_bounded_and_oldest_evicted_witness :
  let cs := Criterion.__init__ (Examples.a_task "global_level")
              (Examples.a_config 5 None "mse" false) in
  let tensors := [[1; 2; 3]; [4; 5]; [6]]%Q in
  exists st' q,
    Spec.push_all (fst cs) (snd cs) (firstn 2 tensors) = ok st' /\
    Criterion.queue st' = Criterion.QueueTensor q /\
    (exists n, q = skipn n ([] ++ concat (firstn 2 tensors))) /\
    (forall t, nth_error tensors 2 = Some t ->
       exists st'',
         Spec.push_all (fst cs) (snd cs) (firstn 3 tensors) = ok st'' /\
         Criterion.queue st''
         = Criterion.QueueTensor
             (skipn (Spec.evicted (Criterion.kd_queue_size (fst cs)) q t) q ++ t) /\
         (Spec.evicted (Criterion.kd_queue_size (fst cs)) q t <= length q)%nat) /\
    ((Z.of_nat (length (@nil Q)) <= Criterion.kd_queue_size (fst cs))%Z ->
     Forall (fun t => (Z.of_nat (length t) <= Criterion.kd_queue_size (fst cs))%Z)
            (firstn 2 tensors) ->
     (Z.of_nat (length q) <= Criterion.kd_queue_size (fst cs))%Z).
Proof.
  apply (queue_bounded_and_oldest_evicted
           (fst (Criterion.__init__ (Examples.a_task "global_level")
                   (Examples.a_config 5 None "mse" false)))
           (snd (Criterion.__init__ (Examples.a_task "global_level")
                   (Examples.a_config 5 None "mse" false)))
           [] [[1; 2; 3]; [4; 5]; [6]]%Q 2).
  reflexivity.
Defined.

(** C3, the claim as stated fails: with [kd_queue_size = 2], one push of the
    three-entry tensor [1, 2, 3] on the empty queue of the constructor leaves
    a queue of three entries. *)
Lemma queue_exceeds_capacity :
  let cs := Criterion.__init__ (Examples.a_task "global_level")
              (Examples.a_config 2 None "mse" false) in
  exists st',
    Criterion.push_to_FIFO_queue (fst cs) (snd cs) [1; 2; 3]%Q = ok st' /\
    Criterion.queue st' = Criterion.QueueTensor [1; 2; 3]%Q /\
    (Criterion.kd_queue_size (fst cs) < Z.of_nat (length [1; 2; 3]%Q))%Z.
Proof.
  simpl. eexists. split; [reflexivity|]. split; [reflexivity|]. lia.
Qed.

(** ** The constructor *)

(** C4. The code assigns [beta] the other way round: it is 1 when
    [adaptive_smoothing] is given (whatever its value) and [None] when the
    field is unset; so with [adaptive_smoothing = 0.5], [beta] is 1, not 0.5,
    and with the field unset [beta] is [None], not 1. *)
Theorem beta_is_one_when_given_and_none_when_unset
    (t : Criterion.task) (cfg : Criterion.config) :
  Criterion.beta (fst (Criterion.__init__ t cfg))
  = match Criterion.cfg_adaptive_smoothing cfg with
    | Some _ => Some 1%Q
    | None => None
    end
  /\ Criterion.beta
       (fst (Criterion.__init__ (Examples.a_task "word_and_seq_level")
               (Examples.a_config 20000 (Some (1 # 2)%Q) "mse" false)))
     = Some 1%Q
  /\ Criterion.beta
       (fst (Criterion.__init__ (Examples.a_task "word_and_seq_level")
               (Examples.a_config 20000 None "mse" false)))
     = None.
Proof.
  split; [|split; reflexivity].
  simpl. destruct (Criterion.cfg_adaptive_smoothing cfg); reflexivity.
Qed.

(** ** [forward] without teacher artifacts *)

(** C5. On every batch that carries no [teacher_output] the code fails:
    [compute_loss] subscripts [teacher_output] before it reaches the branch
    that would use the golden loss alone, so [forward] raises [TypeError],
    whatever the criterion, its state, the model's outputs, the rest of the
    batch and the epoch. *)
Theorem forward_without_teacher_output_raises
    (texp tlog : Q -> Q) (c : Criterion.criterion) (st : Criterion.state)
    (m : Criterion.model_out) (epoch : option Z)
    (src_tokens target : list (list Z)) (ntokens : Z)
    (teacher_lprobs : option (list (list (list Q))))
    (t_attn t_self t_cross t_value : option Torch.tensor4) :
  Criterion.forward texp tlog c st m
    (Criterion.Sample src_tokens target ntokens None teacher_lprobs
       t_attn t_self t_cross t_value) epoch
  = raise TypeError.
Proof.
  unfold Criterion.forward, Criterion.compute_loss, Criterion.token_level.
  destruct (Criterion.get_lprobs_and_target _ _ _) as [lprobs tgt].
  reflexivity.
Qed.

(** ** [global_multi_level] *)

(** C2. A batch of two sentences of two target tokens each, the first of
    language 100 and the second of language 200, with NLL values 1, 2 | 3, 4
    and KD values 10, 20 | 30, 40, rate 1/2 and empty queues.  The gates are
    2 and 4, so the claim's total is 20 + 40 = 60.  The code compares both
    gates with the NLL values of the last language (3, 4) and reads the KD
    values at the resulting positions of the whole batch: 10 + 20 for the
    first language and 20 for the second, 50 in all. *)
Theorem global_multi_level_selects_wrong_tokens (texp tlog : Q -> Q) :
  let cs := Criterion.__init__ (Examples.a_task "global_multi_level")
              (Examples.a_config 20000 None "mse" false) in
  let inp_tokens := [[100; 5; 6]; [200; 7; 8]]%Z in
  let nll_loss := [1; 2; 3; 4]%Q in
  let kd_loss := [10; 20; 30; 40]%Q in
  (let! r := Criterion.global_multi_level_select texp tlog (fst cs) (snd cs)
               inp_tokens nll_loss kd_loss in ok (snd r)) = ok 50%Q
  /\ Spec.global_multi_level_expected texp tlog (fst cs) (snd cs)
       inp_tokens nll_loss kd_loss = ok 60%Q.
Proof.
  split; vm_compute; reflexivity.
Qed.

(** ** The strategy branches inside [compute_loss] *)

Section Strategies.

Import Torch Criterion Spec.
Local Open Scope Q_scope.

Variables texp tlog : Q -> Q.

(** In [compute_loss] the [batch_level] branch is [batch_level_select] on the
    student's per-token NLL and the masked per-token KD loss, and it logs the
    sum of what is selected as [kd_loss]. *)
Lemma token_level_batch_level c st m s loc :
  kd_strategy c = "batch_level"%string ->
  use_adaptive_weightage c = false ->
  token_level texp tlog c st m s = ok loc ->
  let lt := get_lprobs_and_target c m s in
  exists golden nll teacher kd kept,
    label_smoothed_nll_loss (fst lt) (snd lt) (eps c) (Some (padding_idx c)) false
      = ok (golden, nll) /\
    teacher_output s = Some teacher /\
    kd_cross_entropy texp tlog c (concat (logits m)) (concat teacher)
      (map (fun t => (t =? padding_idx c)%Z) (snd lt)) = ok kd /\
    batch_level_select (view1 nll) (kd_rate c) (ok kd) = ok kept /\
    l_extra loc !! "kd_loss"%string = Some (Scalar (tsum kept)).
Proof.
  intros Hs Ha H. unfold token_level in H.
  destruct (get_lprobs_and_target c m s) as [lprobs target] eqn:Elt.
  destruct (teacher_output s) as [teacher|] eqn:Et; [|discriminate H].
  simpl in H.
  bind_inv H as Eg. destruct p as [golden nll].
  bind_inv H as Etl. bind_inv H as Eb.
  rewrite Hs, Ha in H. simpl in H.
  bind_inv H as Esel. bind_inv H as Emix. injection H as <-.
  simpl. exists golden, nll, teacher.
  pose proof Esel as Esel'.
  unfold batch_level_select in Esel'.
  bind_inv Esel' as Egate. bind_inv Esel' as Ekd.
  eexists _, _. split; [exact Eg|]. split; [reflexivity|].
  split; [reflexivity|]. split.
  - exact Esel.
  - unfold log_kd. rewrite !lookup_insert_ne by discriminate.
    rewrite lookup_insert_eq. reflexivity.
Qed.

(** Likewise the [global_multi_level] branch is [global_multi_level_select]. *)
Lemma token_level_global_multi_level c st m s loc :
  kd_strategy c = "global_multi_level"%string ->
  use_adaptive_weightage c = false ->
  token_level texp tlog c st m s = ok loc ->
  let lt := get_lprobs_and_target c m s in
  exists golden nll teacher kd st' total_kd_loss,
    label_smoothed_nll_loss (fst lt) (snd lt) (eps c) (Some (padding_idx c)) false
      = ok (golden, nll) /\
    teacher_output s = Some teacher /\
    kd_cross_entropy texp tlog c (concat (logits m)) (concat teacher)
      (map (fun t => (t =? padding_idx c)%Z) (snd lt)) = ok kd /\
    global_multi_level_select texp tlog c st (src_tokens s) (view1 nll) kd
      = ok (st', total_kd_loss) /\
    l_state loc = st' /\
    l_extra loc !! "kd_loss"%string = Some (Scalar total_kd_loss).
Proof.
  intros Hs Ha H. unfold token_level in H.
  destruct (get_lprobs_and_target c m s) as [lprobs target] eqn:Elt.
  destruct (teacher_output s) as [teacher|] eqn:Et; [|discriminate H].
  simpl in H.
  bind_inv H as Eg. destruct p as [golden nll].
  bind_inv H as Etl. bind_inv H as Eb.
  rewrite Hs, Ha in H. simpl in H.
  bind_inv H as Ekd. bind_inv H as Esel. destruct p as [st' total].
  bind_inv H as Emix. injection H as <-.
  simpl. exists golden, nll, teacher. eexists _, st', total.
  split; [exact Eg|]. split; [reflexivity|].
  split; [exact Ekd|]. split; [exact Esel|]. split; [reflexivity|].
  unfold log_kd. rewrite !lookup_insert_ne by discriminate.
  rewrite lookup_insert_eq. reflexivity.
Qed.

End Strategies.

(** ** The selection of [batch_level] *)

Section Selection.

Import Torch Criterion Spec.
Local Open Scope Q_scope.

Lemma Qle_bool_false (x y : Q) : Qle_bool x y = false <-> y < x.
Proof.
  split; intros H.
  - apply Qnot_le_lt. intros Hle. apply Qle_bool_iff in Hle. congruence.
  - destruct (Qle_bool x y) eqn:E; [|reflexivity].
    apply Qle_bool_iff in E. lra.
Qed.

Lemma insert_desc_perm (a : Q) (l : list Q) : Permutation (insert_desc a l) (a :: l).
Proof.
  induction l as [|b l IH]; simpl.
  - reflexivity.
  - destruct (Qle_bool b a).
    + reflexivity.
    + rewrite IH. apply perm_swap.
Qed.

Lemma sort_desc_perm (l : list Q) : Permutation (sort_desc l) l.
Proof.
  induction l as [|a l IH]; simpl.
  - reflexivity.
  - rewrite insert_desc_perm. by constructor.
Qed.


Lemma insert_desc_sorted (a : Q) (l : list Q) :
  descending l -> descending (insert_desc a l).
Proof.
  unfold descending. induction 1 as [|b l Hl IH Hb]; simpl.
  - repeat constructor.
  - destruct (Qle_bool b a) eqn:E.
    + apply Qle_bool_iff in E. constructor.
      * by constructor.
      * constructor; [exact E|].
        rewrite List.Forall_forall in Hb. apply List.Forall_forall.
        intros x Hx. specialize (Hb x Hx). simpl in Hb. lra.
    + apply Qle_bool_false in E. constructor; [exact IH|].
      eapply Permutation_Forall.
      { symmetry. apply insert_desc_perm. }
      constructor; [lra | exact Hb].
Qed.

Lemma sort_desc_sorted (l : list Q) : descending (sort_desc l).
Proof.
  induction l as [|a l IH]; simpl.
  - constructor.
  - by apply insert_desc_sorted.
Qed.

Lemma descending_strict (l : list Q) :
  descending l -> NoDupA Qeq l -> strictly_descending l.
Proof.
  unfold descending, strictly_descending.
  induction 1 as [|a l Hl IH Ha]; intros Hnd.
  - constructor.
  - inversion Hnd as [|? ? Hnotin Hnd']; subst.
    constructor; [by apply IH|].
    apply List.Forall_forall. intros x Hx.
    rewrite List.Forall_forall in Ha. specialize (Ha x Hx).
    destruct (Qeq_dec x a) as [Heq|Hne].
    + exfalso. apply Hnotin. apply InA_alt. exists x. split; [by symmetry | exact Hx].
    + lra.
Qed.

Lemma count_at_or_above (s : list Q) :
  strictly_descending s ->
  forall k g, nth_error s k = Some g ->
    length (List.filter (fun x => Qle_bool g x) s) = S k.
Proof.
  unfold strictly_descending.
  induction 1 as [|a s Hs IH Ha]; intros k g Hg.
  - destruct k; discriminate.
  - destruct k as [|k]; simpl in Hg.
    + injection Hg as <-. simpl.
      replace (Qle_bool a a) with true by (symmetry; apply Qle_bool_iff; lra).
      simpl. f_equal.
      assert (Hnone : List.filter (fun x => Qle_bool a x) s = []).
      { clear IH Hs. induction Ha as [|b s Hb Hrest IH]; simpl; [reflexivity|].
        replace (Qle_bool a b) with false by (symmetry; by apply Qle_bool_false).
        exact IH. }
      by rewrite Hnone.
    + simpl.
      assert (Hin : In g s) by (eapply nth_error_In; eauto).
      rewrite List.Forall_forall in Ha. specialize (Ha g Hin).
      replace (Qle_bool g a) with true by (symmetry; apply Qle_bool_iff; lra).
      simpl. f_equal. by apply IH.
Qed.

Lemma filter_length_perm {A} (f : A -> bool) (l l' : list A) :
  Permutation l l' -> length (List.filter f l) = length (List.filter f l').
Proof.
  induction 1; simpl; try congruence.
  - destruct (f x); simpl; congruence.
  - destruct (f x), (f y); reflexivity.
Qed.


Lemma item_last_firstn (s : list Q) (k : nat) (g : Q) :
  nth_error s k = Some g -> item_last (firstn (S k) s) = ok g.
Proof.
  intros H. apply nth_error_split in H as (l1 & l2 & -> & <-).
  rewrite firstn_app.
  replace (S (length l1) - length l1)%nat with 1%nat by lia.
  rewrite firstn_all2 by lia. simpl.
  unfold item_last. rewrite rev_app_distr. reflexivity.
Qed.

Lemma loss_gate_kth (x : list Q) (r : Q) (k : nat) :
  float_is_inf (float_mul (length x) r) = false ->
  ceil_mul (length x) r = Z.of_nat (S k) ->
  (S k <= length x)%nat ->
  exists g, nth_error (sort_desc x) k = Some g /\ loss_gate x (Some r) = ok g.
Proof.
  intros Hfin Hceil Hk.
  assert (Hlen : length (sort_desc x) = length x)
    by (apply Permutation_length, sort_desc_perm).
  destruct (nth_error (sort_desc x) k) as [g|] eqn:E.
  - exists g. split; [reflexivity|].
    unfold loss_gate, topk. cbn [not_none bind ok]. rewrite Hfin, Hceil.
    replace ((Z.of_nat (S k) <? 0)%Z || (Z.of_nat (length x) <? Z.of_nat (S k))%Z)%bool
      with false by (symmetry; apply orb_false_iff; split; apply Z.ltb_ge; lia).
    simpl. rewrite Nat2Z.id. by apply item_last_firstn.
  - apply nth_error_None in E. lia.
Qed.

Lemma select_at_or_above_spec (g : Q) (nll kd : list Q) :
  length nll = length kd ->
  select_at_or_above nll g kd = ok (kd_at_or_above_gate g nll kd).
Proof.
  intros Hlen. unfold select_at_or_above, select.
  rewrite !length_map, <- Hlen, Nat.eqb_refl. simpl. f_equal.
  unfold kd_at_or_above_gate, kd_where.
  revert kd Hlen. induction nll as [|x nll IH]; intros [|y kd] Hlen;
    try discriminate; [reflexivity|].
  simpl. unfold Qltb. rewrite negb_involutive.
  destruct (Qle_bool g x); simpl; f_equal; apply IH; simpl in Hlen; lia.
Qed.

Lemma kd_where_length (f : Q -> bool) (nll kd : list Q) :
  length nll = length kd ->
  length (kd_where f nll kd) = length (List.filter f nll).
Proof.
  unfold kd_where. rewrite length_map.
  revert kd. induction nll as [|x nll IH]; intros [|y kd] Hlen;
    try discriminate; [reflexivity|].
  simpl. destruct (f x); simpl; [f_equal|]; apply IH; simpl in Hlen; lia.
Qed.

Lemma filter_split_length (f : Q -> bool) (l : list Q) :
  (length (List.filter f l) + length (List.filter (fun x => negb (f x)) l))%nat = length l.
Proof.
  induction l as [|x l IH]; simpl; [reflexivity|].
  destruct (f x); simpl; lia.
Qed.

(** The general fact behind C1: with pairwise distinct NLL values and
    [k = ceil(N * kd_rate)] between 1 and N, the gate is the k-th largest NLL
    and exactly k tokens, those at or above the gate, are kept. *)
Lemma batch_level_keeps_top_k (nll kd : list Q) (r : Q) (k : nat) :
  length nll = length kd ->
  NoDupA Qeq nll ->
  float_is_inf (float_mul (length nll) r) = false ->
  ceil_mul (length nll) r = Z.of_nat (S k) ->
  (S k <= length nll)%nat ->
  exists gate,
    loss_gate nll (Some r) = ok gate /\
    batch_level_select nll (Some r) (ok kd) = ok (kd_at_or_above_gate gate nll kd) /\
    length (kd_at_or_above_gate gate nll kd) = S k /\
    length (kd_strictly_below_gate gate nll kd) = (length nll - S k)%nat.
Proof.
  intros Hlen Hnd Hfin Hceil Hk.
  destruct (loss_gate_kth nll r k Hfin Hceil Hk) as (g & Hnth & Hgate).
  exists g. split; [exact Hgate|].
  assert (Hcount : length (List.filter (fun x => Qle_bool g x) nll) = S k).
  { rewrite (filter_length_perm _ nll (sort_desc nll))
      by (symmetry; apply sort_desc_perm).
    apply count_at_or_above; [|exact Hnth].
    apply descending_strict; [apply sort_desc_sorted|].
    apply (@PermutationA_preserves_NoDupA Q Qeq Q_Setoid nll); [|exact Hnd].
    apply (@Permutation_PermutationA Q Qeq Q_Setoid).
    symmetry. apply sort_desc_perm. }
  split; [|split].
  - unfold batch_level_select. rewrite Hgate. simpl.
    by apply select_at_or_above_spec.
  - unfold kd_at_or_above_gate. rewrite kd_where_length by exact Hlen. exact Hcount.
  - unfold kd_strictly_below_gate. rewrite kd_where_length by exact Hlen.
    pose proof (filter_split_length (fun x => Qle_bool g x) nll) as Hsplit.
    unfold Qltb. rewrite Hcount in Hsplit.
    lia.
Qed.


Lemma pairwise_distinct_NoDupA (x : list Q) :
  pairwise_distinct x = true -> NoDupA Qeq x.
Proof.
  induction x as [|a x IH]; simpl; intros H.
  - constructor.
  - apply andb_true_iff in H as [Ha Hx]. constructor; [|by apply IH].
    intros Hin. apply InA_alt in Hin as (b & Heq & Hb).
    rewrite forallb_forall in Ha. specialize (Ha b Hb).
    apply negb_true_iff in Ha.
    apply Qeq_bool_iff in Heq. congruence.
Qed.

(** C1, as amended. In [batch_level] with [kd_rate = 0.5] on a batch of 10
    tokens with pairwise distinct student NLL values, the gate is the 5th
    largest NLL; the KD values that are summed are those of the tokens at or
    above the gate; exactly 5 tokens are kept and 5 are excluded; and every
    kept token has a strictly higher NLL than every excluded one: the 5
    tokens with the highest NLL are kept, the 5 with the lowest excluded. *)
Theorem batch_level_keeps_five_highest (nll_loss kd_loss : list Q) :
  length nll_loss = 10%nat ->
  length kd_loss = 10%nat ->
  pairwise_distinct nll_loss = true ->
  exists gate,
    loss_gate nll_loss (Some (1 # 2)) = ok gate /\
    batch_level_select nll_loss (Some (1 # 2)) (ok kd_loss)
      = ok (kd_at_or_above_gate gate nll_loss kd_loss) /\
    length (kd_at_or_above_gate gate nll_loss kd_loss) = 5%nat /\
    length (kd_strictly_below_gate gate nll_loss kd_loss) = 5%nat /\
    (forall kept excluded,
       Qle_bool gate kept = true -> Qltb excluded gate = true -> excluded < kept).
Proof.
  intros Hn Hk Hd.
  destruct (batch_level_keeps_top_k nll_loss kd_loss (1 # 2) 4)
    as (gate & Hgate & Hsel & Hkept & Hexcl).
  - congruence.
  - by apply pairwise_distinct_NoDupA.
  - rewrite Hn. vm_compute. reflexivity.
  - rewrite Hn. vm_compute. reflexivity.
  - lia.
  - exists gate. rewrite Hn in Hexcl. repeat split; auto.
    intros kept excluded Hkp Hex.
    apply Qle_bool_iff in Hkp. unfold Qltb in Hex.
    apply negb_true_iff, Qle_bool_false in Hex. lra.
Qed.

End Selection.

Lemma batch_level_keeps_five_highest_witness :
  exists gate,
    Criterion.loss_gate [3; 1; 2; 7; 5; 6; 4; 8; 10; 9]%Q (Some (1 # 2)%Q) = ok gate /\
    Criterion.batch_level_select [3; 1; 2; 7; 5; 6; 4; 8; 10; 9]%Q (Some (1 # 2)%Q)
      (ok [10; 20; 30; 40; 50; 60; 70; 80; 90; 100]%Q)
    = ok (Spec.kd_at_or_above_gate gate [3; 1; 2; 7; 5; 6; 4; 8; 10; 9]%Q
            [10; 20; 30; 40; 50; 60; 70; 80; 90; 100]%Q) /\
    length (Spec.kd_at_or_above_gate gate [3; 1; 2; 7; 5; 6; 4; 8; 10; 9]%Q
              [10; 20; 30; 40; 50; 60; 70; 80; 90; 100]%Q) = 5%nat /\
    length (Spec.kd_strictly_below_gate gate [3; 1; 2; 7; 5; 6; 4; 8; 10; 9]%Q
              [10; 20; 30; 40; 50; 60; 70; 80; 90; 100]%Q) = 5%nat /\
    (forall kept excluded,
       Qle_bool gate kept = true -> Torch.Qltb excluded gate = true ->
       (excluded < kept)%Q).
Proof.
  apply (batch_level_keeps_five_highest
           [3; 1; 2; 7; 5; 6; 4; 8; 10; 9]%Q
           [10; 20; 30; 40; 50; 60; 70; 80; 90; 100]%Q);
    reflexivity.
Defined.

(** C1, the claim as stated fails. On the 10-token batch with NLL values
    3, 1, 2, 7, 5, 6, 4, 8, 10, 9 and KD values 10, 20, ..., 100 the gate is 6
    and the code sums the KD values of the tokens with NLL 7, 6, 8, 10, 9 (the
    five highest): 40 + 60 + 80 + 90 + 100 = 370, not the 10 + 20 + 30 + 50 +
    70 = 180 of the tokens strictly below the gate. *)
Lemma batch_level_does_not_exclude_highest :
  let nll_loss := [3; 1; 2; 7; 5; 6; 4; 8; 10; 9]%Q in
  let kd_loss := [10; 20; 30; 40; 50; 60; 70; 80; 90; 100]%Q in
  Criterion.loss_gate nll_loss (Some (1 # 2)%Q) = ok 6%Q /\
  Criterion.batch_level_select nll_loss (Some (1 # 2)%Q) (ok kd_loss)
    = ok [40; 60; 80; 90; 100]%Q /\
  Spec.kd_strictly_below_gate 6 nll_loss kd_loss = [10; 20; 30; 50; 70]%Q /\
  Criterion.batch_level_select nll_loss (Some (1 # 2)%Q) (ok kd_loss)
    <> ok (Spec.kd_strictly_below_gate 6 nll_loss kd_loss) /\
  ~ (Torch.tsum [40; 60; 80; 90; 100] == Torch.tsum (Spec.kd_strictly_below_gate 6 nll_loss kd_loss))%Q.
Proof.
  simpl. repeat split; try (vm_compute; reflexivity).
  - vm_compute. discriminate.
  - vm_compute. discriminate.
Qed.

(** ** The base label-smoothed NLL *)

Section LabelSmoothing.

Import Torch Criterion Spec.
Local Open Scope Q_scope.

Lemma zip_same_ok {A B C} (f : A -> B -> C) (x : list A) (y : list B) :
  length x = length y ->
  zip_same f x y = ok (map (fun p => f (fst p) (snd p)) (combine x y)).
Proof.
  intros H. unfold zip_same. rewrite H, Nat.eqb_refl. reflexivity.
Qed.

Lemma combine_map_same {A B C} (f : A -> B) (g : A -> C) (l : list A) :
  combine (map f l) (map g l) = map (fun a => (f a, g a)) l.
Proof.
  induction l as [|a l IH]; simpl; [reflexivity|]. by rewrite IH.
Qed.

Lemma combine_fst_snd {A B} (x : list A) (y : list B) :
  length x = length y ->
  x = map fst (combine x y) /\ y = map snd (combine x y).
Proof.
  revert y. induction x as [|a x IH]; intros [|b y] H; try discriminate.
  - split; reflexivity.
  - simpl in H. destruct (IH y) as [H1 H2]; [lia|].
    simpl. split; congruence.
Qed.

Lemma mapM_ok {A B} (f : A -> result B) (g : A -> B) (l : list A) :
  (forall a, In a l -> f a = ok (g a)) -> mapM f l = ok (map g l).
Proof.
  induction l as [|a l IH]; intros H; simpl; [reflexivity|].
  rewrite (H a) by (by left). simpl.
  rewrite IH by (intros; apply H; by right). reflexivity.
Qed.

Lemma masked_fill_same (x : list Q) (mask : list bool) (v : Q) :
  length x = length mask ->
  masked_fill x mask v
  = ok (map (fun p : Q * bool => if snd p then v else fst p) (combine x mask)).
Proof.
  intros H. unfold masked_fill.
  destruct mask as [|m [|m' mask]]; [by rewrite zip_same_ok | | by rewrite zip_same_ok].
  destruct x as [|a [|a' x]]; try discriminate. reflexivity.
Qed.

Lemma broadcast_same (f : Q -> Q -> Q) (v w : list Q) :
  length v = length w ->
  broadcast f v w = ok (map (fun p => f (fst p) (snd p)) (combine v w)).
Proof.
  intros H. unfold broadcast.
  destruct v as [|a [|a' v]], w as [|b [|b' w]]; try discriminate;
    try reflexivity; by rewrite zip_same_ok.
Qed.

(** C7. On a log-probability tensor of shape (N, V) with V other than 1 and
    N targets that are valid class indices, [label_smoothed_nll_loss] (with
    the padding index given and no reduction) returns, token by token, the
    loss [(1 - epsilon - epsilon/(V-1)) * nll + (epsilon/(V-1)) * smooth_loss]
    with [nll = -lprobs[target]] and [smooth_loss = -sum lprobs], both zero
    at padding positions; with [epsilon = 0] the loss is the NLL itself. *)
Theorem label_smoothed_nll_loss_per_token
    (lprobs : tensor2 Q) (target : list Z) (epsilon : Q) (pad : Z) :
  length (rows lprobs) = length target ->
  Forall (fun row => length row = ncols lprobs) (rows lprobs) ->
  Forall (fun t => (0 <= t < Z.of_nat (ncols lprobs))%Z) target ->
  ncols lprobs <> 1%nat ->
  exists loss nll_loss,
    label_smoothed_nll_loss lprobs target epsilon (Some pad) false
      = ok (Vector loss, Vector nll_loss) /\
    nll_loss = map (fun p => token_nll pad (fst p) (snd p)) (combine (rows lprobs) target) /\
    loss = map (fun p => token_loss (ncols lprobs) epsilon pad (fst p) (snd p))
               (combine (rows lprobs) target) /\
    (epsilon == 0 -> Forall2 Qeq loss nll_loss).
Proof.
  intros Hlen Hrows Htgt HV.
  destruct (combine_fst_snd _ _ Hlen) as [Hr Ht].
  assert (Hpairs : forall p, In p (combine (rows lprobs) target) ->
            length (fst p) = ncols lprobs /\ (0 <= snd p < Z.of_nat (ncols lprobs))%Z).
  { intros [row t] Hin. simpl. split.
    - rewrite List.Forall_forall in Hrows. apply Hrows. eapply in_combine_l; eauto.
    - rewrite List.Forall_forall in Htgt. apply Htgt. eapply in_combine_r; eauto. }
  assert (Hg : gather_last lprobs target
               = ok (map (fun p : list Q * Z => nth (Z.to_nat (snd p)) (fst p) 0)
                         (combine (rows lprobs) target))).
  { unfold gather_last.
    replace (length (rows lprobs) <? length target)%nat with false
      by (symmetry; apply Nat.ltb_ge; lia).
    apply mapM_ok. intros [row t] Hin.
    destruct (Hpairs _ Hin) as [Hl Hb]. simpl in *.
    replace ((0 <=? t)%Z && (t <? Z.of_nat (ncols lprobs))%Z)%bool with true
      by (symmetry; apply andb_true_iff; split; [apply Z.leb_le | apply Z.ltb_lt]; lia).
    destruct (nth_error row (Z.to_nat t)) as [v|] eqn:E.
    - f_equal. symmetry. by apply nth_error_nth.
    - apply nth_error_None in E. lia. }
  unfold label_smoothed_nll_loss. rewrite Hg. simpl. clear Hg Hpairs.
  remember (combine (rows lprobs) target) as pairs eqn:Hp.
  rewrite Ht, Hr. clear Hp Hr Ht Hlen Hrows Htgt.
  rewrite !map_map.
  rewrite !masked_fill_same by (by rewrite !length_map).
  simpl. rewrite !combine_map_same, !map_map. simpl.
  replace (Z.of_nat (ncols lprobs) - 1 =? 0)%Z with false
    by (symmetry; apply Z.eqb_neq; lia).
  rewrite broadcast_same by (by rewrite !length_map).
  simpl. rewrite !combine_map_same, !map_map. simpl.
  eexists _, _. split; [reflexivity|].
  split; [|split].
  - apply map_ext. intros [row t]. unfold token_nll. simpl. reflexivity.
  - apply map_ext. intros [row t]. unfold token_loss, token_nll, token_smooth. simpl.
    reflexivity.
  - intros He. apply Forall2_fmap. apply Forall_Forall2_diag.
    apply List.Forall_forall. intros [row t] _. simpl.
    rewrite He. unfold Qdiv. ring.
Qed.

End LabelSmoothing.

Lemma label_smoothed_nll_loss_per_token_witness :
  let lprobs := Tensor2 3 [[-(1); -(2); -(3)]; [-(2); -(1); -(3)]]%Q in
  exists loss nll_loss,
    Criterion.label_smoothed_nll_loss lprobs [0; 1]%Z (1 # 10)%Q (Some 1%Z) false
      = ok (Torch.Vector loss, Torch.Vector nll_loss) /\
    nll_loss = map (fun p => Spec.token_nll 1 (fst p) (snd p))
                   (combine (rows lprobs) [0; 1]%Z) /\
    loss = map (fun p => Spec.token_loss (ncols lprobs) (1 # 10) 1 (fst p) (snd p))
               (combine (rows lprobs) [0; 1]%Z) /\
    ((1 # 10 == 0)%Q -> Forall2 Qeq loss nll_loss).
Proof.
  apply (label_smoothed_nll_loss_per_token
           (Tensor2 3 [[-(1); -(2); -(3)]; [-(2); -(1); -(3)]]%Q)
           [0; 1]%Z (1 # 10)%Q 1%Z).
  - reflexivity.
  - repeat constructor.
  - repeat constructor; simpl; lia.
  - simpl. lia.
Defined.

(** ** The representation terms and their schedule *)

Section Representation.

Import Torch Criterion Spec.
Local Open Scope Q_scope.

Variables texp tlog : Q -> Q.

Lemma bind_ok {A B} (a : A) (k : A -> result B) : bind (ok a) k = k a.
Proof. reflexivity. Qed.









(** The [minilm] block never produces a loss: it reads the local
    [decoder_attn] before anything assigns it. *)
Lemma loss_type_block_minilm c l e mp at_ tat :
  loss_type c = "minilm"%string ->
  loss_type_block texp tlog c l e mp at_ tat = raise TypeError \/
  loss_type_block texp tlog c l e mp at_ tat = raise UnboundLocalError.
Proof.
  intros Hm. unfold loss_type_block. rewrite Hm. simpl.
  destruct (m_value_relation mp); [|by left].
  destruct (m_teacher_value_relation mp); [|by left].
  by right.
Qed.




















End Representation.



(** ** The real-number reading: adaptive rates and the entropy weight *)

Section RealReading.

Import Criterion.
Local Open Scope R_scope.

Lemma total_Rops_nonneg (l : list R) :
  Forall (fun a => 0 < a) l -> 0 <= Kernels.total Arith.Rops l.
Proof.
  induction 1 as [|a l Ha Hl IH]; simpl in *; lra.
Qed.

Lemma total_Rops_pos (l : list R) :
  l <> [] -> Forall (fun a => 0 < a) l -> 0 < Kernels.total Arith.Rops l.
Proof.
  intros Hne Hl. destruct Hl as [|a l Ha Hl]; [congruence|].
  pose proof (total_Rops_nonneg l Hl). simpl in *. lra.
Qed.

Lemma Forall_exp_pos (x : list R) : Forall (fun a => 0 < a) (map Rtrigo_def.exp x).
Proof.
  induction x; simpl; constructor; auto using exp_pos.
Qed.




End RealReading.


Section EntropyWeight.

Import Spec.
Local Open Scope R_scope.

Local Abbreviation total := (Kernels.total Arith.Rops).
Local Abbreviation tiny := (Kernels.tiny Arith.Rops).
#[local] Arguments Kernels.tiny : simpl never.

Lemma tiny_pos : 0 < tiny.
Proof. unfold Kernels.tiny. simpl. lra. Qed.

Lemma total_app (x y : list R) : total (x ++ y) = total x + total y.
Proof. induction x as [|a x IH]; simpl in *; [lra | rewrite IH; lra]. Qed.

Lemma total_repeat (a : R) (n : nat) : total (repeat a n) = INR n * a.
Proof.
  induction n as [|n IH]; [simpl; lra|].
  rewrite S_INR. simpl in *. rewrite IH. lra.
Qed.

Lemma total_map_div (x : list R) (d : R) :
  total (map (fun a => a / d) x) = total x / d.
Proof. induction x as [|a x IH]; simpl in *; [lra | rewrite IH; lra]. Qed.

Lemma total_ge_elem (x : list R) (a : R) :
  Forall (fun b => 0 < b) x -> In a x -> a <= total x.
Proof.
  induction 1 as [|b x Hb Hx IH]; intros Hin; [contradiction|].
  pose proof (total_Rops_nonneg x Hx). simpl in *.
  destruct Hin as [->|Hin]; [lra | specialize (IH Hin); lra].
Qed.

(** The soft-max of a non-empty row is a probability vector. *)
Lemma softmax_probability (x : list R) :
  x <> [] ->
  Forall (fun p => 0 < p) (Kernels.softmax Arith.Rops x) /\
  total (Kernels.softmax Arith.Rops x) = 1 /\
  length (Kernels.softmax Arith.Rops x) = length x.
Proof.
  intros Hne. unfold Kernels.softmax. simpl.
  assert (Htot : 0 < total (map Rtrigo_def.exp x)).
  { apply total_Rops_pos; [|apply Forall_exp_pos]. by destruct x. }
  split; [|split].
  - apply List.Forall_forall. intros p Hp.
    apply in_map_iff in Hp as (e & <- & He).
    apply in_map_iff in He as (a & <- & _).
    apply Rdiv_lt_0_compat; [apply exp_pos | exact Htot].
  - rewrite total_map_div. field. lra.
  - by rewrite !length_map.
Qed.

Lemma ln_lower (y : R) : 0 < y -> 1 - / y <= ln y.
Proof.
  intros Hy. pose proof (exp_ineq1_le (- ln y)) as H.
  rewrite exp_Ropp, exp_ln in H by exact Hy. lra.
Qed.

Lemma ln_le_mono (x y : R) : 0 < x -> x <= y -> ln x <= ln y.
Proof.
  intros Hx [Hlt| ->]; [|lra]. left. by apply ln_increasing.
Qed.


(** One term of the sum against its lower bound: for [0 < a] and [0 < V],
    [a - 1/V < a * ln (a + tiny) + ln V * a]. *)
Lemma entropy_term_lower (V a : R) :
  0 < V -> 0 < a -> a - / V < a * ln (a + tiny) + ln V * a.
Proof.
  intros HV Ha. pose proof tiny_pos as Ht.
  assert (Hy : 0 < V * (a + tiny)) by (apply Rmult_lt_0_compat; lra).
  pose proof (ln_lower _ Hy) as Hln.
  rewrite ln_mult in Hln by lra.
  assert (Hu : a * / (V * (a + tiny)) < / V).
  { apply (Rmult_lt_reg_r (V * (a + tiny))); [exact Hy|].
    replace (a * / (V * (a + tiny)) * (V * (a + tiny))) with a by (field; lra).
    replace (/ V * (V * (a + tiny))) with (a + tiny) by (field; lra).
    lra. }
  assert (Hm : a * (1 - / (V * (a + tiny))) <= a * (ln V + ln (a + tiny)))
    by (apply Rmult_le_compat_l; lra).
  lra.
Qed.

Lemma entropy_sum_lower (V : R) (l : list R) :
  0 < V -> Forall (fun a => 0 < a) l ->
  total l - INR (length l) / V
  <= total (map (fun p => p * ln (p + tiny)) l) + ln V * total l.
Proof.
  intros HV. induction 1 as [|a l Ha Hl IH].
  - simpl. lra.
  - pose proof (entropy_term_lower V a HV Ha) as Hterm.
    change (length (a :: l)) with (S (length l)). rewrite S_INR.
    simpl in *. unfold Rdiv in *. lra.
Qed.

Lemma entropy_sum_lower_strict (V : R) (l : list R) :
  0 < V -> l <> [] -> Forall (fun a => 0 < a) l ->
  total l - INR (length l) / V
  < total (map (fun p => p * ln (p + tiny)) l) + ln V * total l.
Proof.
  intros HV Hne Hl. destruct Hl as [|a l Ha Hl]; [congruence|].
  pose proof (entropy_term_lower V a HV Ha) as Hterm.
  pose proof (entropy_sum_lower V l HV Hl) as Hrest.
  change (length (a :: l)) with (S (length l)). rewrite S_INR.
  simpl in *. unfold Rdiv in *. lra.
Qed.

Lemma entropy_sum_upper (l : list R) :
  Forall (fun a => 0 < a <= 1) l ->
  total (map (fun p => p * ln (p + tiny)) l) <= ln (1 + tiny) * total l.
Proof.
  pose proof tiny_pos as Ht.
  induction 1 as [|a l [Ha Ha1] Hl IH]; simpl in *; [lra|].
  assert (Hln : ln (a + tiny) <= ln (1 + tiny)) by (apply ln_le_mono; lra).
  assert (Hm : a * ln (a + tiny) <= a * ln (1 + tiny))
    by (apply Rmult_le_compat_l; lra).
  lra.
Qed.

(** The weight of a probability vector over [V >= 2] classes. *)
Lemma weight_of_probs_bounds (V : nat) (p : list R) :
  (2 <= V)%nat -> length p = V ->
  Forall (fun a => 0 < a) p -> total p = 1 ->
  - ln (1 + tiny) / ln (INR V) <= Kernels.weight_of_probs Arith.Rops V p < 1.
Proof.
  intros HV Hlen Hpos Hsum.
  assert (HVr : 2 <= INR V) by (pose proof (le_INR 2 V HV) as H2; simpl in H2; lra).
  assert (HlnV : 0 < ln (INR V)).
  { rewrite <- ln_1. apply ln_increasing; lra. }
  unfold Kernels.weight_of_probs, Kernels.entropy_of_probs, Kernels.of_nat.
  simpl. rewrite Rmult_1_l, <- INR_IZR_INZ.
  assert (Hne : p <> []) by (intros ->; simpl in Hlen; lia).
  pose proof (entropy_sum_lower_strict (INR V) p ltac:(lra) Hne Hpos) as Hup.
  rewrite Hsum, Hlen in Hup.
  replace (INR V / INR V) with 1 in Hup by (field; lra).
  assert (Hp1 : Forall (fun a => 0 < a <= 1) p).
  { apply List.Forall_forall. intros a Hin. split.
    - rewrite List.Forall_forall in Hpos. by apply Hpos.
    - rewrite <- Hsum. by apply total_ge_elem. }
  pose proof (entropy_sum_upper p Hp1) as Hlow. rewrite Hsum in Hlow.
  split.
  - apply Rmult_le_compat_r; [left; by apply Rinv_0_lt_compat | lra].
  - apply (Rmult_lt_reg_r (ln (INR V))); [exact HlnV|].
    unfold Rdiv. rewrite Rmult_assoc, Rinv_l by lra. lra.
Qed.


Lemma ln_INR_pos (V : nat) : (2 <= V)%nat -> 0 < ln (INR V).
Proof.
  intros HV.
  assert (HVr : 2 <= INR V) by (pose proof (le_INR 2 V HV) as H2; simpl in H2; lra).
  rewrite <- ln_1. apply ln_increasing; lra.
Qed.

(** Every entry of [instance_weight] lies in the range. *)
Lemma instance_weight_bounds (V : nat) (rows : list (list R)) :
  (2 <= V)%nat -> Forall (fun row => length row = V) rows ->
  Forall (fun w => - ln (1 + tiny) / ln (INR V) <= w < 1)
         (Kernels.instance_weight Arith.Rops (Tensor2 V rows)).
Proof.
  intros HV Hrows. unfold Kernels.instance_weight. simpl.
  induction Hrows as [|row rows Hrow Hrows IH]; simpl; constructor; [|exact IH].
  assert (Hne : row <> []) by (intros ->; simpl in Hrow; lia).
  destruct (softmax_probability row Hne) as (Hpos & Hsum & Hlen).
  apply weight_of_probs_bounds; auto. congruence.
Qed.

(** The weight of the uniform distribution. *)
Lemma uniform_weight (V : nat) (c : R) :
  (2 <= V)%nat ->
  Kernels.instance_weight Arith.Rops (Tensor2 V [repeat c V])
  = [- ln (/ INR V + tiny) / ln (INR V)].
Proof.
  intros HV.
  assert (HVr : 2 <= INR V) by (pose proof (le_INR 2 V HV) as H2; simpl in H2; lra).
  unfold Kernels.instance_weight. simpl. f_equal.
  unfold Kernels.softmax. simpl.
  rewrite !map_repeat, !total_repeat, Rmult_1_l, <- INR_IZR_INZ.
  pose proof (exp_pos c) as He.
  replace (Rtrigo_def.exp c / (INR V * Rtrigo_def.exp c)) with (/ INR V)
    by (field; lra).
  field. pose proof (ln_INR_pos V HV). lra.
Qed.

Lemma uniform_weight_below_one (V : nat) :
  (2 <= V)%nat -> - ln (/ INR V + tiny) / ln (INR V) < 1.
Proof.
  intros HV. pose proof tiny_pos as Ht. pose proof (ln_INR_pos V HV) as HlnV.
  assert (HVr : 2 <= INR V) by (pose proof (le_INR 2 V HV) as H2; simpl in H2; lra).
  assert (Hinv : 0 < / INR V) by (apply Rinv_0_lt_compat; lra).
  assert (Hlt : ln (/ INR V) < ln (/ INR V + tiny)) by (apply ln_increasing; lra).
  rewrite ln_Rinv in Hlt by lra.
  apply (Rmult_lt_reg_r (ln (INR V))); [exact HlnV|].
  unfold Rdiv. rewrite Rmult_assoc, Rinv_l by lra. lra.
Qed.

(** The weight of a one-hot distribution. *)
Lemma one_hot_weight (V k : nat) :
  (k < V)%nat ->
  Kernels.weight_of_probs Arith.Rops V (one_hot V k)
  = - ln (1 + tiny) / ln (INR V).
Proof.
  intros Hk. unfold Kernels.weight_of_probs, Kernels.entropy_of_probs, Kernels.of_nat.
  unfold one_hot. simpl.
  rewrite !map_app, !total_app. simpl.
  rewrite !map_repeat, !total_repeat, <- INR_IZR_INZ.
  replace (1 * INR V) with (INR V) by ring.
  unfold Rdiv. f_equal. ring.
Qed.

Lemma one_hot_weight_negative (V : nat) :
  (2 <= V)%nat -> - ln (1 + tiny) / ln (INR V) < 0.
Proof.
  intros HV. pose proof tiny_pos as Ht. pose proof (ln_INR_pos V HV) as HlnV.
  assert (Hl : 0 < ln (1 + tiny)) by (rewrite <- ln_1; apply ln_increasing; lra).
  apply (Rmult_lt_reg_r (ln (INR V))); [exact HlnV|].
  unfold Rdiv. rewrite Rmult_assoc, Rinv_l by lra. lra.
Qed.

(** C8, as amended. For a vocabulary of V >= 2 classes and any student
    logits, every per-example weight is strictly below 1 and at least
    [- ln (1 + 1e-6) / ln V]; for a uniform student distribution it is
    [- ln (1/V + 1e-6) / ln V], strictly below 1; and for a one-hot
    distribution it is [- ln (1 + 1e-6) / ln V], strictly below 0. *)
Theorem entropy_weight_range (V : nat) (rows : list (list R)) (c : R) (k : nat) :
  (2 <= V)%nat ->
  Forall (fun row => length row = V) rows ->
  (k < V)%nat ->
  Forall (fun w => - ln (1 + 1 / 1000000) / ln (INR V) <= w < 1)
         (Kernels.instance_weight Arith.Rops (Tensor2 V rows)) /\
  Kernels.instance_weight Arith.Rops (Tensor2 V [repeat c V])
    = [- ln (/ INR V + 1 / 1000000) / ln (INR V)] /\
  - ln (/ INR V + 1 / 1000000) / ln (INR V) < 1 /\
  Kernels.weight_of_probs Arith.Rops V (one_hot V k)
    = - ln (1 + 1 / 1000000) / ln (INR V) /\
  - ln (1 + 1 / 1000000) / ln (INR V) < 0.
Proof.
  intros HV Hrows Hk.
  change (1 / 1000000) with tiny.
  split; [by apply instance_weight_bounds|].
  split; [by apply uniform_weight|].
  split; [by apply uniform_weight_below_one|].
  split; [by apply one_hot_weight | by apply one_hot_weight_negative].
Qed.

End EntropyWeight.

Lemma entropy_weight_range_witness :
  Forall (fun w => (- ln (1 + 1 / 1000000) / ln (INR 2) <= w < 1)%R)
         (Kernels.instance_weight Arith.Rops (Tensor2 2 [[0; 1]; [3; 2]]%R)) /\
  Kernels.instance_weight Arith.Rops (Tensor2 2 [repeat 0%R 2])
    = [(- ln (/ INR 2 + 1 / 1000000) / ln (INR 2))%R] /\
  (- ln (/ INR 2 + 1 / 1000000) / ln (INR 2) < 1)%R /\
  Kernels.weight_of_probs Arith.Rops 2 (Spec.one_hot 2 0)
    = (- ln (1 + 1 / 1000000) / ln (INR 2))%R /\
  (- ln (1 + 1 / 1000000) / ln (INR 2) < 0)%R.
Proof.
  apply (entropy_weight_range 2 [[0; 1]; [3; 2]]%R 0%R 0).
  - lia.
  - repeat constructor.
  - lia.
Defined.

(** C8, the claim as stated fails: for the uniform student distribution over
    two classes (logits 0, 0) the weight is [- ln (1/2 + 1e-6) / ln 2], which
    is not 1. *)
Lemma uniform_weight_is_not_one :
  exists w,
    Kernels.instance_weight Arith.Rops (Tensor2 2 [[0; 0]]%R) = [w] /\
    w <> 1%R.
Proof.
  eexists. split.
  - apply (uniform_weight 2 0%R). lia.
  - pose proof (uniform_weight_below_one 2 ltac:(lia)) as H. lra.
Qed.

(* ===================================================================== *)
(** * Part III: further properties of the code                            *)
(* ===================================================================== *)

(** ** Presets: what a preset changes *)

Section PresetUnion.

Import Presets.

Lemma fill_union name d (args : namespace) :
  fill name d args = args ∪ <[name := d]> ∅.
Proof.
  apply map_eq. intros k. unfold fill, getattr.
  rewrite lookup_union.
  destruct (decide (name = k)) as [->|Hne].
  - rewrite !lookup_insert_eq. by destruct (args !! k).
  - rewrite !lookup_insert_ne by done. rewrite lookup_empty.
    by destruct (args !! k).
Qed.

Lemma own_union name own :
  In (name, own) ARCH_REGISTRY ->
  forall args : namespace, own args = args ∪ own ∅.
Proof.
  intros Hin args. unfold ARCH_REGISTRY in Hin. simpl in Hin.
  repeat (destruct Hin as [Heq | Hin];
    [ inversion Heq; subst; clear Heq;
      cbv beta delta
        [transformer_small_link_8heads transformer_tiny_link_8heads
         transformer_small_link transformer_2layers_8heads transformer_2layers
         transformer_3layers_regressor transformer_2layers_regressor
         transformer_tiny_link transformer_tiny_nolink transformer_big
         transformer_huge transformer_xlarge] zeta;
      rewrite !fill_union, (left_id_L ∅ (∪)), !(assoc_L (∪)); reflexivity | ]).
  contradiction.
Qed.

(** X1. Every registered preset fills exactly the fields that are missing:
    its result is the caller's configuration, completed by the preset's
    defaults (the values it assigns on the empty configuration) for the
    fields the caller left unset, and nothing else changes; so applying a
    preset twice is the same as applying it once. *)
Theorem preset_fills_only_missing name own (args : namespace) (k : string) :
  In (name, own) ARCH_REGISTRY ->
  own args !! k = match args !! k with
                  | Some v => Some v
                  | None => own ∅ !! k
                  end
  /\ own (own args) = own args.
Proof.
  intros Hin. split.
  - rewrite (own_union name own Hin args), lookup_union.
    destruct (args !! k), (own ∅ !! k); reflexivity.
  - rewrite (own_union name own Hin (own args)).
    rewrite (own_union name own Hin args) at 1 2.
    rewrite <- (assoc_L (∪)). by rewrite (idemp (∪)) at 1.
Qed.

End PresetUnion.

Lemma preset_fills_only_missing_witness :
  let args : Presets.namespace := <["encoder_layers"%string := Presets.VInt 12]> ∅ in
  Presets.transformer_tiny_nolink args !! "encoder_layers"%string
  = match args !! "encoder_layers"%string with
    | Some v => Some v
    | None => Presets.transformer_tiny_nolink ∅ !! "encoder_layers"%string
    end
  /\ Presets.transformer_tiny_nolink (Presets.transformer_tiny_nolink args)
     = Presets.transformer_tiny_nolink args.
Proof.
  apply (preset_fills_only_missing "transformer_tiny_nolink"%string
           Presets.transformer_tiny_nolink).
  unfold Presets.ARCH_REGISTRY. simpl. auto 20.
Defined.

(** ** The task: language ids *)

Section TaskProperties.

Import Task.

Lemma StronglySorted_seq (a n : nat) : StronglySorted lt (seq a n).
Proof.
  revert a. induction n as [|n IH]; intros a; simpl; constructor.
  - apply IH.
  - apply List.Forall_forall. intros x Hx. apply in_seq in Hx. lia.
Qed.

Lemma StronglySorted_filter_lt (f : nat -> bool) (l : list nat) :
  StronglySorted lt l -> StronglySorted lt (List.filter f l).
Proof.
  induction 1 as [|a l Hl IH Ha]; simpl; [constructor|].
  destruct (f a); [|exact IH].
  constructor; [exact IH|].
  apply List.Forall_forall. intros x Hx. apply filter_In in Hx as [Hx _].
  rewrite List.Forall_forall in Ha. by apply Ha.
Qed.

Lemma StronglySorted_of_nat (l : list nat) :
  StronglySorted lt l -> StronglySorted Z.lt (map Z.of_nat l).
Proof.
  induction 1 as [|a l Hl IH Ha]; simpl; constructor; [exact IH|].
  apply List.Forall_forall. intros x Hx. apply in_map_iff in Hx as (y & <- & Hy).
  rewrite List.Forall_forall in Ha. specialize (Ha y Hy). lia.
Qed.

(** X2. The language ids of a task are exactly the positions of the source
    dictionary whose symbol starts with [__src__], listed in strictly
    increasing order (so without repetition). *)
Theorem src_lang_ids_are_the_marked_symbols
    (cfg : KDTranslationConfig) (src tgt : dictionary) (id : Z) :
  (In id (src_lang_ids (__init__ cfg src tgt)) <->
     exists i s, id = Z.of_nat i /\ nth_error (symbols src) i = Some s /\
                 String.prefix "__src__" s = true) /\
  StronglySorted Z.lt (src_lang_ids (__init__ cfg src tgt)).
Proof.
  simpl. split.
  - rewrite in_map_iff. split.
    + intros (i & <- & Hi). apply filter_In in Hi as [Hr Hp].
      apply in_seq in Hr.
      destruct (nth_error (symbols src) i) as [s|] eqn:E.
      * exists i, s. repeat split; auto.
        unfold startswith, getitem in Hp. by rewrite (nth_error_nth _ _ _ E) in Hp.
      * apply nth_error_None in E. lia.
    + intros (i & s & -> & Hs & Hp). exists i. split; [reflexivity|].
      apply filter_In. split.
      * apply in_seq.
        assert (i < length (symbols src))%nat
          by (apply nth_error_Some; congruence).
        lia.
      * unfold startswith, getitem. by rewrite (nth_error_nth _ _ _ Hs).
  - apply StronglySorted_of_nat, StronglySorted_filter_lt, StronglySorted_seq.
Qed.

End TaskProperties.

(** ** The per-language queues of [global_multi_level] *)

Section LanguageQueues.

Import Torch Criterion Laws.

Lemma init_queue_lookup (ids : list Z) (d0 : gmap Z (list Q)) (k : Z) :
  fold_left (fun d id => <[id := []]> d) ids d0 !! k
  = if existsb (Z.eqb k) ids then Some [] else d0 !! k.
Proof.
  revert d0. induction ids as [|id ids IH]; intros d0; simpl; [reflexivity|].
  rewrite IH. destruct (existsb (Z.eqb k) ids); [by rewrite orb_true_r|].
  rewrite orb_false_r. destruct (Z.eqb_spec k id) as [->|Hne].
  - by rewrite lookup_insert_eq.
  - by rewrite lookup_insert_ne.
Qed.

Lemma existsb_eqb_In (k : Z) (ids : list Z) :
  existsb (Z.eqb k) ids = true <-> In k ids.
Proof.
  rewrite existsb_exists. split.
  - intros (x & Hx & He). apply Z.eqb_eq in He. by subst.
  - intros H. exists k. split; [exact H | apply Z.eqb_refl].
Qed.

(** One push: the pushed language's queue is updated by [push], every other
    queue is as before. *)
Lemma push_to_lang_step c st d id tensor q :
  queue st = QueueDict d -> d !! id = Some q ->
  push_to_lang_FIFO_queue c st id tensor
  = ok (State (alpha st) (QueueDict (<[id := push (kd_queue_size c) q tensor]> d))).
Proof.
  intros Hq Hd. unfold push_to_lang_FIFO_queue. by rewrite Hq, Hd.
Qed.

Lemma push_to_lang_inv c st id tensor st' :
  push_to_lang_FIFO_queue c st id tensor = ok st' ->
  exists d q, queue st = QueueDict d /\ d !! id = Some q /\
    st' = State (alpha st) (QueueDict (<[id := push (kd_queue_size c) q tensor]> d)).
Proof.
  unfold push_to_lang_FIFO_queue. intros H.
  destruct (queue st) as [?|d]; [discriminate|].
  destruct (d !! id) as [q|] eqn:E; [|discriminate].
  injection H as <-. by exists d, q.
Qed.

(** X3. From a state whose queue is a dictionary, a sequence of
    [push_to_lang_FIFO_queue] calls on languages that have a queue succeeds,
    leaves [alpha] alone, creates and removes no queue, and leaves in every
    language's queue what the pushes of that language alone would have left:
    the queues do not interfere. *)
Theorem language_queues_do_not_interfere (c : criterion) (pushes : list (Z * list Q)) :
  forall (st : state) (d : gmap Z (list Q)),
    queue st = QueueDict d ->
    Forall (fun p : Z * list Q => is_Some (d !! fst p)) pushes ->
    exists st' d',
      push_lang_all c st pushes = ok st' /\
      queue st' = QueueDict d' /\
      alpha st' = alpha st /\
      forall id,
        d' !! id
        = option_map (fun q => fold_left (push (kd_queue_size c)) (tensors_of id pushes) q)
                     (d !! id).
Proof.
  induction pushes as [|[id0 t0] rest IH]; intros st d Hq Hall.
  - exists st, d. simpl. repeat split; auto.
    intros id. unfold tensors_of. simpl. by destruct (d !! id).
  - inversion Hall as [|? ? [q0 Hq0] Hrest]; subst. simpl in Hq0.
    simpl. rewrite (push_to_lang_step c st d id0 t0 q0 Hq Hq0). simpl.
    edestruct (IH (State (alpha st)
                     (QueueDict (<[id0 := push (kd_queue_size c) q0 t0]> d))))
      as (st' & d' & Hrun & Hq' & Ha & Hd').
    { reflexivity. }
    { apply List.Forall_forall. intros p Hp.
      rewrite List.Forall_forall in Hrest. specialize (Hrest p Hp).
      destruct (decide (id0 = fst p)) as [->|Hne].
      - rewrite lookup_insert_eq. by eexists.
      - by rewrite lookup_insert_ne. }
    exists st', d'. repeat split; auto.
    intros id. rewrite Hd'. unfold tensors_of. simpl.
    destruct (Z.eqb_spec id0 id) as [->|Hne].
    + rewrite lookup_insert_eq, Hq0. reflexivity.
    + rewrite lookup_insert_ne by done. reflexivity.
Qed.

(** Whatever is pushed, the languages that have a queue stay the same. *)
Lemma push_lang_all_keys c pushes :
  forall st st' d,
    queue st = QueueDict d ->
    push_lang_all c st pushes = ok st' ->
    exists d', queue st' = QueueDict d' /\
               forall id, is_Some (d' !! id) <-> is_Some (d !! id).
Proof.
  induction pushes as [|[id0 t0] rest IH]; intros st st' d Hq H; simpl in H.
  - injection H as <-. by exists d.
  - bind_inv H as E.
    apply push_to_lang_inv in E as (d1 & q & Hq1 & Hd1 & ->).
    rewrite Hq in Hq1. injection Hq1 as <-.
    destruct (IH (State (alpha st)
                    (QueueDict (<[id0 := push (kd_queue_size c) q t0]> d)))
                 st' _ eq_refl H) as (d' & Hq' & Hk).
    exists d'. split; [exact Hq'|].
    intros id. rewrite Hk.
    destruct (decide (id0 = id)) as [->|Hne].
    + rewrite lookup_insert_eq, Hd1. split; intros _; by eexists.
    + by rewrite lookup_insert_ne.
Qed.

(** X4. Under [global_multi_level] the constructor creates one empty queue
    per language id of the task, and from then on, whatever has been pushed,
    [push_to_lang_FIFO_queue] succeeds for exactly these ids and raises
    [KeyError] for every other id. *)
Theorem unknown_language_raises_KeyError
    (t : task) (cfg : config) (pushes : list (Z * list Q)) (st' : state)
    (id : Z) (tensor : list Q) :
  task_kd_strategy t = "global_multi_level"%string ->
  push_lang_all (fst (__init__ t cfg)) (snd (__init__ t cfg)) pushes = ok st' ->
  (exists d, queue (snd (__init__ t cfg)) = QueueDict d /\
             forall k, d !! k = if existsb (Z.eqb k) (src_lang_ids t)
                                then Some [] else None) /\
  (In id (src_lang_ids t) ->
     exists st'', push_to_lang_FIFO_queue (fst (__init__ t cfg)) st' id tensor = ok st'') /\
  (~ In id (src_lang_ids t) ->
     push_to_lang_FIFO_queue (fst (__init__ t cfg)) st' id tensor = raise KeyError).
Proof.
  intros Hs Hrun.
  assert (Hinit : exists d, queue (snd (__init__ t cfg)) = QueueDict d /\
             forall k, d !! k = if existsb (Z.eqb k) (src_lang_ids t)
                                then Some [] else None).
  { simpl. rewrite Hs. simpl. eexists. split; [reflexivity|].
    intros k. rewrite init_queue_lookup. by rewrite lookup_empty. }
  split; [exact Hinit|].
  destruct Hinit as (d & Hq & Hd).
  destruct (push_lang_all_keys _ _ _ _ _ Hq Hrun) as (d' & Hq' & Hk).
  split.
  - intros Hin. apply existsb_eqb_In in Hin.
    assert (Hsome : is_Some (d' !! id)) by (apply Hk; rewrite Hd, Hin; by eexists).
    destruct Hsome as [q Hq0]. eexists.
    by apply (push_to_lang_step _ st' d' id tensor q).
  - intros Hnin.
    assert (Hnone : d' !! id = None).
    { destruct (d' !! id) eqn:E; [|reflexivity].
      assert (Hsome : is_Some (d !! id)) by (apply Hk; by eexists).
      rewrite Hd in Hsome. destruct (existsb (Z.eqb id) (src_lang_ids t)) eqn:Ex.
      - apply existsb_eqb_In in Ex. contradiction.
      - by destruct Hsome. }
    unfold push_to_lang_FIFO_queue. by rewrite Hq', Hnone.
Qed.

End LanguageQueues.

Lemma language_queues_do_not_interfere_witness :
  let cs := Criterion.__init__ (Examples.a_task "global_multi_level")
              (Examples.a_config 3 None "mse" false) in
  let pushes := [(100%Z, [1; 2]%Q); (200%Z, [5]%Q); (100%Z, [3]%Q)] in
  exists st' d',
    Laws.push_lang_all (fst cs) (snd cs) pushes = ok st' /\
    Criterion.queue st' = Criterion.QueueDict d' /\
    Criterion.alpha st' = Criterion.alpha (snd cs) /\
    forall id,
      d' !! id
      = option_map
          (fun q => fold_left (Criterion.push (Criterion.kd_queue_size (fst cs)))
                              (Laws.tensors_of id pushes) q)
          (fold_left (fun d id => <[id := []]> d) [100; 200]%Z
             (∅ : gmap Z (list Q)) !! id).
Proof.
  apply (language_queues_do_not_interfere
           (fst (Criterion.__init__ (Examples.a_task "global_multi_level")
                   (Examples.a_config 3 None "mse" false)))
           [(100%Z, [1; 2]%Q); (200%Z, [5]%Q); (100%Z, [3]%Q)]
           (snd (Criterion.__init__ (Examples.a_task "global_multi_level")
                   (Examples.a_config 3 None "mse" false)))).
  - reflexivity.
  - repeat constructor; simpl; by eexists.
Defined.

Lemma unknown_language_raises_KeyError_witness :
  let t := Examples.a_task "global_multi_level" in
  let cfg := Examples.a_config 3 None "mse" false in
  let st' := Criterion.State (Some (Torch.Scalar (1 # 2)))
               (Criterion.QueueDict (<[100%Z := [1; 2]%Q]> (<[200%Z := []]> ∅))) in
  (exists d, Criterion.queue (snd (Criterion.__init__ t cfg)) = Criterion.QueueDict d /\
             forall k, d !! k = if existsb (Z.eqb k) (Criterion.src_lang_ids t)
                                then Some [] else None) /\
  (In 300%Z (Criterion.src_lang_ids t) ->
     exists st'', Criterion.push_to_lang_FIFO_queue (fst (Criterion.__init__ t cfg)) st'
                    300 [7]%Q = ok st'') /\
  (~ In 300%Z (Criterion.src_lang_ids t) ->
     Criterion.push_to_lang_FIFO_queue (fst (Criterion.__init__ t cfg)) st' 300 [7]%Q
     = raise KeyError).
Proof.
  apply (unknown_language_raises_KeyError
           (Examples.a_task "global_multi_level")
           (Examples.a_config 3 None "mse" false)
           [(100%Z, [1; 2]%Q)]).
  - reflexivity.
  - reflexivity.
Defined.

(** ** [get_lang_ids] *)

Section LanguageIds.

Import Torch Criterion Laws.

Lemma no_non_pad_filter (pad : Z) (row : list Z) :
  existsb (fun b : bool => b) (map (fun t => negb (t =? pad)%Z) row) = false ->
  List.filter (fun t => negb (t =? pad)%Z) row = [].
Proof.
  induction row as [|t row IH]; simpl; [reflexivity|].
  destruct (negb (t =? pad)%Z); simpl; [discriminate | exact IH].
Qed.

Lemma argmax_bool_first_non_pad (pad : Z) (row : list Z) :
  row <> [] ->
  nth_error row (argmax_bool (map (fun t => negb (t =? pad)%Z) row))
  = Some (first_non_pad pad row).
Proof.
  induction row as [|t row IH]; intros Hne; [congruence|].
  unfold first_non_pad. simpl.
  destruct (Z.eqb_spec t pad) as [->|Hneq]; simpl; [|reflexivity].
  destruct (existsb (fun b : bool => b) (map (fun t => negb (t =? pad)%Z) row)) eqn:Ex.
  - simpl. apply IH. intros ->. discriminate Ex.
  - simpl. by rewrite (no_non_pad_filter pad row Ex).
Qed.

Lemma mapM_ok_map {A B} (f : A -> result B) (g : A -> B) (l : list A) :
  Forall (fun a => f a = ok (g a)) l -> mapM f l = ok (map g l).
Proof.
  induction 1 as [|a l Ha Hl IH]; simpl; [reflexivity|].
  by rewrite Ha, IH.
Qed.

(** X5. On a batch of non-empty sentences [get_lang_ids] returns, for every
    sentence, its first token that is not padding, and the padding index
    itself for a sentence that is all padding: for a left-padded sentence
    this is the token right after the padding. *)
Theorem get_lang_ids_first_non_pad (c : criterion) (tokens : list (list Z)) :
  Forall (fun row => row <> []) tokens ->
  get_lang_ids c tokens = ok (map (first_non_pad (padding_idx c)) tokens) /\
  (forall k t rest,
     t <> padding_idx c ->
     first_non_pad (padding_idx c) (repeat (padding_idx c) k ++ t :: rest) = t) /\
  (forall k, first_non_pad (padding_idx c) (repeat (padding_idx c) k) = padding_idx c).
Proof.
  intros Hne. split; [|split].
  - unfold get_lang_ids. apply mapM_ok_map.
    eapply List.Forall_impl; [|exact Hne].
    intros row Hrow. simpl. by rewrite argmax_bool_first_non_pad.
  - intros k t rest Ht. unfold first_non_pad.
    induction k as [|k IH]; simpl.
    + destruct (Z.eqb_spec t (padding_idx c)); [contradiction | reflexivity].
    + by rewrite Z.eqb_refl.
  - intros k. unfold first_non_pad.
    induction k as [|k IH]; simpl; [reflexivity|].
    by rewrite Z.eqb_refl.
Qed.

End LanguageIds.

Lemma get_lang_ids_first_non_pad_witness :
  let c := fst (Criterion.__init__ (Examples.a_task "global_multi_level")
                  (Examples.a_config 3 None "mse" false)) in
  let tokens := [[1; 1; 100; 7; 8]; [200; 9; 1; 1; 1]; [1; 1; 1; 1; 1]]%Z in
  Criterion.get_lang_ids c tokens
  = ok (map (Laws.first_non_pad (Criterion.padding_idx c)) tokens) /\
  (forall k t rest,
     t <> Criterion.padding_idx c ->
     Laws.first_non_pad (Criterion.padding_idx c)
       (repeat (Criterion.padding_idx c) k ++ t :: rest) = t) /\
  (forall k, Laws.first_non_pad (Criterion.padding_idx c)
               (repeat (Criterion.padding_idx c) k) = Criterion.padding_idx c).
Proof.
  apply (get_lang_ids_first_non_pad
           (fst (Criterion.__init__ (Examples.a_task "global_multi_level")
                   (Examples.a_config 3 None "mse" false)))
           [[1; 1; 100; 7; 8]; [200; 9; 1; 1; 1]; [1; 1; 1; 1; 1]]%Z).
  repeat constructor; discriminate.
Defined.

(** ** The size of the history queue *)

Section QueueSize.

Import Torch Criterion Spec.

Lemma push_length (K : Z) (q t : list Q) :
  length (push K q t)
  = if (K <=? Z.of_nat (length t + length q))%Z
    then Nat.max (length q) (length t)
    else (length q + length t)%nat.
Proof.
  unfold push. destruct (K <=? Z.of_nat (length t + length q))%Z.
  - rewrite length_app, length_skipn. lia.
  - by rewrite length_app.
Qed.

Lemma push_length_lt (K : Z) (q t : list Q) :
  (Z.of_nat (length q) < K)%Z -> (Z.of_nat (length t) < K)%Z ->
  (Z.of_nat (length (push K q t)) < K)%Z.
Proof.
  intros Hq Ht. rewrite push_length.
  destruct (K <=? Z.of_nat (length t + length q))%Z eqn:E; [lia|].
  apply Z.leb_gt in E. lia.
Qed.

(** X6. A push evicts nothing while the sizes of queue and tensor add up to
    less than [kd_queue_size]; from there on it evicts as many entries as it
    appends (all of them when the queue is the shorter one), so the new size
    is the larger of the two sizes.  Hence, from a queue shorter than
    [kd_queue_size] and with tensors shorter than [kd_queue_size], the queue
    never reaches [kd_queue_size] entries. *)
Theorem queue_stays_below_capacity (c : criterion) (st : state)
    (q0 : list Q) (tensors : list (list Q)) :
  queue st = QueueTensor q0 ->
  (Z.of_nat (length q0) < kd_queue_size c)%Z ->
  Forall (fun t => (Z.of_nat (length t) < kd_queue_size c)%Z) tensors ->
  (exists st' q,
     push_all c st tensors = ok st' /\
     queue st' = QueueTensor q /\
     (Z.of_nat (length q) < kd_queue_size c)%Z) /\
  (forall q t,
     length (push (kd_queue_size c) q t)
     = if (kd_queue_size c <=? Z.of_nat (length t + length q))%Z
       then Nat.max (length q) (length t)
       else (length q + length t)%nat).
Proof.
  intros Hst Hq0 Hall. split; [|intros; apply push_length].
  revert st q0 Hst Hq0.
  induction Hall as [|t rest Ht Hrest IH]; intros st q0 Hst Hq0.
  - exists st, q0. simpl. auto.
  - simpl. unfold push_to_FIFO_queue. rewrite Hst. simpl.
    apply (IH (State (alpha st) (QueueTensor (push (kd_queue_size c) q0 t)))
              (push (kd_queue_size c) q0 t)); [reflexivity|].
    by apply push_length_lt.
Qed.

End QueueSize.

Lemma queue_stays_below_capacity_witness :
  let cs := Criterion.__init__ (Examples.a_task "global_level")
              (Examples.a_config 5 None "mse" false) in
  let tensors := [[1; 2; 3]; [4; 5]; [6; 7; 8; 9]]%Q in
  (exists st' q,
     Spec.push_all (fst cs) (snd cs) tensors = ok st' /\
     Criterion.queue st' = Criterion.QueueTensor q /\
     (Z.of_nat (length q) < Criterion.kd_queue_size (fst cs))%Z) /\
  (forall q t,
     length (Criterion.push (Criterion.kd_queue_size (fst cs)) q t)
     = if (Criterion.kd_queue_size (fst cs) <=? Z.of_nat (length t + length q))%Z
       then Nat.max (length q) (length t)
       else (length q + length t)%nat).
Proof.
  apply (queue_stays_below_capacity
           (fst (Criterion.__init__ (Examples.a_task "global_level")
                   (Examples.a_config 5 None "mse" false)))
           (snd (Criterion.__init__ (Examples.a_task "global_level")
                   (Examples.a_config 5 None "mse" false)))
           [] [[1; 2; 3]; [4; 5]; [6; 7; 8; 9]]%Q).
  - reflexivity.
  - simpl. lia.
  - repeat constructor; simpl; lia.
Defined.

(** ** Python floats: rounding to a double *)

Section Doubles.

Import Torch.
Local Open Scope Q_scope.

Lemma pow2_pos (e : Z) : 0 < 2 ^ e.
Proof. apply Qpower_0_lt. reflexivity. Qed.

Lemma pow2_plus (a b : Z) : 2 ^ (a + b) == 2 ^ a * 2 ^ b.
Proof. apply Qpower_plus. discriminate. Qed.

Lemma pow2_le (a b : Z) : (a <= b)%Z -> 2 ^ a <= 2 ^ b.
Proof. intros H. apply Qpower_le_compat_l; [exact H | discriminate]. Qed.

Lemma pow2_lt (a b : Z) : (a < b)%Z -> 2 ^ a < 2 ^ b.
Proof. intros H. apply Qpower_lt_compat_l; [exact H | reflexivity]. Qed.

Lemma pow2_lt_inv (a b : Z) : 2 ^ a < 2 ^ b -> (a < b)%Z.
Proof. intros H. apply (Qpower_lt_compat_l_inv 2); [exact H | reflexivity]. Qed.

Lemma pow2_inject (n : Z) : (0 <= n)%Z -> inject_Z (2 ^ n) == 2 ^ n.
Proof. intros H. apply (Zpower_Qpower 2 n H). Qed.

(** [ilog2 x] is the exponent of the binade of a positive [x]. *)
Lemma ilog2_spec (x : Q) : 0 < x -> 2 ^ ilog2 x <= x /\ x < 2 ^ (ilog2 x + 1).
Proof.
  intros Hx. destruct x as [n d]. unfold ilog2. simpl Qnum. simpl Qden.
  assert (Hn : (0 < n)%Z).
  { unfold Qlt in Hx. simpl in Hx. lia. }
  set (a := Z.log2 n). set (b := Z.log2 (Z.pos d)).
  assert (Ha : (2 ^ a <= n < 2 ^ (a + 1))%Z).
  { pose proof (Z.log2_spec n Hn) as H. fold a in H.
    replace (a + 1)%Z with (Z.succ a) by lia. exact H. }
  assert (Hb : (2 ^ b <= Z.pos d < 2 ^ (b + 1))%Z).
  { pose proof (Z.log2_spec (Z.pos d) ltac:(lia)) as H. fold b in H.
    replace (b + 1)%Z with (Z.succ b) by lia. exact H. }
  assert (Ha0 : (0 <= a)%Z) by apply Z.log2_nonneg.
  assert (Hb0 : (0 <= b)%Z) by apply Z.log2_nonneg.
  assert (Hx' : n # d == inject_Z n / inject_Z (Z.pos d)) by apply Qmake_Qdiv.
  assert (Hd : 0 < inject_Z (Z.pos d)) by (unfold Qlt; simpl; lia).
  assert (Hlow : 2 ^ (a - b - 1) < n # d).
  { rewrite Hx'. apply Qlt_shift_div_l; [exact Hd|].
    apply Qlt_le_trans with (2 ^ (a - b - 1) * 2 ^ (b + 1)).
    - apply Qmult_lt_l; [apply pow2_pos|].
      rewrite <- pow2_inject by lia. rewrite <- Zlt_Qlt. lia.
    - rewrite <- pow2_plus. replace (a - b - 1 + (b + 1))%Z with a by lia.
      rewrite <- pow2_inject by lia. rewrite <- Zle_Qle. lia. }
  assert (Hup : n # d < 2 ^ (a - b + 1)).
  { rewrite Hx'. apply Qlt_shift_div_r; [exact Hd|].
    apply Qlt_le_trans with (2 ^ (a + 1)).
    - rewrite <- pow2_inject by lia. rewrite <- Zlt_Qlt. lia.
    - replace (a + 1)%Z with (a - b + 1 + b)%Z by lia. rewrite pow2_plus.
      apply Qmult_le_l; [apply pow2_pos|].
      rewrite <- pow2_inject by lia. rewrite <- Zle_Qle. lia. }
  destruct (Qle_bool (2 ^ (a - b)) (n # d)) eqn:E.
  - apply Qle_bool_iff in E. split; [exact E | exact Hup].
  - apply Qle_bool_false in E.
    split; [apply Qlt_le_weak; exact Hlow|].
    replace (a - b - 1 + 1)%Z with (a - b)%Z by lia. exact E.
Qed.

Lemma round_half_even_floor (x : Q) :
  round_half_even x = Qfloor x \/
  (round_half_even x = (Qfloor x + 1)%Z /\ inject_Z (Qfloor x) < x).
Proof.
  unfold round_half_even.
  destruct (Qcompare (x - inject_Z (Qfloor x)) (1 # 2)) eqn:E.
  - apply Qeq_alt in E. destruct (Z.even (Qfloor x)); [by left|].
    right. split; [reflexivity|]. lra.
  - by left.
  - apply Qgt_alt in E. right. split; [reflexivity|]. lra.
Qed.

Lemma round_half_even_le (x : Q) (z : Z) : x <= inject_Z z -> (round_half_even x <= z)%Z.
Proof.
  intros H. pose proof (Qfloor_le x) as Hf.
  destruct (round_half_even_floor x) as [-> | [-> Hlt]].
  - rewrite Zle_Qle. lra.
  - assert (H0 : inject_Z (Qfloor x) < inject_Z z) by lra.
    rewrite <- Zlt_Qlt in H0. lia.
Qed.

Lemma round_half_even_ge (x : Q) (z : Z) : inject_Z z <= x -> (z <= round_half_even x)%Z.
Proof.
  intros H.
  assert (z <= Qfloor x)%Z.
  { rewrite <- (Qfloor_Z z). by apply Qfloor_resp_le. }
  destruct (round_half_even_floor x) as [-> | [-> _]]; lia.
Qed.

Lemma double_of_bounds (m e : Z) :
  (2 ^ 52 <= m < 2 ^ 53)%Z -> 2 ^ e <= double_of m e /\ double_of m e < 2 ^ (e + 1).
Proof.
  intros [H1 H2]. unfold double_of. split.
  - replace e with (52 + (e - 52))%Z at 1 by lia. rewrite pow2_plus.
    apply Qmult_le_compat_r; [|apply Qlt_le_weak, pow2_pos].
    rewrite <- pow2_inject by lia. rewrite <- Zle_Qle. exact H1.
  - replace (e + 1)%Z with (53 + (e - 52))%Z by lia. rewrite pow2_plus.
    apply Qmult_lt_compat_r; [apply pow2_pos|].
    rewrite <- pow2_inject by lia. rewrite <- Zlt_Qlt. exact H2.
Qed.

Lemma round_double_pos_eq (x : Q) :
  0 < x ->
  round_double x
  = inject_Z (round_half_even (x / 2 ^ (ilog2 x - 52))) * 2 ^ (ilog2 x - 52).
Proof.
  intros Hx. unfold round_double.
  assert (E0 : Qeq_bool x 0 = false).
  { destruct (Qeq_bool x 0) eqn:E; [|reflexivity].
    apply Qeq_bool_iff in E. lra. }
  assert (E1 : Qle_bool 0 x = true) by (apply Qle_bool_iff; lra).
  rewrite E0, E1.
  assert (Ha : Qabs x = x).
  { destruct x as [[|p|p] d]; try reflexivity. unfold Qlt in Hx. simpl in Hx. lia. }
  rewrite Ha. reflexivity.
Qed.

Lemma round_double_neg_eq (x : Q) : x < 0 -> round_double x = - round_double (- x).
Proof.
  intros Hx.
  assert (Hx' : 0 < - x) by lra.
  rewrite (round_double_pos_eq (- x) Hx'). unfold round_double.
  assert (E0 : Qeq_bool x 0 = false).
  { destruct (Qeq_bool x 0) eqn:E; [|reflexivity].
    apply Qeq_bool_iff in E. lra. }
  assert (E1 : Qle_bool 0 x = false) by (by apply Qle_bool_false).
  rewrite E0, E1.
  assert (Ha : Qabs x = - x).
  { destruct x as [[|p|p] d]; try reflexivity; unfold Qlt in Hx; simpl in Hx; lia. }
  rewrite Ha. reflexivity.
Qed.

Lemma round_double_zero (x : Q) : x == 0 -> round_double x = 0.
Proof.
  intros Hx. unfold round_double.
  replace (Qeq_bool x 0) with true; [reflexivity|].
  symmetry. by apply Qeq_bool_iff.
Qed.

Lemma scaled_bounds (x : Q) :
  0 < x -> 2 ^ 52 <= x / 2 ^ (ilog2 x - 52) /\ x / 2 ^ (ilog2 x - 52) < 2 ^ 53.
Proof.
  intros Hx. destruct (ilog2_spec x Hx) as [H1 H2].
  pose proof (pow2_pos (ilog2 x - 52)) as Hu.
  split.
  - apply Qle_shift_div_l; [exact Hu|]. rewrite <- pow2_plus.
    replace (52 + (ilog2 x - 52))%Z with (ilog2 x) by lia. exact H1.
  - apply Qlt_shift_div_r; [exact Hu|]. rewrite <- pow2_plus.
    replace (53 + (ilog2 x - 52))%Z with (ilog2 x + 1)%Z by lia. exact H2.
Qed.

Lemma round_double_pos (x : Q) : 0 < x -> 0 < round_double x.
Proof.
  intros Hx. rewrite round_double_pos_eq by exact Hx.
  destruct (scaled_bounds x Hx) as [H1 _].
  assert (H : (2 ^ 52 <= round_half_even (x / 2 ^ (ilog2 x - 52)))%Z).
  { apply round_half_even_ge. rewrite (pow2_inject 52) by lia. exact H1. }
  apply Qmult_lt_0_compat; [|apply pow2_pos].
  change 0 with (inject_Z 0). rewrite <- Zlt_Qlt. lia.
Qed.

Lemma round_double_neg (x : Q) : x < 0 -> round_double x < 0.
Proof.
  intros Hx. rewrite round_double_neg_eq by exact Hx.
  assert (0 < round_double (- x)) by (apply round_double_pos; lra). lra.
Qed.

(** Rounding does not cross a double. *)
Lemma round_double_le (x : Q) (m e : Z) :
  (2 ^ 52 <= m < 2 ^ 53)%Z -> 0 < x -> x <= double_of m e ->
  round_double x <= double_of m e.
Proof.
  intros Hm Hx Hle. rewrite round_double_pos_eq by exact Hx.
  destruct (ilog2_spec x Hx) as [H1 H2].
  destruct (double_of_bounds m e Hm) as [H3 H4].
  destruct (scaled_bounds x Hx) as [H5 H6].
  set (ex := ilog2 x) in *.
  assert (Hex : (ex <= e)%Z).
  { assert (ex < e + 1)%Z; [|lia]. apply pow2_lt_inv. lra. }
  pose proof (pow2_pos (ex - 52)) as Hu.
  destruct (Z.eq_dec ex e) as [->|Hne].
  - unfold double_of. apply Qmult_le_compat_r; [|lra].
    rewrite <- Zle_Qle. apply round_half_even_le.
    apply Qle_shift_div_r; [exact Hu | exact Hle].
  - apply Qle_trans with (2 ^ (ex + 1));
      [|apply Qle_trans with (2 ^ e); [apply pow2_le; lia | exact H3]].
    replace (ex + 1)%Z with (53 + (ex - 52))%Z by lia. rewrite pow2_plus.
    apply Qmult_le_compat_r; [|lra].
    rewrite <- (pow2_inject 53) by lia. rewrite <- Zle_Qle.
    apply round_half_even_le. rewrite (pow2_inject 53) by lia. lra.
Qed.

Lemma round_double_ge (x : Q) (m e : Z) :
  (2 ^ 52 <= m < 2 ^ 53)%Z -> double_of m e <= x -> double_of m e <= round_double x.
Proof.
  intros Hm Hle.
  destruct (double_of_bounds m e Hm) as [H3 H4].
  assert (Hx : 0 < x) by (pose proof (pow2_pos e); lra).
  rewrite round_double_pos_eq by exact Hx.
  destruct (ilog2_spec x Hx) as [H1 H2].
  destruct (scaled_bounds x Hx) as [H5 H6].
  set (ex := ilog2 x) in *.
  assert (Hex : (e <= ex)%Z).
  { assert (e < ex + 1)%Z; [|lia]. apply pow2_lt_inv. lra. }
  pose proof (pow2_pos (ex - 52)) as Hu.
  destruct (Z.eq_dec ex e) as [->|Hne].
  - unfold double_of. apply Qmult_le_compat_r; [|lra].
    rewrite <- Zle_Qle. apply round_half_even_ge.
    apply Qle_shift_div_l; [exact Hu | exact Hle].
  - apply Qle_trans with (2 ^ ex);
      [apply Qle_trans with (2 ^ (e + 1)); [lra | apply pow2_le; lia]|].
    replace ex with (52 + (ex - 52))%Z at 1 by lia. rewrite pow2_plus.
    apply Qmult_le_compat_r; [|lra].
    rewrite <- (pow2_inject 52) by lia. rewrite <- Zle_Qle.
    apply round_half_even_ge. rewrite (pow2_inject 52) by lia. lra.
Qed.

(** A number that rounds to itself is a double. *)
Lemma double_of_fixpoint (r : Q) :
  0 < r -> round_double r == r ->
  exists m, (2 ^ 52 <= m < 2 ^ 53)%Z /\ r == double_of m (ilog2 r).
Proof.
  intros Hr Hfix. rewrite round_double_pos_eq in Hfix by exact Hr.
  destruct (scaled_bounds r Hr) as [H1 H2].
  destruct (ilog2_spec r Hr) as [H3 H4].
  set (m := round_half_even (r / 2 ^ (ilog2 r - 52))) in *.
  exists m. split; [|symmetry; exact Hfix].
  split.
  - apply round_half_even_ge. rewrite (pow2_inject 52) by lia. exact H1.
  - rewrite Zlt_Qlt. rewrite (pow2_inject 53) by lia.
    pose proof (pow2_pos (ilog2 r - 52)) as Hu.
    apply Qmult_lt_r with (2 ^ (ilog2 r - 52)); [exact Hu|].
    rewrite Hfix. rewrite <- pow2_plus.
    replace (53 + (ilog2 r - 52))%Z with (ilog2 r + 1)%Z by lia. exact H4.
Qed.

(** Every integer below [2^53] is a double. *)
Lemma nat_double (n : Z) :
  (0 < n < 2 ^ 53)%Z ->
  exists m e, (2 ^ 52 <= m < 2 ^ 53)%Z /\ (0 <= e <= 52)%Z /\
              inject_Z n == double_of m e /\ 2 ^ e <= inject_Z n.
Proof.
  intros [Hn0 Hn].
  set (e := Z.log2 n).
  assert (He : (2 ^ e <= n < 2 ^ (e + 1))%Z).
  { pose proof (Z.log2_spec n Hn0) as H. fold e in H.
    replace (e + 1)%Z with (Z.succ e) by lia. exact H. }
  assert (He0 : (0 <= e)%Z) by apply Z.log2_nonneg.
  assert (He52 : (e < 53)%Z) by (apply Z.log2_lt_pow2; lia).
  exists (n * 2 ^ (52 - e))%Z, e.
  assert (Hp : (0 < 2 ^ (52 - e))%Z) by (apply Z.pow_pos_nonneg; lia).
  split; [|split; [lia|split]].
  - split.
    + replace (2 ^ 52)%Z with (2 ^ e * 2 ^ (52 - e))%Z
        by (rewrite <- Z.pow_add_r by lia; f_equal; lia).
      apply Z.mul_le_mono_nonneg_r; lia.
    + replace (2 ^ 53)%Z with (2 ^ (e + 1) * 2 ^ (52 - e))%Z
        by (rewrite <- Z.pow_add_r by lia; f_equal; lia).
      apply Z.mul_lt_mono_pos_r; lia.
  - unfold double_of. rewrite inject_Z_mult, (pow2_inject (52 - e)) by lia.
    rewrite <- Qmult_assoc, <- pow2_plus.
    replace (52 - e + (e - 52))%Z with 0%Z by lia.
    change (2 ^ 0) with 1. ring.
  - rewrite <- pow2_inject by lia. rewrite <- Zle_Qle. lia.
Qed.

Lemma round_double_nat (n : Z) :
  (0 <= n < 2 ^ 53)%Z -> round_double (inject_Z n) == inject_Z n.
Proof.
  intros [Hn0 Hn].
  destruct (Z.eq_dec n 0%Z) as [->|Hne]; [reflexivity|].
  destruct (nat_double n ltac:(lia)) as (m & e & Hm & _ & Heq & _).
  assert (Hpos : 0 < inject_Z n).
  { change 0 with (inject_Z 0). rewrite <- Zlt_Qlt. lia. }
  assert (H1 : inject_Z n <= double_of m e) by (rewrite Heq; apply Qle_refl).
  assert (H2 : double_of m e <= inject_Z n) by (rewrite Heq; apply Qle_refl).
  apply Qle_antisym.
  - apply Qle_trans with (double_of m e); [|exact H2].
    apply round_double_le; [exact Hm | exact Hpos | exact H1].
  - apply Qle_trans with (double_of m e); [exact H1|].
    apply round_double_ge; [exact Hm | exact H2].
Qed.

(** The double after an integer [n] below [2^53] is at most
    [n * (1 + 2^-52)], and every number from there on rounds above [n]. *)
Lemma round_double_above_nat (n : Z) (y : Q) :
  (0 < n < 2 ^ 53)%Z -> inject_Z n * (1 + 2 ^ (-52)) <= y ->
  inject_Z n < round_double y.
Proof.
  intros Hn Hy.
  destruct (nat_double n Hn) as (m & e & Hm & He & Heq & Hlow).
  pose proof (pow2_pos (e - 52)) as Hu.
  assert (Hstep : inject_Z n + 2 ^ (e - 52) <= y).
  { eapply Qle_trans; [|exact Hy].
    assert (H : 2 ^ (e - 52) <= inject_Z n * 2 ^ (-52)).
    { replace (e - 52)%Z with (e + -52)%Z by lia. rewrite pow2_plus.
      apply Qmult_le_compat_r; [exact Hlow | apply Qlt_le_weak, pow2_pos]. }
    lra. }
  destruct (Z_lt_le_dec (m + 1) (2 ^ 53)) as [Hlt|Hge].
  - assert (Hz : inject_Z n + 2 ^ (e - 52) == double_of (m + 1) e).
    { rewrite Heq. unfold double_of. rewrite inject_Z_plus. ring. }
    apply Qlt_le_trans with (double_of (m + 1) e); [rewrite <- Hz; lra|].
    apply round_double_ge; [lia | rewrite <- Hz; exact Hstep].
  - assert (Hm1 : m = (2 ^ 53 - 1)%Z) by lia.
    assert (Hz : inject_Z n + 2 ^ (e - 52) == double_of (2 ^ 52) (e + 1)).
    { rewrite Heq. unfold double_of. rewrite Hm1.
      replace (e + 1 - 52)%Z with (1 + (e - 52))%Z by lia. rewrite pow2_plus.
      change (2 ^ 1) with 2.
      change (inject_Z (2 ^ 53 - 1)) with (inject_Z (2 ^ 53) - 1).
      change (inject_Z (2 ^ 53)) with (2 * inject_Z (2 ^ 52)). ring. }
    apply Qlt_le_trans with (double_of (2 ^ 52) (e + 1)); [rewrite <- Hz; lra|].
    apply round_double_ge; [lia | rewrite <- Hz; exact Hstep].
Qed.

(** The doubles above 1 start at [1 + 2^-52]. *)
Lemma double_above_one (r : Q) :
  round_double r == r -> 1 < r -> 1 + 2 ^ (-52) <= r.
Proof.
  intros Hfix Hr.
  assert (Hpos : 0 < r) by lra.
  destruct (double_of_fixpoint r Hpos Hfix) as (m & Hm & Heq).
  destruct (ilog2_spec r Hpos) as [H1 H2].
  set (e := ilog2 r) in *.
  assert (He : (0 <= e)%Z).
  { assert (0 < e + 1)%Z; [|lia]. apply pow2_lt_inv. change (2 ^ 0) with 1. lra. }
  destruct (Z.eq_dec e 0%Z) as [E0|Hne].
  - rewrite E0 in Heq. unfold double_of in Heq. change (0 - 52)%Z with (-52)%Z in Heq.
    pose proof (pow2_pos (-52)) as Hu.
    assert (Hm' : (2 ^ 52 + 1 <= m)%Z).
    { assert (2 ^ 52 < m)%Z; [|lia]. rewrite Zlt_Qlt.
      apply Qmult_lt_r with (2 ^ (-52)); [exact Hu|].
      rewrite <- Heq. rewrite (pow2_inject 52) by lia. rewrite <- pow2_plus.
      change (2 ^ (52 + -52)) with 1. exact Hr. }
    rewrite Heq. rewrite Zle_Qle in Hm'. rewrite inject_Z_plus in Hm'.
    rewrite (pow2_inject 52) in Hm' by lia.
    assert (H : (2 ^ 52 + 1) * 2 ^ (-52) <= inject_Z m * 2 ^ (-52))
      by (apply Qmult_le_compat_r; [exact Hm' | lra]).
    assert (H52 : 2 ^ 52 * 2 ^ (-52) == 1) by (rewrite <- pow2_plus; reflexivity).
    lra.
  - assert (2 ^ 1 <= 2 ^ e) by (apply pow2_le; lia).
    change (2 ^ 1) with 2 in H.
    assert (2 ^ (-52) <= 1) by (change 1 with (2 ^ 0); apply pow2_le; lia).
    lra.
Qed.

(** *** The rounded product [n * rate] *)

Lemma float_mul_zero (n : nat) (r : Q) : n = 0%nat \/ r == 0 -> float_mul n r = 0.
Proof.
  intros H. unfold float_mul. apply round_double_zero.
  destruct H as [-> | Hr]; [reflexivity | rewrite Hr; ring].
Qed.

Lemma float_mul_unit (n : nat) (r : Q) :
  (0 < n)%nat -> (Z.of_nat n < 2 ^ 53)%Z -> 0 < r -> r <= 1 ->
  0 < float_mul n r /\ float_mul n r <= inject_Z (Z.of_nat n).
Proof.
  intros Hn Hsz Hr0 Hr1. unfold float_mul.
  pose proof (round_double_nat (Z.of_nat n) ltac:(lia)) as Hfl.
  assert (Hpos : 0 < inject_Z (Z.of_nat n)).
  { change 0 with (inject_Z 0). rewrite <- Zlt_Qlt. lia. }
  assert (Hy0 : 0 < round_double (inject_Z (Z.of_nat n)) * r)
    by (rewrite Hfl; by apply Qmult_lt_0_compat).
  split; [by apply round_double_pos|].
  destruct (nat_double (Z.of_nat n) ltac:(lia)) as (m & e & Hm & _ & Heq & _).
  assert (Hle : round_double (inject_Z (Z.of_nat n)) * r <= double_of m e).
  { rewrite <- Heq, Hfl.
    apply Qle_trans with (inject_Z (Z.of_nat n) * 1); [|rewrite Qmult_1_r; apply Qle_refl].
    apply Qmult_le_l; assumption. }
  apply Qle_trans with (double_of m e); [|rewrite Heq; apply Qle_refl].
  apply round_double_le; [exact Hm | exact Hy0 | exact Hle].
Qed.

Lemma float_mul_above (n : nat) (r : Q) :
  (0 < n)%nat -> (Z.of_nat n < 2 ^ 53)%Z -> 1 + 2 ^ (-52) <= r ->
  inject_Z (Z.of_nat n) < float_mul n r.
Proof.
  intros Hn Hsz Hr. unfold float_mul.
  pose proof (round_double_nat (Z.of_nat n) ltac:(lia)) as Hfl.
  assert (Hpos : 0 < inject_Z (Z.of_nat n)).
  { change 0 with (inject_Z 0). rewrite <- Zlt_Qlt. lia. }
  apply round_double_above_nat; [lia|].
  rewrite Hfl. apply Qmult_le_l; assumption.
Qed.

Lemma float_mul_nonpos (n : nat) (r : Q) : r <= 0 -> float_mul n r <= 0.
Proof.
  intros Hr. unfold float_mul.
  assert (Hfl : 0 <= round_double (inject_Z (Z.of_nat n))).
  { destruct n as [|n]; [apply Qle_refl|].
    apply Qlt_le_weak, round_double_pos.
    change 0 with (inject_Z 0). rewrite <- Zlt_Qlt. lia. }
  set (a := round_double (inject_Z (Z.of_nat n))) in *.
  assert (Hy : a * r <= 0).
  { nra. }
  destruct (Qlt_le_dec (a * r) 0) as [Hneg|Hz].
  - apply Qlt_le_weak. by apply round_double_neg.
  - rewrite round_double_zero; [apply Qle_refl | by apply Qle_antisym].
Qed.

Lemma float_finite (p : Q) (n : Z) :
  0 <= p -> p <= inject_Z n -> (n < 2 ^ 53)%Z -> float_is_inf p = false.
Proof.
  intros H0 Hp Hn. unfold float_is_inf. apply Qle_bool_false.
  rewrite Qabs_pos by exact H0.
  eapply Qle_lt_trans; [exact Hp|].
  apply Qlt_trans with (2 ^ 53).
  - rewrite <- (pow2_inject 53) by lia. by rewrite <- Zlt_Qlt.
  - apply pow2_lt. lia.
Qed.

End Doubles.

(** ** The selection gate *)

Section Gate.

Import Torch Criterion Spec.
Local Open Scope Q_scope.

(** With fewer than [2^53] entries and a rate that is a double, the
    rounded product [len(x) * kd_rate] is finite and its ceiling a rank of
    the tensor exactly for the rates in [(0, 1]]. *)
Lemma ceil_mul_unit (n : nat) (r : Q) :
  (0 < n)%nat -> (Z.of_nat n < 2 ^ 53)%Z -> round_double r == r ->
  (0 < r /\ r <= 1) <->
  (float_is_inf (float_mul n r) = false /\ (1 <= ceil_mul n r <= Z.of_nat n)%Z).
Proof.
  intros Hn Hsz Hfix. unfold ceil_mul.
  pose proof (Qle_ceiling (float_mul n r)) as Hup.
  pose proof (Qceiling_lt (float_mul n r)) as Hlo.
  split.
  - intros [Hr0 Hr1].
    destruct (float_mul_unit n r Hn Hsz Hr0 Hr1) as [Hp0 HpN].
    split; [apply (float_finite _ (Z.of_nat n)); [lra | exact HpN | exact Hsz]|].
    split.
    + assert (H0 : inject_Z 0 < inject_Z (Qceiling (float_mul n r)))
        by (change (inject_Z 0) with 0; lra).
      rewrite <- Zlt_Qlt in H0. lia.
    + rewrite <- (Qceiling_Z (Z.of_nat n)). by apply Qceiling_resp_le.
  - intros [_ [Hk1 HkN]]. split.
    + destruct (Qlt_le_dec 0 r) as [Hr|Hr]; [exact Hr | exfalso].
      pose proof (float_mul_nonpos n r Hr) as Hp.
      assert (H0 : inject_Z (Qceiling (float_mul n r) - 1) < inject_Z 0)
        by (change (inject_Z 0) with 0; lra).
      rewrite <- Zlt_Qlt in H0. lia.
    + destruct (Qlt_le_dec 1 r) as [Hr|Hr]; [exfalso | exact Hr].
      pose proof (float_mul_above n r Hn Hsz (double_above_one r Hfix Hr)) as Hp.
      assert (H0 : inject_Z (Z.of_nat n) < inject_Z (Qceiling (float_mul n r))) by lra.
      rewrite <- Zlt_Qlt in H0. lia.
Qed.

Lemma filter_above_none (a : Q) (s : list Q) :
  Forall (fun b => b <= a) s -> List.filter (fun y => Qltb a y) s = [].
Proof.
  induction 1 as [|b s Hb Hs IH]; simpl; [reflexivity|].
  unfold Qltb at 1.
  replace (Qle_bool b a) with true by (symmetry; by apply Qle_bool_iff).
  exact IH.
Qed.

(** In a descending tensor, the entry at position k has at least k + 1
    entries at or above it and at most k entries strictly above it. *)
Lemma descending_rank (s : list Q) :
  descending s ->
  forall k g, nth_error s k = Some g ->
    (S k <= length (List.filter (fun y => Qle_bool g y) s))%nat /\
    (length (List.filter (fun y => Qltb g y) s) <= k)%nat.
Proof.
  unfold descending.
  induction 1 as [|a s Hs IH Ha]; intros k g Hg; [destruct k; discriminate|].
  destruct k as [|k]; simpl in Hg.
  - injection Hg as <-. simpl.
    replace (Qle_bool a a) with true by (symmetry; apply Qle_bool_iff; lra).
    unfold Qltb at 1.
    replace (Qle_bool a a) with true by (symmetry; apply Qle_bool_iff; lra).
    simpl. rewrite (filter_above_none a s Ha). simpl. lia.
  - destruct (IH k g Hg) as [H1 H2].
    assert (Hin : In g s) by (eapply nth_error_In; eauto).
    rewrite List.Forall_forall in Ha. specialize (Ha g Hin). simpl in Ha.
    simpl.
    replace (Qle_bool g a) with true by (symmetry; by apply Qle_bool_iff).
    destruct (Qltb g a); simpl; lia.
Qed.

Lemma loss_gate_finite (x : list Q) (r g : Q) :
  loss_gate x (Some r) = ok g -> float_is_inf (float_mul (length x) r) = false.
Proof.
  unfold loss_gate. cbn [not_none bind ok].
  by destruct (float_is_inf (float_mul (length x) r)).
Qed.

Lemma loss_gate_ok_inv (x : list Q) (r g : Q) :
  loss_gate x (Some r) = ok g ->
  exists k, ceil_mul (length x) r = Z.of_nat (S k) /\ (S k <= length x)%nat /\
            nth_error (sort_desc x) k = Some g.
Proof.
  unfold loss_gate. cbn [not_none bind ok].
  destruct (float_is_inf (float_mul (length x) r)); [discriminate|].
  unfold topk.
  set (c := ceil_mul (length x) r).
  destruct ((c <? 0)%Z || (Z.of_nat (length x) <? c)%Z)%bool eqn:E; [discriminate|].
  apply orb_false_iff in E as [E1 E2].
  apply Z.ltb_ge in E1. apply Z.ltb_ge in E2. cbn [bind ok].
  assert (Hlen : length (sort_desc x) = length x)
    by (apply Permutation_length, sort_desc_perm).
  destruct (Z.to_nat c) as [|k] eqn:Ek.
  - simpl. discriminate.
  - intros H. exists k. split; [lia|]. split; [lia|].
    destruct (nth_error (sort_desc x) k) as [g'|] eqn:En.
    + rewrite (item_last_firstn _ _ _ En) in H. by injection H as ->.
    + apply nth_error_None in En. lia.
Qed.

(** X7. The gate [x.topk(math.ceil(len(x) * kd_rate))[0][-1]], with the
    product taken as the code takes it, in double arithmetic, on a tensor of
    fewer than [2^53] entries and with a rate that is a double: the gate
    exists exactly when the tensor is not empty and [0 < kd_rate <= 1].  It
    is then an entry of the tensor, with at least [ceil_mul (len x) kd_rate]
    entries at or above it and fewer than that strictly above it, where
    [ceil_mul] is the ceiling of the rounded product (8 and not 7 for 25
    entries at the double 0.28).  On an empty tensor and with [kd_rate = 0]
    the code raises [IndexError]; with [kd_rate > 1] [RuntimeError], or
    [OverflowError] when the product is infinite; with [kd_rate] unset
    [TypeError]. *)
Theorem loss_gate_defined_iff (x : list Q) (r : Q) :
  (Z.of_nat (length x) < 2 ^ 53)%Z ->
  round_double r == r ->
  ((exists g, loss_gate x (Some r) = ok g) <-> x <> [] /\ 0 < r /\ r <= 1) /\
  (forall g, loss_gate x (Some r) = ok g ->
     In g x /\
     (ceil_mul (length x) r
      <= Z.of_nat (length (List.filter (fun y => Qle_bool g y) x)))%Z /\
     (Z.of_nat (length (List.filter (fun y => Qltb g y) x))
      < ceil_mul (length x) r)%Z) /\
  (x = [] \/ r == 0 -> loss_gate x (Some r) = raise IndexError) /\
  (x <> [] -> 1 < r ->
   loss_gate x (Some r)
   = raise (if float_is_inf (float_mul (length x) r)
            then OverflowError else RuntimeError)) /\
  loss_gate x None = raise TypeError.
Proof.
  intros Hsz Hfix.
  split; [|split; [|split; [|split]]].
  - split.
    + intros (g & Hg). pose proof (loss_gate_finite _ _ _ Hg) as Hfin.
      apply loss_gate_ok_inv in Hg as (k & Hc & Hk & _).
      assert (Hn : (0 < length x)%nat) by lia.
      split; [intros ->; simpl in Hn; lia|].
      apply (ceil_mul_unit (length x) r Hn Hsz Hfix). split; [exact Hfin | lia].
    + intros (Hne & Hr).
      assert (Hn : (0 < length x)%nat) by (destruct x; [congruence | simpl; lia]).
      apply (ceil_mul_unit (length x) r Hn Hsz Hfix) in Hr as [Hfin Hr].
      destruct (loss_gate_kth x r (Z.to_nat (ceil_mul (length x) r) - 1))
        as (g & _ & Hg); [exact Hfin | lia | lia |].
      by exists g.
  - intros g Hg. apply loss_gate_ok_inv in Hg as (k & Hc & Hk & Hn).
    destruct (descending_rank _ (sort_desc_sorted x) k g Hn) as [H1 H2].
    rewrite <- (filter_length_perm _ x (sort_desc x)) in H1
      by (symmetry; apply sort_desc_perm).
    rewrite <- (filter_length_perm _ x (sort_desc x)) in H2
      by (symmetry; apply sort_desc_perm).
    split; [|lia].
    apply (Permutation_in g (sort_desc_perm x)). eapply nth_error_In; eauto.
  - intros H.
    assert (Hz : float_mul (length x) r = 0).
    { apply float_mul_zero. destruct H as [-> | Hr]; [by left | by right]. }
    unfold loss_gate, ceil_mul. cbn [not_none bind ok]. rewrite Hz.
    change (float_is_inf 0) with false. change (Qceiling 0) with 0%Z.
    unfold topk.
    replace (Z.of_nat (length x) <? 0)%Z with false
      by (symmetry; apply Z.ltb_ge; lia).
    reflexivity.
  - intros Hne Hr.
    assert (Hn : (0 < length x)%nat) by (destruct x; [congruence | simpl; lia]).
    unfold loss_gate. cbn [not_none bind ok].
    destruct (float_is_inf (float_mul (length x) r)); [reflexivity|].
    pose proof (float_mul_above _ r Hn Hsz (double_above_one r Hfix Hr)) as Hp.
    pose proof (Qle_ceiling (float_mul (length x) r)) as Hup.
    assert (Hk : (Z.of_nat (length x) < ceil_mul (length x) r)%Z).
    { unfold ceil_mul. rewrite Zlt_Qlt. lra. }
    unfold topk.
    replace (Z.of_nat (length x) <? ceil_mul (length x) r)%Z with true
      by (symmetry; by apply Z.ltb_lt).
    rewrite orb_true_r. reflexivity.
  - reflexivity.
Qed.

End Gate.

Lemma loss_gate_defined_iff_witness :
  let x := map (fun n => inject_Z (Z.of_nat n)) (seq 1 25) in
  let r := Runs.float_literal (28 # 100) in
  (Torch.ceil_mul 25 r = 8%Z /\ Qceiling (inject_Z 25 * (28 # 100)) = 7%Z /\
   Torch.ceil_mul 10 (Runs.float_literal (1 # 10)) = 1%Z /\
   Qceiling (inject_Z 10 * Runs.float_literal (1 # 10)) = 2%Z /\
   Criterion.loss_gate x (Some r) = ok 18%Q) /\
  ((exists g, Criterion.loss_gate x (Some r) = ok g) <->
   x <> [] /\ (0 < r)%Q /\ (r <= 1)%Q) /\
  (forall g, Criterion.loss_gate x (Some r) = ok g ->
     In g x /\
     (Torch.ceil_mul (length x) r
      <= Z.of_nat (length (List.filter (fun y => Qle_bool g y) x)))%Z /\
     (Z.of_nat (length (List.filter (fun y => Torch.Qltb g y) x))
      < Torch.ceil_mul (length x) r)%Z) /\
  (x = [] \/ (r == 0)%Q -> Criterion.loss_gate x (Some r) = raise IndexError) /\
  (x <> [] -> (1 < r)%Q ->
   Criterion.loss_gate x (Some r)
   = raise (if Torch.float_is_inf (Torch.float_mul (length x) r)
            then OverflowError else RuntimeError)) /\
  Criterion.loss_gate x None = raise TypeError.
Proof.
  intros x r. split.
  - repeat split; vm_compute; reflexivity.
  - apply (loss_gate_defined_iff x r); vm_compute; reflexivity.
Defined.

(** ** [label_smoothed_nll_loss]: reduction, definedness, sign *)

Section LabelSmoothingMore.

Import Torch Criterion Spec.
Local Open Scope Q_scope.

Lemma mapM_raise {A B} (f : A -> result B) (e : exn) (l : list A) :
  Forall (fun a => forall e', f a = raise e' -> e' = e) l ->
  Exists (fun a => f a = raise e) l ->
  mapM f l = raise e.
Proof.
  induction 1 as [|a l Ha Hl IH]; intros Hex; [inversion Hex|].
  simpl. destruct (f a) as [e'|b] eqn:E.
  - simpl. by rewrite (Ha e' eq_refl).
  - simpl. inversion Hex as [? ? Hx|? ? Hx]; subst; [unfold raise in Hx; congruence|].
    by rewrite (IH Hx).
Qed.

Lemma zip_same_inv {A B C} (f : A -> B -> C) (x : list A) (y : list B) r :
  zip_same f x y = ok r ->
  length x = length y /\ r = map (fun p => f (fst p) (snd p)) (combine x y).
Proof.
  unfold zip_same. destruct (Nat.eqb_spec (length x) (length y)); [|discriminate].
  intros H. injection H as <-. auto.
Qed.

Lemma zip_same_raise {A B C} (f : A -> B -> C) (x : list A) (y : list B) :
  length x <> length y -> zip_same f x y = raise RuntimeError.
Proof.
  intros H. unfold zip_same. by destruct (Nat.eqb_spec (length x) (length y)).
Qed.

Lemma mapM_ok_each {A B} (f : A -> result B) (l : list A) (r : list B) :
  mapM f l = ok r -> Forall (fun a => exists b, f a = ok b) l /\ length r = length l.
Proof.
  revert r. induction l as [|a l IH]; intros r H; simpl in H.
  - injection H as <-. split; [constructor | reflexivity].
  - bind_inv H as Ea. bind_inv H as El. injection H as <-.
    destruct (IH _ eq_refl) as [Hall Hlen].
    split; [constructor; [by eexists | exact Hall] | simpl; lia].
Qed.

Lemma in_combine_snd {A B} (a : list A) (b : list B) (t : B) :
  (length b <= length a)%nat -> In t b -> exists r, In (r, t) (combine a b).
Proof.
  revert b. induction a as [|x a IH]; intros [|y b] Hlen Hin;
    try contradiction; simpl in Hlen; [lia|].
  destruct Hin as [->|Hin].
  - exists x. by left.
  - destruct (IH b) as (r & Hr); [lia | exact Hin |].
    exists r. by right.
Qed.

(** What [masked_fill] and a broadcast operation need, return and raise. *)
Lemma masked_fill_length (x : list Q) (mask : list bool) (v : Q) (r : list Q) :
  masked_fill x mask v = ok r -> length r = length x.
Proof.
  unfold masked_fill. intros H.
  destruct mask as [|m [|m' mask]].
  - apply zip_same_inv in H as [Hl ->]. rewrite length_map, length_combine. lia.
  - injection H as <-. by rewrite length_map.
  - apply zip_same_inv in H as [Hl ->]. rewrite length_map, length_combine. lia.
Qed.

Lemma masked_fill_raise (x : list Q) (mask : list bool) (v : Q) :
  length mask <> 1%nat -> length x <> length mask ->
  masked_fill x mask v = raise RuntimeError.
Proof.
  unfold masked_fill. intros H1 H2.
  destruct mask as [|m [|m' mask]]; [|simpl in H1; lia|]; by rewrite zip_same_raise.
Qed.

Lemma masked_fill_ok (x : list Q) (mask : list bool) (v : Q) :
  length mask = 1%nat \/ length x = length mask ->
  exists r, masked_fill x mask v = ok r.
Proof.
  intros H. destruct (Nat.eq_dec (length x) (length mask)) as [E|E].
  - rewrite masked_fill_same by exact E. by eexists.
  - destruct H as [H|H]; [|contradiction].
    destruct mask as [|m [|m' mask]]; try discriminate H.
    unfold masked_fill. by eexists.
Qed.

Lemma broadcast_ok (f : Q -> Q -> Q) (v w : list Q) :
  length v = 1%nat \/ length w = 1%nat \/ length v = length w ->
  exists r, broadcast f v w = ok r.
Proof.
  intros H. destruct (Nat.eq_dec (length v) (length w)) as [E|E].
  - rewrite broadcast_same by exact E. by eexists.
  - unfold broadcast.
    destruct v as [|a [|a' v]], w as [|b [|b' w]]; simpl in *;
      try (by eexists); exfalso; lia.
Qed.

Lemma broadcast_raise (f : Q -> Q -> Q) (v w : list Q) :
  length v <> 1%nat -> length w <> 1%nat -> length v <> length w ->
  broadcast f v w = raise RuntimeError.
Proof.
  intros H1 H2 H3. unfold broadcast.
  destruct v as [|a [|a' v]], w as [|b [|b' w]]; simpl in *; try lia;
    by rewrite zip_same_raise.
Qed.

(** What [gather_last] needs, returns and raises: no more index entries
    than rows, each of them a column of the tensor. *)
Lemma gather_last_inv (x : tensor2 Q) (index : list Z) (picked : list Q) :
  gather_last x index = ok picked ->
  (length index <= length (rows x))%nat /\
  Forall (fun t => (0 <= t < Z.of_nat (ncols x))%Z) index /\
  length picked = length index.
Proof.
  unfold gather_last. intros H.
  destruct (Nat.ltb_spec (length (rows x)) (length index)) as [Hlt|Hle];
    [discriminate H|].
  apply mapM_ok_each in H as [Hall Hl].
  rewrite length_combine in Hl.
  split; [exact Hle|]. split; [|lia].
  apply List.Forall_forall. intros t Ht.
  destruct (in_combine_snd (rows x) index t Hle Ht) as (row & Hin).
  rewrite List.Forall_forall in Hall.
  destruct (Hall (row, t) Hin) as (v & Hv).
  simpl in Hv.
  destruct ((0 <=? t)%Z && (t <? Z.of_nat (ncols x))%Z)%bool eqn:Eb; [|discriminate].
  apply andb_true_iff in Eb as [E1 E2].
  apply Z.leb_le in E1. apply Z.ltb_lt in E2. lia.
Qed.

Lemma gather_last_ok_le (x : tensor2 Q) (index : list Z) :
  (length index <= length (rows x))%nat ->
  Forall (fun row => length row = ncols x) (rows x) ->
  Forall (fun t => (0 <= t < Z.of_nat (ncols x))%Z) index ->
  gather_last x index
  = ok (map (fun p : list Q * Z => nth (Z.to_nat (snd p)) (fst p) 0)
            (combine (rows x) index)).
Proof.
  intros Hlen Hrows Htgt.
  unfold gather_last.
  replace (length (rows x) <? length index)%nat with false
    by (symmetry; apply Nat.ltb_ge; lia).
  apply mapM_ok. intros [row t] Hin. simpl.
  assert (Hl : length row = ncols x).
  { rewrite List.Forall_forall in Hrows. apply Hrows. eapply in_combine_l; eauto. }
  assert (Hb : (0 <= t < Z.of_nat (ncols x))%Z).
  { rewrite List.Forall_forall in Htgt. apply Htgt. eapply in_combine_r; eauto. }
  replace ((0 <=? t)%Z && (t <? Z.of_nat (ncols x))%Z)%bool with true
    by (symmetry; apply andb_true_iff; split; [apply Z.leb_le | apply Z.ltb_lt]; lia).
  destruct (nth_error row (Z.to_nat t)) as [v|] eqn:E.
  - f_equal. symmetry. by apply nth_error_nth.
  - apply nth_error_None in E. lia.
Qed.

Lemma gather_last_ok (x : tensor2 Q) (index : list Z) :
  length (rows x) = length index ->
  Forall (fun row => length row = ncols x) (rows x) ->
  Forall (fun t => (0 <= t < Z.of_nat (ncols x))%Z) index ->
  gather_last x index
  = ok (map (fun p : list Q * Z => nth (Z.to_nat (snd p)) (fst p) 0)
            (combine (rows x) index)).
Proof. intros Hlen. apply gather_last_ok_le. lia. Qed.

Lemma gather_last_raise (x : tensor2 Q) (index : list Z) :
  (length (rows x) < length index)%nat \/
  Exists (fun t => ~ (0 <= t < Z.of_nat (ncols x))%Z) index ->
  gather_last x index = raise RuntimeError.
Proof.
  intros H. unfold gather_last.
  destruct (Nat.ltb_spec (length (rows x)) (length index)) as [Hlt|Hle];
    [reflexivity|].
  destruct H as [H|H]; [lia|].
  apply mapM_raise.
  - apply List.Forall_forall. intros [row t] _ e'. simpl.
    destruct ((0 <=? t)%Z && (t <? Z.of_nat (ncols x))%Z)%bool;
      [destruct (nth_error row (Z.to_nat t))|]; unfold raise, ok; congruence.
  - apply List.Exists_exists in H as (t & Ht & Hbad).
    destruct (in_combine_snd (rows x) index t Hle Ht) as (row & Hin).
    apply List.Exists_exists. exists (row, t). split; [exact Hin|].
    simpl.
    destruct ((0 <=? t)%Z && (t <? Z.of_nat (ncols x))%Z)%bool eqn:Eb; [|reflexivity].
    apply andb_true_iff in Eb as [E1 E2].
    apply Z.leb_le in E1. apply Z.ltb_lt in E2. lia.
Qed.

Lemma tsum_lincomb (c d : Q) (a b : list Q) :
  length a = length b ->
  tsum (map (fun p => fst p + snd p) (combine (map (Qmult c) a) (map (Qmult d) b)))
  == c * tsum a + d * tsum b.
Proof.
  revert b. induction a as [|x a IH]; intros [|y b] H; try discriminate; simpl.
  - ring.
  - rewrite IH by (simpl in H; lia). ring.
Qed.

(** The masking step of [label_smoothed_nll_loss]: the mask has the size of
    the target, the NLL that of the gathered entries and the smoothing term
    one entry per row. *)
Lemma masked_part_cases (lprobs : tensor2 Q) (target : list Z) (picked : list Q)
    (ignore_index : option Z) :
  length picked = length target ->
  (ignore_index = None \/ length target = length (rows lprobs) \/ length target = 1%nat ->
   exists nllv smoothv,
     match ignore_index with
     | Some ignore_index =>
         let pad_mask := map (fun t => (t =? ignore_index)%Z) target in
         let! n := masked_fill (map Qopp picked) pad_mask 0 in
         let! s := masked_fill (map (fun row => - tsum row) (rows lprobs)) pad_mask 0 in
         ok (n, s)
     | None => ok (map Qopp picked, map (fun row => - tsum row) (rows lprobs))
     end = ok (nllv, smoothv) /\
     length nllv = length target /\ length smoothv = length (rows lprobs)) /\
  (~ (ignore_index = None \/ length target = length (rows lprobs) \/
      length target = 1%nat) ->
   match ignore_index with
   | Some ignore_index =>
       let pad_mask := map (fun t => (t =? ignore_index)%Z) target in
       let! n := masked_fill (map Qopp picked) pad_mask 0 in
       let! s := masked_fill (map (fun row => - tsum row) (rows lprobs)) pad_mask 0 in
       ok (n, s)
   | None => ok (map Qopp picked, map (fun row => - tsum row) (rows lprobs))
   end = raise RuntimeError).
Proof.
  intros Hp. destruct ignore_index as [i|].
  - cbn zeta.
    rewrite (masked_fill_same (map Qopp picked)) by (rewrite !length_map; lia).
    cbn [bind ok]. split.
    + intros H.
      destruct (masked_fill_ok (map (fun row => - tsum row) (rows lprobs))
                  (map (fun t => (t =? i)%Z) target) 0) as (s & Es).
      { rewrite !length_map. destruct H as [H|[H|H]]; [discriminate | by right | by left]. }
      rewrite Es. cbn [bind ok]. eexists _, _. split; [reflexivity|].
      apply masked_fill_length in Es.
      rewrite Es, !length_map, length_combine, !length_map. lia.
    + intros H. rewrite masked_fill_raise; [reflexivity | |]; rewrite !length_map; lia.
  - split; [|intros H; exfalso; apply H; by left].
    intros _. eexists _, _. split; [reflexivity|]. rewrite !length_map. lia.
Qed.

Lemma masked_part_inv (lprobs : tensor2 Q) (target : list Z) (picked : list Q)
    (ignore_index : option Z) (nllv smoothv : list Q) :
  match ignore_index with
  | Some ignore_index =>
      let pad_mask := map (fun t => (t =? ignore_index)%Z) target in
      let! n := masked_fill (map Qopp picked) pad_mask 0 in
      let! s := masked_fill (map (fun row => - tsum row) (rows lprobs)) pad_mask 0 in
      ok (n, s)
  | None => ok (map Qopp picked, map (fun row => - tsum row) (rows lprobs))
  end = ok (nllv, smoothv) ->
  length nllv = length picked /\ length smoothv = length (rows lprobs).
Proof.
  destruct ignore_index as [i|]; cbn zeta; intros H.
  - bind_inv H as En. bind_inv H as Es. injection H as <- <-.
    apply masked_fill_length in En, Es. by rewrite En, Es, !length_map.
  - injection H as <- <-. by rewrite !length_map.
Qed.

(** X8. Whenever [label_smoothed_nll_loss] returns per-token values
    ([reduce=False]), the same call with [reduce=True] returns too; its NLL
    is the sum of the per-token NLL values and, when there are as many
    targets as rows, its loss is the sum of the per-token losses.  (With
    fewer targets than rows the per-token NLL is broadcast against the
    smoothing term and the two sums differ.) *)
Theorem reduced_is_sum_of_unreduced
    (lprobs : tensor2 Q) (target : list Z) (epsilon : Q) (ignore_index : option Z)
    (loss nll_loss : tval) :
  label_smoothed_nll_loss lprobs target epsilon ignore_index false = ok (loss, nll_loss) ->
  exists L N,
    label_smoothed_nll_loss lprobs target epsilon ignore_index true
      = ok (Scalar L, Scalar N) /\
    N = tval_sum nll_loss /\
    (length (rows lprobs) = length target -> L == tval_sum loss).
Proof.
  unfold label_smoothed_nll_loss. intros H.
  bind_inv H as Eg. bind_inv H as Em. destruct p as [nllv smoothv].
  destruct (Z.of_nat (ncols lprobs) - 1 =? 0)%Z; [discriminate|].
  cbn [tval_op bind ok] in H. bind_inv H as Ez. injection H as <- <-.
  bind_inv Ez as Ez2. injection Ez as <-.
  apply gather_last_inv in Eg as (_ & _ & Hl).
  apply masked_part_inv in Em as Hlen. destruct Hlen as [Hn Hs].
  cbn [bind ok]. rewrite Em. cbn [bind ok tval_op].
  eexists _, _. split; [reflexivity|]. split; [reflexivity|].
  intros Hlen.
  rewrite broadcast_same in Ez2 by (rewrite !length_map; lia).
  injection Ez2 as <-.
  simpl. rewrite tsum_lincomb by lia. reflexivity.
Qed.

(** X9. On a log-probability tensor of shape (N, V) and M targets,
    [label_smoothed_nll_loss] returns a result exactly when [gather] accepts
    the index (M <= N and every target, those equal to the padding index
    included, a class index in [0, V)), the padding mask fits (no
    [ignore_index], or M = N, or M = 1), V is not 1, and the two terms can be
    added (reduced, or M = N, M = 1 or N = 1).  With more targets than rows
    or a target out of range it raises [RuntimeError], as it does when the
    mask does not fit; then with V = 1 [ZeroDivisionError]; then
    [RuntimeError] when the terms cannot be added. *)
Theorem label_smoothed_nll_loss_returns_iff
    (lprobs : tensor2 Q) (target : list Z) (epsilon : Q) (ignore_index : option Z)
    (reduce : bool) :
  Forall (fun row => length row = ncols lprobs) (rows lprobs) ->
  let N := length (rows lprobs) in
  let M := length target in
  let V := ncols lprobs in
  let gathers := (M <= N)%nat /\ Forall (fun t => (0 <= t < Z.of_nat V)%Z) target in
  let masks := ignore_index = None \/ M = N \/ M = 1%nat in
  let adds := reduce = true \/ M = N \/ M = 1%nat \/ N = 1%nat in
  let run := label_smoothed_nll_loss lprobs target epsilon ignore_index reduce in
  ((exists r, run = ok r) <-> gathers /\ masks /\ V <> 1%nat /\ adds) /\
  ((N < M)%nat \/ Exists (fun t => ~ (0 <= t < Z.of_nat V)%Z) target ->
   run = raise RuntimeError) /\
  (gathers -> ~ masks -> run = raise RuntimeError) /\
  (gathers -> masks -> V = 1%nat -> run = raise ZeroDivisionError) /\
  (gathers -> masks -> V <> 1%nat -> ~ adds -> run = raise RuntimeError).
Proof.
  intros Hrows N M V gathers masks adds run.
  assert (Hmasks : masks \/ ~ masks).
  { unfold masks. destruct ignore_index as [i|]; [|left; by left].
    destruct (Nat.eq_dec M N) as [E|E]; [left; right; by left|].
    destruct (Nat.eq_dec M 1%nat) as [E1|E1]; [left; right; by right|].
    right. intros [H|[H|H]]; [discriminate | contradiction | contradiction]. }
  assert (Hadds : adds \/ ~ adds).
  { unfold adds. destruct reduce; [left; by left|].
    destruct (Nat.eq_dec M N) as [E|E]; [left; right; by left|].
    destruct (Nat.eq_dec M 1%nat) as [E1|E1]; [left; right; right; by left|].
    destruct (Nat.eq_dec N 1%nat) as [E2|E2]; [left; right; right; by right|].
    right. intros [H|[H|[H|H]]]; [discriminate | contradiction..]. }
  assert (Hrun : gathers ->
            (~ masks -> run = raise RuntimeError) /\
            (masks -> V = 1%nat -> run = raise ZeroDivisionError) /\
            (masks -> V <> 1%nat -> ~ adds -> run = raise RuntimeError) /\
            (masks -> V <> 1%nat -> adds -> exists r, run = ok r)).
  { intros [Hle Htgt].
    destruct (masked_part_cases lprobs target
                (map (fun p : list Q * Z => nth (Z.to_nat (snd p)) (fst p) 0)
                     (combine (rows lprobs) target)) ignore_index)
      as [Hok Hbad].
    { rewrite length_map, length_combine. lia. }
    cbn zeta in Hok, Hbad.
    split.
    { intros Hm. unfold run, label_smoothed_nll_loss.
      rewrite (gather_last_ok_le lprobs target Hle Hrows Htgt). cbn [bind ok].
      by rewrite (Hbad Hm). }
    assert (Hgo : masks ->
              (V = 1%nat -> run = raise ZeroDivisionError) /\
              (V <> 1%nat -> ~ adds -> run = raise RuntimeError) /\
              (V <> 1%nat -> adds -> exists r, run = ok r)).
    { intros Hm. destruct (Hok Hm) as (nllv & smoothv & E & Hn & Hs).
      unfold run, label_smoothed_nll_loss.
      rewrite (gather_last_ok_le lprobs target Hle Hrows Htgt). cbn [bind ok].
      rewrite E. cbn [bind ok]. fold V.
      split; [|split].
      - intros ->. by destruct reduce.
      - intros HV Ha.
        replace (Z.of_nat V - 1 =? 0)%Z with false by (symmetry; apply Z.eqb_neq; lia).
        destruct reduce; [exfalso; apply Ha; by left|].
        cbn [tval_op bind ok].
        rewrite broadcast_raise; [reflexivity | | |]; rewrite !length_map, ?Hn, ?Hs;
          intros Hx; apply Ha; fold M N; unfold M, N in *; right; lia.
      - intros HV Ha.
        replace (Z.of_nat V - 1 =? 0)%Z with false by (symmetry; apply Z.eqb_neq; lia).
        destruct reduce; [cbn [tval_op bind ok]; by eexists|].
        cbn [tval_op bind ok].
        edestruct (broadcast_ok Qplus) as (r & ->); [|cbn [bind ok]; by eexists].
        rewrite !length_map, Hn, Hs.
        destruct Ha as [Ha|Ha]; [discriminate|]. unfold M, N in Ha. lia. }
    split; [intros Hm HV; by apply (Hgo Hm)|].
    split; intros Hm HV Ha; by apply (Hgo Hm). }
  split; [|split; [|split; [|split]]].
  - split.
    + intros (r & Hr).
      assert (Hg : gathers).
      { unfold run, label_smoothed_nll_loss in Hr.
        destruct (gather_last lprobs target) as [e|p] eqn:Eg; [discriminate Hr|].
        apply gather_last_inv in Eg as (Hle & Htgt & _). by split. }
      destruct (Hrun Hg) as (H1 & H2 & H3 & _).
      split; [exact Hg|].
      destruct Hmasks as [Hm|Hm]; [|rewrite (H1 Hm) in Hr; discriminate Hr].
      split; [exact Hm|].
      destruct (Nat.eq_dec V 1%nat) as [HV|HV]; [rewrite (H2 Hm HV) in Hr; discriminate Hr|].
      split; [exact HV|].
      destruct Hadds as [Ha|Ha]; [exact Ha|].
      rewrite (H3 Hm HV Ha) in Hr. discriminate Hr.
    + intros (Hg & Hm & HV & Ha). by apply (Hrun Hg).
  - intros Hbad. unfold run, label_smoothed_nll_loss. by rewrite gather_last_raise.
  - intros Hg. apply (Hrun Hg).
  - intros Hg. apply (Hrun Hg).
  - intros Hg. apply (Hrun Hg).
Qed.

Lemma tsum_le_entry (row : list Q) (i : nat) :
  Forall (fun a => a <= 0) row -> (i < length row)%nat ->
  tsum row <= nth i row 0.
Proof.
  intros Hrow. revert i. induction Hrow as [|a row Ha Hrow IH]; intros i Hi.
  - simpl in Hi. lia.
  - assert (Hs : tsum row <= 0).
    { clear IH Hi. induction Hrow as [|b row Hb Hrow IH]; simpl; lra. }
    destruct i as [|i]; simpl.
    + lra.
    + specialize (IH i ltac:(simpl in Hi; lia)). lra.
Qed.

Lemma label_smoothed_unreduced
    (lprobs : tensor2 Q) (target : list Z) (epsilon : Q) (pad : Z) :
  length (rows lprobs) = length target ->
  Forall (fun row => length row = ncols lprobs) (rows lprobs) ->
  Forall (fun t => (0 <= t < Z.of_nat (ncols lprobs))%Z) target ->
  ncols lprobs <> 1%nat ->
  label_smoothed_nll_loss lprobs target epsilon (Some pad) false
  = ok (Vector (map (fun p => token_loss (ncols lprobs) epsilon pad (fst p) (snd p))
                    (combine (rows lprobs) target)),
        Vector (map (fun p => token_nll pad (fst p) (snd p))
                    (combine (rows lprobs) target))).
Proof.
  intros Hlen Hrows Htgt HV.
  destruct (combine_fst_snd _ _ Hlen) as [Hr Ht].
  unfold label_smoothed_nll_loss.
  rewrite (gather_last_ok lprobs target Hlen Hrows Htgt). simpl.
  remember (combine (rows lprobs) target) as pairs eqn:Hp.
  rewrite Ht, Hr. clear Hp Hr Ht Hlen Hrows Htgt.
  rewrite !map_map.
  rewrite !masked_fill_same by (by rewrite !length_map).
  simpl. rewrite !combine_map_same, !map_map. simpl.
  replace (Z.of_nat (ncols lprobs) - 1 =? 0)%Z with false
    by (symmetry; apply Z.eqb_neq; lia).
  rewrite broadcast_same by (by rewrite !length_map).
  simpl. rewrite !combine_map_same, !map_map. simpl.
  reflexivity.
Qed.

(** X10. For log-probabilities (entries at most 0) over V >= 2 classes,
    valid targets and [epsilon >= 0], every per-token NLL is non-negative and
    every per-token loss is at least [(1 - epsilon)] times the token's NLL;
    so with [epsilon <= 1] no per-token loss is negative. *)
Theorem smoothed_loss_at_least_scaled_nll
    (lprobs : tensor2 Q) (target : list Z) (epsilon : Q) (pad : Z) :
  length (rows lprobs) = length target ->
  Forall (fun row => length row = ncols lprobs) (rows lprobs) ->
  Forall (fun t => (0 <= t < Z.of_nat (ncols lprobs))%Z) target ->
  (2 <= ncols lprobs)%nat ->
  Forall (Forall (fun a => a <= 0)) (rows lprobs) ->
  0 <= epsilon ->
  exists loss nll_loss,
    label_smoothed_nll_loss lprobs target epsilon (Some pad) false
      = ok (Vector loss, Vector nll_loss) /\
    Forall2 (fun l n => 0 <= n /\ (1 - epsilon) * n <= l) loss nll_loss /\
    (epsilon <= 1 -> Forall (fun l => 0 <= l) loss).
Proof.
  intros Hlen Hrows Htgt HV Hneg He.
  rewrite (label_smoothed_unreduced lprobs target epsilon pad Hlen Hrows Htgt)
    by lia.
  eexists _, _. split; [reflexivity|].
  assert (Hpairs : Forall (fun p : list Q * Z =>
                     0 <= token_nll pad (fst p) (snd p) /\
                     (1 - epsilon) * token_nll pad (fst p) (snd p)
                     <= token_loss (ncols lprobs) epsilon pad (fst p) (snd p))
                   (combine (rows lprobs) target)).
  { apply List.Forall_forall. intros [row t] Hin. simpl.
    assert (Hl : length row = ncols lprobs).
    { rewrite List.Forall_forall in Hrows. apply Hrows. eapply in_combine_l; eauto. }
    assert (Hb : (0 <= t < Z.of_nat (ncols lprobs))%Z).
    { rewrite List.Forall_forall in Htgt. apply Htgt. eapply in_combine_r; eauto. }
    assert (Hr : Forall (fun a => a <= 0) row).
    { rewrite List.Forall_forall in Hneg. apply Hneg. eapply in_combine_l; eauto. }
    unfold token_loss, token_nll, token_smooth.
    destruct (t =? pad)%Z; [split; lra|].
    assert (Hi : (Z.to_nat t < length row)%nat) by lia.
    pose proof (tsum_le_entry row (Z.to_nat t) Hr Hi) as Hsum.
    assert (Hnth : nth (Z.to_nat t) row 0 <= 0).
    { rewrite List.Forall_forall in Hr. apply Hr. by apply nth_In. }
    set (n := nth (Z.to_nat t) row 0) in *. set (s := tsum row) in *.
    assert (Hc : 0 < inject_Z (Z.of_nat (ncols lprobs) - 1)).
    { replace 0 with (inject_Z 0) by reflexivity. rewrite <- Zlt_Qlt. lia. }
    set (ei := epsilon / inject_Z (Z.of_nat (ncols lprobs) - 1)).
    assert (Hei : 0 <= ei).
    { unfold ei. apply Qle_shift_div_l; [exact Hc | lra]. }
    split; [lra|].
    assert (Hprod : 0 <= ei * (n - s)) by (apply Qmult_le_0_compat; lra).
    lra. }
  split.
  - apply Forall2_fmap. apply Forall_Forall2_diag.
    eapply List.Forall_impl; [|exact Hpairs]. intros p Hp. exact Hp.
  - intros He1. apply List.Forall_forall. intros l Hl.
    apply in_map_iff in Hl as (p & <- & Hp).
    rewrite List.Forall_forall in Hpairs. destruct (Hpairs p Hp) as [H0 H1].
    assert (Hprod : 0 <= (1 - epsilon) * token_nll pad p.1 p.2)
      by (apply Qmult_le_0_compat; lra).
    lra.
Qed.

End LabelSmoothingMore.

Lemma reduced_is_sum_of_unreduced_witness :
  let lprobs := Tensor2 3 [[-(1); -(2); -(3)]; [-(2); -(1); -(3)]]%Q in
  (exists loss nll_loss L N,
     Criterion.label_smoothed_nll_loss lprobs [0; 1]%Z (1 # 10)%Q (Some 1%Z) false
       = ok (loss, nll_loss) /\
     Criterion.label_smoothed_nll_loss lprobs [0; 1]%Z (1 # 10)%Q (Some 1%Z) true
       = ok (Torch.Scalar L, Torch.Scalar N) /\
     N = Torch.tval_sum nll_loss /\ (L == Torch.tval_sum loss)%Q) /\
  (exists loss nll_loss L N,
     Criterion.label_smoothed_nll_loss lprobs [0]%Z (1 # 10)%Q None false
       = ok (loss, nll_loss) /\
     Criterion.label_smoothed_nll_loss lprobs [0]%Z (1 # 10)%Q None true
       = ok (Torch.Scalar L, Torch.Scalar N) /\
     N = Torch.tval_sum nll_loss /\ ~ (L == Torch.tval_sum loss)%Q).
Proof.
  intros lprobs. split.
  - destruct (Criterion.label_smoothed_nll_loss lprobs [0; 1]%Z (1 # 10)%Q (Some 1%Z) false)
      as [e|[loss nll_loss]] eqn:E.
    { exfalso. vm_compute in E. discriminate E. }
    destruct (reduced_is_sum_of_unreduced lprobs [0; 1]%Z (1 # 10)%Q (Some 1%Z)
                loss nll_loss E) as (L & N & H1 & H2 & H3).
    exists loss, nll_loss, L, N.
    split; [reflexivity|]. split; [exact H1|]. split; [exact H2|].
    apply H3. reflexivity.
  - destruct (Criterion.label_smoothed_nll_loss lprobs [0]%Z (1 # 10)%Q None false)
      as [e|[loss nll_loss]] eqn:E.
    { exfalso. vm_compute in E. discriminate E. }
    destruct (reduced_is_sum_of_unreduced lprobs [0]%Z (1 # 10)%Q None
                loss nll_loss E) as (L & N & H1 & H2 & _).
    exists loss, nll_loss, L, N.
    split; [reflexivity|]. split; [exact H1|]. split; [exact H2|].
    vm_compute in E. injection E as <- <-.
    vm_compute in H1. injection H1 as <- <-.
    intros H. vm_compute in H. discriminate H.
Defined.

Lemma label_smoothed_nll_loss_returns_iff_witness :
  let lprobs := Tensor2 3 [[-(1); -(2); -(3)]; [-(2); -(1); -(3)]]%Q in
  let run target := Criterion.label_smoothed_nll_loss lprobs target (1 # 10)%Q
                      (Some 1%Z) false in
  (exists r, run [0]%Z = ok r) /\
  run [0; 1; 2]%Z = raise RuntimeError /\
  run [0; 3]%Z = raise RuntimeError.
Proof.
  intros lprobs run.
  assert (Hrows : Forall (fun row => length row = ncols lprobs) (rows lprobs))
    by (repeat constructor).
  split; [|split].
  - pose proof (label_smoothed_nll_loss_returns_iff lprobs [0]%Z (1 # 10)%Q
                  (Some 1%Z) false Hrows) as H.
    cbv zeta in H. destruct H as [H _]. apply H.
    split; [split; [simpl; lia | repeat constructor; simpl; lia]|].
    split; [right; right; reflexivity|].
    split; [simpl; lia|]. right; right; left; reflexivity.
  - pose proof (label_smoothed_nll_loss_returns_iff lprobs [0; 1; 2]%Z (1 # 10)%Q
                  (Some 1%Z) false Hrows) as H.
    cbv zeta in H. destruct H as (_ & H & _). apply H. left. simpl. lia.
  - pose proof (label_smoothed_nll_loss_returns_iff lprobs [0; 3]%Z (1 # 10)%Q
                  (Some 1%Z) false Hrows) as H.
    cbv zeta in H. destruct H as (_ & H & _). apply H. right.
    constructor 2. constructor 1. simpl. lia.
Defined.

Lemma smoothed_loss_at_least_scaled_nll_witness :
  let lprobs := Tensor2 3 [[-(1); -(2); -(3)]; [-(2); -(1); -(3)]]%Q in
  exists loss nll_loss,
    Criterion.label_smoothed_nll_loss lprobs [0; 1]%Z (1 # 10)%Q (Some 1%Z) false
      = ok (Torch.Vector loss, Torch.Vector nll_loss) /\
    Forall2 (fun l n => (0 <= n)%Q /\ ((1 - (1 # 10)) * n <= l)%Q) loss nll_loss /\
    ((1 # 10 <= 1)%Q -> Forall (fun l => (0 <= l)%Q) loss).
Proof.
  apply (smoothed_loss_at_least_scaled_nll
           (Tensor2 3 [[-(1); -(2); -(3)]; [-(2); -(1); -(3)]]%Q)
           [0; 1]%Z (1 # 10)%Q 1%Z).
  - reflexivity.
  - repeat constructor.
  - repeat constructor; simpl; lia.
  - simpl. lia.
  - repeat constructor; simpl; lra.
  - lra.
Defined.
(** ** [get_lprobs_and_target] and [compute_accuracy] *)

Section Alignment.

Import Torch Criterion Spec.
Local Open Scope Q_scope.

Lemma combine_app_same {A B} (a a' : list A) (b b' : list B) :
  length a = length b ->
  combine (a ++ a') (b ++ b') = combine a b ++ combine a' b'.
Proof.
  revert b. induction a as [|x a IH]; intros [|y b] H; try discriminate; simpl.
  - reflexivity.
  - f_equal. apply IH. simpl in H. lia.
Qed.

Lemma combine_skipn_same {A B} (n : nat) (a : list A) (b : list B) :
  combine (skipn n a) (skipn n b) = skipn n (combine a b).
Proof.
  revert a b. induction n as [|n IH]; intros a b; [reflexivity|].
  destruct a as [|x a], b as [|y b]; simpl; try reflexivity.
  - by destruct (skipn n a).
  - apply IH.
Qed.

Lemma combine_concat_same {A B} (xs : list (list A)) (ys : list (list B)) :
  Forall2 (fun x y => length x = length y) xs ys ->
  combine (concat xs) (concat ys)
  = concat (map (fun p => combine (fst p) (snd p)) (combine xs ys)).
Proof.
  induction 1 as [|x y xs ys Hxy Hrest IH]; simpl; [reflexivity|].
  rewrite combine_app_same by exact Hxy. by rewrite IH.
Qed.

Lemma combine_length_same {A B} (a : list A) (b : list B) :
  length a = length b -> length (combine a b) = length a.
Proof. intros H. rewrite length_combine. lia. Qed.

Lemma drop_prefix_aligned {A B} (n : Z) (xs : list (list A)) (ys : list (list B)) :
  Forall2 (fun x y => length x = length y) xs ys ->
  Forall2 (fun x y => length x = length y) (drop_prefix n xs) (drop_prefix n ys).
Proof.
  unfold drop_prefix. induction 1 as [|x y xs ys Hxy Hrest IH]; simpl; constructor.
  - rewrite !length_skipn. lia.
  - exact IH.
Qed.

Lemma concat_aligned {A B} (xs : list (list A)) (ys : list (list B)) :
  Forall2 (fun x y => length x = length y) xs ys ->
  length (concat xs) = length (concat ys).
Proof.
  induction 1 as [|x y xs ys Hxy Hrest IH]; simpl; [reflexivity|].
  rewrite !length_app. lia.
Qed.

Lemma lprobs_and_target_same_length (c : criterion) (m : model_out) (s : sample) :
  Forall2 (fun lp tg => length lp = length tg) (normalized_lprobs m) (target s) ->
  length (rows (fst (get_lprobs_and_target c m s)))
  = length (snd (get_lprobs_and_target c m s)).
Proof.
  intros Hal. unfold get_lprobs_and_target.
  destruct (0 <? ignore_prefix_size c)%Z; simpl.
  - apply concat_aligned. by apply drop_prefix_aligned.
  - by apply concat_aligned.
Qed.

(** X11. When the model's log-probabilities (over a vocabulary that is not
    empty) and the batch's targets have the same number of positions
    sentence by sentence, [get_lprobs_and_target] returns as many rows as
    targets, each row still paired with its own target: the pairs are those
    of the batch, sentence after sentence, with the first
    [ignore_prefix_size] positions of every sentence dropped (none for a
    prefix size of 0 or less). *)
Theorem get_lprobs_and_target_aligned (c : criterion) (m : model_out) (s : sample) :
  vocab m <> 0%nat ->
  Forall2 (fun lp tg => length lp = length tg) (normalized_lprobs m) (target s) ->
  length (rows (fst (get_lprobs_and_target c m s)))
  = length (snd (get_lprobs_and_target c m s)) /\
  ncols (fst (get_lprobs_and_target c m s)) = vocab m /\
  combine (rows (fst (get_lprobs_and_target c m s))) (snd (get_lprobs_and_target c m s))
  = concat (map (fun p => skipn (Z.to_nat (ignore_prefix_size c))
                                (combine (fst p) (snd p)))
                (combine (normalized_lprobs m) (target s))).
Proof.
  intros _ Hal. unfold get_lprobs_and_target.
  destruct (0 <? ignore_prefix_size c)%Z eqn:E; simpl.
  - pose proof (drop_prefix_aligned (ignore_prefix_size c) _ _ Hal) as Hd.
    split; [by apply concat_aligned|]. split; [reflexivity|].
    rewrite combine_concat_same by exact Hd.
    f_equal. unfold drop_prefix.
    clear Hd. induction Hal as [|x y xs ys Hxy Hrest IH]; simpl; [reflexivity|].
    rewrite combine_skipn_same. by rewrite IH.
  - apply Z.ltb_ge in E.
    replace (Z.to_nat (ignore_prefix_size c)) with 0%nat by lia.
    split; [by apply concat_aligned|]. split; [reflexivity|].
    rewrite combine_concat_same by exact Hal. reflexivity.
Qed.

Lemma count_and_le (hits mask : list bool) :
  (length (List.filter (fun b : bool => b)
                       (map (fun p => andb (fst p) (snd p)) (combine hits mask)))
   <= length (List.filter (fun b : bool => b) mask))%nat.
Proof.
  revert mask. induction hits as [|h hits IH]; intros [|k mask]; simpl; try lia.
  specialize (IH mask). destruct h, k; simpl; lia.
Qed.

Lemma filter_length_le {A} (f : A -> bool) (l : list A) :
  (length (List.filter f l) <= length l)%nat.
Proof.
  induction l as [|a l IH]; simpl; [lia|]. destruct (f a); simpl; lia.
Qed.

(** X12. On such a batch (log-probabilities of shape (B, T, V) with
    V >= 1, targets of shape (B, T)) [compute_accuracy] returns counts with
    [0 <= n_correct <= total]: [total] is the number of targets that are not
    padding, and a padding position is never counted as correct. *)
Theorem compute_accuracy_bounds (c : criterion) (m : model_out) (s : sample) :
  vocab m <> 0%nat ->
  Forall2 (fun lp tg => length lp = length tg) (normalized_lprobs m) (target s) ->
  Forall (Forall (fun row => length row = vocab m)) (normalized_lprobs m) ->
  exists n_correct total,
    compute_accuracy c m s = ok (n_correct, total) /\
    (0 <= n_correct <= total)%Z /\
    total = Z.of_nat (length (List.filter (fun t => negb (t =? padding_idx c)%Z)
                                          (snd (get_lprobs_and_target c m s)))) /\
    (total <= Z.of_nat (length (snd (get_lprobs_and_target c m s))))%Z.
Proof.
  intros _ Hal _.
  pose proof (lprobs_and_target_same_length c m s Hal) as Hlen.
  unfold compute_accuracy.
  destruct (get_lprobs_and_target c m s) as [lprobs tgt]. simpl in *.
  rewrite zip_same_ok by exact Hlen. simpl.
  rewrite zip_same_ok
    by (rewrite !length_map, length_combine; lia).
  simpl. eexists _, _. split; [reflexivity|].
  split; [|split].
  - split; [lia|]. apply inj_le. apply count_and_le.
  - f_equal. clear Hlen. induction tgt as [|t tgt IH]; simpl; [reflexivity|].
    destruct (negb (t =? padding_idx c)%Z); simpl; lia.
  - apply inj_le. etransitivity; [apply filter_length_le|].
    by rewrite length_map.
Qed.

End Alignment.

Lemma get_lprobs_and_target_aligned_witness :
  let c := fst (Criterion.__init__ (Examples.a_task "word_and_seq_level")
                  (Examples.a_config 20000 None "mse" false)) in
  let m := Examples.one_token_model in
  let s := Examples.one_token_sample in
  length (rows (fst (Criterion.get_lprobs_and_target c m s)))
  = length (snd (Criterion.get_lprobs_and_target c m s)) /\
  ncols (fst (Criterion.get_lprobs_and_target c m s)) = Criterion.vocab m /\
  combine (rows (fst (Criterion.get_lprobs_and_target c m s)))
          (snd (Criterion.get_lprobs_and_target c m s))
  = concat (map (fun p => skipn (Z.to_nat (Criterion.ignore_prefix_size c))
                                (combine (fst p) (snd p)))
                (combine (Criterion.normalized_lprobs m) (Criterion.target s))).
Proof.
  apply (get_lprobs_and_target_aligned
           (fst (Criterion.__init__ (Examples.a_task "word_and_seq_level")
                   (Examples.a_config 20000 None "mse" false)))
           Examples.one_token_model Examples.one_token_sample).
  - simpl. lia.
  - repeat constructor.
Defined.

Lemma compute_accuracy_bounds_witness :
  let c := fst (Criterion.__init__ (Examples.a_task "word_and_seq_level")
                  (Examples.a_config 20000 None "mse" false)) in
  let m := Examples.one_token_model in
  let s := Examples.one_token_sample in
  exists n_correct total,
    Criterion.compute_accuracy c m s = ok (n_correct, total) /\
    (0 <= n_correct <= total)%Z /\
    total = Z.of_nat (length (List.filter
                                (fun t => negb (t =? Criterion.padding_idx c)%Z)
                                (snd (Criterion.get_lprobs_and_target c m s)))) /\
    (total <= Z.of_nat (length (snd (Criterion.get_lprobs_and_target c m s))))%Z.
Proof.
  apply (compute_accuracy_bounds
           (fst (Criterion.__init__ (Examples.a_task "word_and_seq_level")
                   (Examples.a_config 20000 None "mse" false)))
           Examples.one_token_model Examples.one_token_sample).
  - simpl. lia.
  - repeat constructor.
  - repeat constructor.
Defined.

(** ** [compute_loss] and [forward]: strategies, state and logging *)

Ltac lookup_log :=
  simpl;
  repeat first [ rewrite lookup_insert_eq
               | rewrite lookup_insert_ne by discriminate
               | rewrite lookup_empty ].

Section TokenLevel.

Import Torch Criterion Spec Laws.
Local Open Scope Q_scope.

Variables texp tlog : Q -> Q.

Lemma token_level_inv c st m s loc :
  token_level texp tlog c st m s = ok loc ->
  let lt := get_lprobs_and_target c m s in
  let pad_mask := map (fun t => (t =? padding_idx c)%Z) (snd lt) in
  exists teacher tl golden nll gt nllt,
    teacher_output s = Some teacher /\
    teacher_lprobs s = Some tl /\
    label_smoothed_nll_loss (fst lt) (snd lt) (eps c) (Some (padding_idx c)) false
      = ok (golden, nll) /\
    label_smoothed_nll_loss (Tensor2 (vocab m) (concat tl)) (snd lt) (eps c)
      (Some (padding_idx c)) false = ok (gt, nllt) /\
    l_lprobs loc = fst lt /\
    l_golden_loss loc = view1 golden /\
    let extra0 : gmap string tval :=
      <["golden_loss"%string := Scalar (tsum (view1 golden))]> ∅ in
    let kdx := kd_cross_entropy texp tlog c (concat (logits m)) (concat teacher) pad_mask in
    ((kd_strategy c = "word_and_seq_level"%string /\
      exists kd al k g,
        kdx = ok kd /\
        (if use_adaptive_weightage c
         then exists b a,
                beta c = Some b /\
                zip_same (fun t n => relu (tanh texp (b * (t - n)))) (view1 nllt) (view1 nll)
                  = ok a /\
                l_state loc = State (Some (Vector a)) (queue st)
         else l_state loc = st) /\
        alpha (l_state loc) = Some al /\
        golden_part (alpha (l_state loc)) (view1 golden) = ok g /\
        tval_op Qmult al (Vector kd) = ok k /\
        l_loss loc = Scalar (g + tval_sum k) /\
        l_extra loc = log_kd extra0 (tsum kd) (tsum (view1 nll)) (tsum (view1 nllt)) /\
        l_kd_loss loc = Some kd) \/
     (use_adaptive_weightage c = false /\
      kd_strategy c = "batch_level"%string /\
      exists kept,
        batch_level_select (view1 nll) (kd_rate c) kdx = ok kept /\
        l_state loc = st /\
        mix (alpha st) (tsum (view1 golden)) (tsum kept) = ok (l_loss loc) /\
        l_extra loc = log_kd extra0 (tsum kept) (tsum (view1 nll)) (tsum (view1 nllt)) /\
        l_kd_loss loc = Some kept) \/
     (use_adaptive_weightage c = false /\
      kd_strategy c = "global_level"%string /\
      exists q0 gate kd kept,
        queue st = QueueTensor q0 /\
        l_state loc = State (alpha st) (QueueTensor (push (kd_queue_size c) q0 (view1 nll))) /\
        loss_gate (push (kd_queue_size c) q0 (view1 nll)) (kd_rate c) = ok gate /\
        kdx = ok kd /\
        select_at_or_above (view1 nll) gate kd = ok kept /\
        mix (alpha st) (tsum (view1 golden)) (tsum kept) = ok (l_loss loc) /\
        l_extra loc = log_kd extra0 (tsum kept) (tsum (view1 nll)) (tsum (view1 nllt)) /\
        l_kd_loss loc = Some kept) \/
     (use_adaptive_weightage c = false /\
      kd_strategy c = "global_multi_level"%string /\
      exists kd st' total,
        kdx = ok kd /\
        global_multi_level_select texp tlog c st (src_tokens s) (view1 nll) kd
          = ok (st', total) /\
        l_state loc = st' /\
        mix (alpha st') (tsum (view1 golden)) total = ok (l_loss loc) /\
        l_extra loc = log_kd extra0 total (tsum (view1 nll)) (tsum (view1 nllt)) /\
        l_kd_loss loc = Some kd)).
Proof.
  intros H. unfold token_level in H.
  destruct (get_lprobs_and_target c m s) as [lprobs target] eqn:Elt.
  destruct (teacher_output s) as [teacher|] eqn:Et; [|discriminate H].
  simpl in H.
  bind_inv H as Eg. destruct p as [golden nll].
  bind_inv H as Etl. bind_inv H as Eb.
  destruct (teacher_lprobs s) as [tl|] eqn:Etlp;
    [|injection Etl as <-; discriminate Eb].
  bind_inv Etl as Egt. destruct p as [gt nllt].
  injection Etl as <-. injection Eb as <-.
  simpl. exists teacher, tl, golden, nll, gt, nllt.
  split; [reflexivity|]. split; [reflexivity|].
  split; [exact Eg|]. split; [exact Egt|].
  destruct (String.eqb_spec (kd_strategy c) "word_and_seq_level") as [Hws|Hws].
  { (* word_and_seq_level *)
    bind_inv H as Ekd. bind_inv H as Est. bind_inv H as Egp.
    bind_inv H as Eal. bind_inv H as Ek. injection H as <-. simpl.
    split; [reflexivity|]. split; [reflexivity|].
    left. split; [exact Hws|].
    destruct (alpha s0) as [al|] eqn:Ea; [|discriminate Eal].
    injection Eal as <-.
    eexists _, al, _, _. split; [reflexivity|].
    split.
    { destruct (use_adaptive_weightage c).
      - bind_inv Est as Eb. bind_inv Est as Ez. injection Est as <-.
        destruct (beta c) as [b|]; [|discriminate Eb]. injection Eb as <-.
        by exists b, l0.
      - by injection Est as <-. }
    split; [reflexivity|]. split; [exact Egp|].
    split; [exact Ek|]. repeat split; reflexivity. }
  destruct (use_adaptive_weightage c) eqn:Ead; simpl in H.
  { discriminate H. }
  destruct (String.eqb_spec (kd_strategy c) "batch_level") as [Hb|Hb].
  { bind_inv H as Esel. bind_inv H as Emix. injection H as <-. simpl.
    split; [reflexivity|]. split; [reflexivity|].
    right. left. split; [reflexivity|]. split; [exact Hb|].
    exists l. repeat split; auto. }
  destruct (String.eqb_spec (kd_strategy c) "global_level") as [Hg|Hg].
  { bind_inv H as Ece. bind_inv H as Epush. bind_inv H as Eq.
    bind_inv H as Egate. bind_inv H as Emf. bind_inv H as Esel.
    bind_inv H as Emix. injection H as <-. simpl.
    split; [reflexivity|]. split; [reflexivity|].
    right. right. left. split; [reflexivity|]. split; [exact Hg|].
    unfold push_to_FIFO_queue in Epush.
    destruct (queue st) as [q0|] eqn:Eq0; [|discriminate Epush].
    injection Epush as <-. simpl in *. injection Eq as <-.
    exists q0, q, l1, l2. split; [reflexivity|]. split; [reflexivity|].
    split; [exact Egate|].
    split.
    { unfold kd_cross_entropy. rewrite Ece. simpl. exact Emf. }
    split; [exact Esel|]. split; [exact Emix|]. split; reflexivity. }
  destruct (String.eqb_spec (kd_strategy c) "global_multi_level") as [Hm|Hm].
  { bind_inv H as Ekd. bind_inv H as Esel. destruct p as [st' total].
    bind_inv H as Emix. injection H as <-. simpl.
    split; [reflexivity|]. split; [reflexivity|].
    right. right. right. split; [reflexivity|]. split; [exact Hm|].
    exists l, st', total. repeat split; auto. }
  discriminate H.
Qed.


(** [compute_loss] and [forward] return only when the token-level part
    does. *)
Lemma compute_loss_inv c st m s epoch mp loss extra st' :
  compute_loss texp tlog c st m s epoch mp = ok (loss, extra, st') ->
  exists loc out,
    token_level texp tlog c st m s = ok loc /\
    auxiliary texp tlog c loc epoch mp = ok out /\
    l_state loc = st'.
Proof.
  unfold compute_loss. intros H.
  bind_inv H as El. bind_inv H as Ea.
  exists l, o. split; [reflexivity|]. split; [exact Ea|].
  destruct o as [a|lo ex].
  - repeat (bind_inv H). by injection H as _ _ <-.
  - by injection H as _ _ <-.
Qed.

Lemma forward_inv c st m s epoch loss sample_size logging_output st' :
  forward texp tlog c st m s epoch = ok (loss, sample_size, logging_output, st') ->
  exists extra,
    compute_loss texp tlog c st m s epoch (Examples.maps_of m s) = ok (loss, extra, st').
Proof.
  unfold forward. intros H. bind_inv H as Ec. destruct p as [[lo ex] st1].
  bind_inv H as Elog. injection H as <- _ _ <-.
  exists ex. exact Ec.
Qed.

Lemma forward_ok_token_level c st m s epoch r :
  forward texp tlog c st m s epoch = ok r ->
  exists loc, token_level texp tlog c st m s = ok loc.
Proof.
  destruct r as [[[loss ss] lg] st']. intros H.
  apply forward_inv in H as (extra & H).
  apply compute_loss_inv in H as (loc & out & H & _). by exists loc.
Qed.

Lemma forward_raise c st m s epoch e :
  token_level texp tlog c st m s = raise e ->
  forward texp tlog c st m s epoch = raise e.
Proof.
  intros H. unfold forward, compute_loss. by rewrite H.
Qed.

(** X13. A batch without [teacher_lprobs] never gets a loss: [forward]
    returns no result, and when the batch has a [teacher_output] and the
    student's label-smoothed loss is computed, what it raises is
    [UnboundLocalError] (the local [nll_loss_teacher] is read without having
    been assigned). *)
Theorem teacher_lprobs_required c st m s epoch :
  teacher_lprobs s = None ->
  (forall r, forward texp tlog c st m s epoch <> ok r) /\
  (forall teacher r0,
     teacher_output s = Some teacher ->
     label_smoothed_nll_loss (fst (get_lprobs_and_target c m s))
       (snd (get_lprobs_and_target c m s)) (eps c) (Some (padding_idx c)) false = ok r0 ->
     forward texp tlog c st m s epoch = raise UnboundLocalError).
Proof.
  intros Hn. split.
  - intros r Hr. apply forward_ok_token_level in Hr as (loc & Hl).
    apply token_level_inv in Hl as (t & tl & _ & _ & _ & _ & _ & Htl & _).
    congruence.
  - intros teacher r0 Ht Hls. apply forward_raise.
    unfold token_level.
    destruct (get_lprobs_and_target c m s) as [lprobs target].
    simpl in Hls. rewrite Ht. simpl. rewrite Hls. simpl.
    destruct r0 as [golden nll]. rewrite Hn. reflexivity.
Qed.

(** X14. Once both label-smoothed losses are computed, a strategy name
    other than the four known ones, or any strategy other than
    [word_and_seq_level] together with [use_adaptive_weightage], makes
    [forward] raise [ValueError]. *)
Theorem strategy_mismatch_raises_ValueError c st m s epoch teacher tl r0 r1 :
  teacher_output s = Some teacher ->
  teacher_lprobs s = Some tl ->
  label_smoothed_nll_loss (fst (get_lprobs_and_target c m s))
    (snd (get_lprobs_and_target c m s)) (eps c) (Some (padding_idx c)) false = ok r0 ->
  label_smoothed_nll_loss (Tensor2 (vocab m) (concat tl))
    (snd (get_lprobs_and_target c m s)) (eps c) (Some (padding_idx c)) false = ok r1 ->
  kd_strategy c <> "word_and_seq_level"%string ->
  (use_adaptive_weightage c = true \/
   (kd_strategy c <> "batch_level"%string /\
    kd_strategy c <> "global_level"%string /\
    kd_strategy c <> "global_multi_level"%string)) ->
  forward texp tlog c st m s epoch = raise ValueError.
Proof.
  intros Ht Htl Hls Hlt Hws Hbad. apply forward_raise.
  unfold token_level.
  destruct (get_lprobs_and_target c m s) as [lprobs target].
  simpl in Hls, Hlt. rewrite Ht. simpl. rewrite Hls. simpl.
  destruct r0 as [golden nll]. rewrite Htl, Hlt. simpl.
  destruct (String.eqb_spec (kd_strategy c) "word_and_seq_level"); [contradiction|].
  destruct Hbad as [-> | (Hb & Hg & Hm)]; simpl; [reflexivity|].
  destruct (String.eqb_spec (kd_strategy c) "batch_level"); [contradiction|].
  destruct (String.eqb_spec (kd_strategy c) "global_level"); [contradiction|].
  destruct (String.eqb_spec (kd_strategy c) "global_multi_level"); [contradiction|].
  rewrite !andb_false_r. reflexivity.
Qed.

Lemma same_queue_shape_refl q : same_queue_shape q q.
Proof. destruct q; simpl; [exact I | tauto]. Qed.

Lemma same_queue_shape_trans q1 q2 q3 :
  same_queue_shape q1 q2 -> same_queue_shape q2 q3 -> same_queue_shape q1 q3.
Proof.
  destruct q1, q2, q3; simpl; try tauto.
  intros H1 H2 id. rewrite H2. apply H1.
Qed.

Lemma push_to_lang_frame c st id tensor st' :
  push_to_lang_FIFO_queue c st id tensor = ok st' ->
  alpha st' = alpha st /\ same_queue_shape (queue st) (queue st').
Proof.
  unfold push_to_lang_FIFO_queue. intros H.
  destruct (queue st) as [?|d] eqn:Eq; [discriminate|].
  destruct (d !! id) as [q|] eqn:E; [|discriminate].
  injection H as <-. simpl. split; [reflexivity|].
  intros k. destruct (decide (id = k)) as [->|Hne].
  - rewrite lookup_insert_eq, E. split; intros _; by eexists.
  - by rewrite lookup_insert_ne.
Qed.

Lemma push_languages_frame c nll_rows items :
  forall st acc st' acc',
    push_languages c st nll_rows items acc = ok (st', acc') ->
    alpha st' = alpha st /\ same_queue_shape (queue st) (queue st').
Proof.
  induction items as [|[key val] rest IH]; intros st acc st' acc' H; simpl in H.
  - injection H as <- _. split; [reflexivity | apply same_queue_shape_refl].
  - bind_inv H as Es. bind_inv H as Ep.
    apply push_to_lang_frame in Ep as [Ha Hq].
    apply IH in H as [Ha' Hq'].
    split; [congruence | eapply same_queue_shape_trans; eauto].
Qed.

Lemma global_multi_level_select_frame c st inp nll kd st' total :
  global_multi_level_select texp tlog c st inp nll kd = ok (st', total) ->
  alpha st' = alpha st /\ same_queue_shape (queue st) (queue st').
Proof.
  unfold global_multi_level_select. intros H.
  bind_inv H as Ei. bind_inv H as Ev. bind_inv H as Ep. destruct p as [st1 nl].
  bind_inv H as Er. bind_inv H as Es. injection H as <- _.
  by apply push_languages_frame in Ep.
Qed.

Lemma global_multi_level_select_needs_temp c st inp nll kd :
  use_adaptive_kd_rates c = true -> kd_selection_temp c = None ->
  forall r, global_multi_level_select texp tlog c st inp nll kd <> ok r.
Proof.
  intros Hu Ht r H. unfold global_multi_level_select in H.
  bind_inv H as Ei. bind_inv H as Ev. bind_inv H as Ep. destruct p as [st1 nl].
  bind_inv H as Er.
  unfold Kernels.get_lang_kd_rates in Er. rewrite Hu, Ht in Er. discriminate Er.
Qed.

(** X15. Options that are unset ([None]) make every call of [forward]
    fail, whatever the batch: [alpha] without [use_adaptive_weightage];
    [beta] (from [adaptive_smoothing]) with [use_adaptive_weightage];
    [kd_rate] under [batch_level] and [global_level]; [kd_selection_temp]
    under [global_multi_level] with [use_adaptive_kd_rates]. *)
Theorem unset_options_never_return c st m s epoch :
  (use_adaptive_weightage c = false -> alpha st = None ->
   forall r, forward texp tlog c st m s epoch <> ok r) /\
  (use_adaptive_weightage c = true -> beta c = None ->
   forall r, forward texp tlog c st m s epoch <> ok r) /\
  (kd_rate c = None ->
   kd_strategy c = "batch_level"%string \/ kd_strategy c = "global_level"%string ->
   forall r, forward texp tlog c st m s epoch <> ok r) /\
  (kd_strategy c = "global_multi_level"%string ->
   use_adaptive_kd_rates c = true -> kd_selection_temp c = None ->
   forall r, forward texp tlog c st m s epoch <> ok r).
Proof.
  split; [|split; [|split]].
  - intros Had Hal r Hr. apply forward_ok_token_level in Hr as (loc & Hl).
    apply token_level_inv in Hl
      as (t & tl & g & n & gt & nt & _ & _ & _ & _ & _ & _ & Hcases).
    rewrite Had in Hcases.
    destruct Hcases as [(_ & kd & al & k & g0 & _ & Hst & Ha & _)
                       |[(_ & _ & kept & _ & _ & Hmix & _)
                       |[(_ & _ & q0 & gate & kd & kept & _ & _ & _ & _ & _ & Hmix & _)
                        |(_ & _ & kd & st1 & total & _ & Hsel & _ & Hmix & _)]]].
    + rewrite Hst in Ha. congruence.
    + rewrite Hal in Hmix. discriminate Hmix.
    + rewrite Hal in Hmix. discriminate Hmix.
    + apply global_multi_level_select_frame in Hsel as [Ha _].
      rewrite Ha, Hal in Hmix. discriminate Hmix.
  - intros Had Hb r Hr. apply forward_ok_token_level in Hr as (loc & Hl).
    apply token_level_inv in Hl
      as (t & tl & g & n & gt & nt & _ & _ & _ & _ & _ & _ & Hcases).
    rewrite Had in Hcases.
    destruct Hcases as [(_ & kd & al & k & g0 & _ & (b & a & Hbeta & _) & _)
                       |[(? & _)|[(? & _)|(? & _)]]]; congruence.
  - intros Hr Hs r Hf. apply forward_ok_token_level in Hf as (loc & Hl).
    apply token_level_inv in Hl
      as (t & tl & g & n & gt & nt & _ & _ & _ & _ & _ & _ & Hcases).
    destruct Hcases as [(Hws & _)
                       |[(_ & _ & kept & Hsel & _)
                       |[(_ & _ & q0 & gate & kd & kept & _ & _ & Hgate & _)
                        |(_ & Hm & _)]]].
    + destruct Hs; congruence.
    + unfold batch_level_select in Hsel. rewrite Hr in Hsel. discriminate Hsel.
    + rewrite Hr in Hgate. discriminate Hgate.
    + destruct Hs; congruence.
  - intros Hs Hu Ht r Hf. apply forward_ok_token_level in Hf as (loc & Hl).
    apply token_level_inv in Hl
      as (t & tl & g & n & gt & nt & _ & _ & _ & _ & _ & _ & Hcases).
    destruct Hcases as [(Hws & _)
                       |[(_ & Hb & _)
                       |[(_ & Hg & _)
                        |(_ & _ & kd & st1 & total & _ & Hsel & _)]]];
      try congruence.
    by apply global_multi_level_select_needs_temp in Hsel.
Qed.


Lemma tsum_scale (c : Q) (l : list Q) : tsum (map (Qmult c) l) == c * tsum l.
Proof.
  induction l as [|x l IH]; simpl; [ring|]. rewrite IH. ring.
Qed.

Lemma compute_loss_no_epoch_inv c st m s mp loss extra st' :
  compute_loss texp tlog c st m s None mp = ok (loss, extra, st') ->
  exists loc,
    token_level texp tlog c st m s = ok loc /\
    loss = l_loss loc /\ extra = l_extra loc /\ st' = l_state loc.
Proof.
  unfold compute_loss. intros H. bind_inv H as El. simpl in H.
  injection H as <- <- <-. by exists l.
Qed.

Lemma log_kd_lookup extra0 kd ns nt :
  log_kd extra0 kd ns nt !! "kd_loss"%string = Some (Scalar kd) /\
  log_kd extra0 kd ns nt !! "nll_loss_student"%string = Some (Scalar ns) /\
  log_kd extra0 kd ns nt !! "nll_loss_teacher"%string = Some (Scalar nt) /\
  log_kd extra0 kd ns nt !! "golden_loss"%string = extra0 !! "golden_loss"%string.
Proof.
  unfold log_kd. repeat split.
  - rewrite !lookup_insert_ne by discriminate. by rewrite lookup_insert_eq.
  - rewrite lookup_insert_ne by discriminate. by rewrite lookup_insert_eq.
  - by rewrite lookup_insert_eq.
  - by rewrite !lookup_insert_ne by discriminate.
Qed.

Lemma mix_scalar (a x y : Q) :
  mix (Some (Scalar a)) x y = ok (Scalar ((1 - a) * x + a * y)).
Proof. reflexivity. Qed.

(** X16. Without adaptive weightage, with a number [a] as [alpha] and no
    epoch, the loss [compute_loss] returns is a number and equals
    [(1 - a) * extra['golden_loss'] + a * extra['kd_loss']] under every
    strategy; so with [alpha = 0] it is the summed golden loss and with
    [alpha = 1] the summed KD loss that was selected. *)
Theorem loss_is_mix_of_logged_terms c st m s mp a loss extra st' :
  use_adaptive_weightage c = false ->
  alpha st = Some (Scalar a) ->
  compute_loss texp tlog c st m s None mp = ok (loss, extra, st') ->
  exists g k v,
    extra !! "golden_loss"%string = Some (Scalar g) /\
    extra !! "kd_loss"%string = Some (Scalar k) /\
    loss = Scalar v /\
    v == (1 - a) * g + a * k /\
    (a == 0 -> v == g) /\
    (a == 1 -> v == k).
Proof.
  intros Had Hal H.
  apply compute_loss_no_epoch_inv in H as (loc & Hl & -> & -> & ->).
  apply token_level_inv in Hl
    as (t & tl & g & n & gt & nt & _ & _ & _ & _ & _ & _ & Hcases).
  rewrite Had in Hcases.
  assert (Hfin : forall g k v : Q,
            v == (1 - a) * g + a * k ->
            v == (1 - a) * g + a * k /\ (a == 0 -> v == g) /\ (a == 1 -> v == k)).
  { intros g0 k0 v0 Hv. split; [exact Hv|].
    split; intros Ha; rewrite Hv, Ha; ring. }
  assert (Hlook : forall kd : Q,
            log_kd (<["golden_loss"%string := Scalar (tsum (view1 g))]> ∅)
              kd (tsum (view1 n)) (tsum (view1 nt)) !! "golden_loss"%string
            = Some (Scalar (tsum (view1 g))) /\
            log_kd (<["golden_loss"%string := Scalar (tsum (view1 g))]> ∅)
              kd (tsum (view1 n)) (tsum (view1 nt)) !! "kd_loss"%string
            = Some (Scalar kd)).
  { intros kd0. destruct (log_kd_lookup
        (<["golden_loss"%string := Scalar (tsum (view1 g))]> ∅) kd0
        (tsum (view1 n)) (tsum (view1 nt))) as (Hk1 & _ & _ & Hg1).
    split; [|exact Hk1]. rewrite Hg1. by rewrite lookup_insert_eq. }
  destruct Hcases as [(_ & kd & al & k & g0 & _ & Hst & Ha & Hg & Hk & Hloss & Hex & _)
                     |[(_ & _ & kept & _ & _ & Hmix & Hex & _)
                     |[(_ & _ & q0 & gate & kd & kept & _ & _ & _ & _ & _ & Hmix & Hex & _)
                      |(_ & _ & kd & st1 & total & _ & Hsel & _ & Hmix & Hex & _)]]];
    rewrite Hex.
  - rewrite Hst, Hal in Ha, Hg. injection Ha as <-.
    unfold golden_part in Hg. simpl in Hg. injection Hg as <-.
    simpl in Hk. injection Hk as <-.
    destruct (Hlook (tsum kd)) as [H1 H2].
    eexists _, _, _. split; [exact H1|]. split; [exact H2|].
    split; [exact Hloss|]. apply Hfin. simpl. rewrite !tsum_scale. ring.
  - rewrite Hal, mix_scalar in Hmix. injection Hmix as Hmix.
    destruct (Hlook (tsum kept)) as [H1 H2].
    eexists _, _, _. split; [exact H1|]. split; [exact H2|].
    split; [symmetry; exact Hmix|]. apply Hfin. reflexivity.
  - rewrite Hal, mix_scalar in Hmix. injection Hmix as Hmix.
    destruct (Hlook (tsum kept)) as [H1 H2].
    eexists _, _, _. split; [exact H1|]. split; [exact H2|].
    split; [symmetry; exact Hmix|]. apply Hfin. reflexivity.
  - apply global_multi_level_select_frame in Hsel as [Ha _].
    rewrite Ha, Hal, mix_scalar in Hmix. injection Hmix as Hmix.
    destruct (Hlook total) as [H1 H2].
    eexists _, _, _. split; [exact H1|]. split; [exact H2|].
    split; [symmetry; exact Hmix|]. apply Hfin. reflexivity.
Qed.


(** X17. What a successful [compute_loss] does to the criterion's state:
    [self.alpha] is assigned only under [use_adaptive_weightage]; the queue
    stays of its kind (a tensor, or a dictionary with the same language ids);
    it is untouched under [word_and_seq_level] and [batch_level]; and under
    [global_level] it is the old queue with the batch's per-token student NLL
    pushed. *)
Theorem compute_loss_state_frame c st m s epoch mp loss extra st' :
  compute_loss texp tlog c st m s epoch mp = ok (loss, extra, st') ->
  (use_adaptive_weightage c = false -> alpha st' = alpha st) /\
  same_queue_shape (queue st) (queue st') /\
  (kd_strategy c = "word_and_seq_level"%string \/ kd_strategy c = "batch_level"%string ->
   queue st' = queue st) /\
  (kd_strategy c = "global_level"%string ->
   exists q0 golden nll,
     queue st = QueueTensor q0 /\
     label_smoothed_nll_loss (fst (get_lprobs_and_target c m s))
       (snd (get_lprobs_and_target c m s)) (eps c) (Some (padding_idx c)) false
       = ok (golden, nll) /\
     queue st' = QueueTensor (push (kd_queue_size c) q0 (view1 nll))).
Proof.
  intros H. apply compute_loss_inv in H as (loc & out & Hl & _ & <-).
  apply token_level_inv in Hl
    as (t & tl & g & n & gt & nt & _ & _ & Hls & _ & _ & _ & Hcases).
  destruct Hcases as [(Hws & kd & al & k & g0 & _ & Hst & _)
                     |[(Had & Hb & kept & _ & Hst & _)
                     |[(Had & Hg & q0 & gate & kd & kept & Hq & Hst & _)
                      |(Had & Hm & kd & st1 & total & _ & Hsel & Hst & _)]]].
  - assert (Hq : queue (l_state loc) = queue st).
    { destruct (use_adaptive_weightage c).
      - destruct Hst as (b & a & _ & _ & ->). reflexivity.
      - by rewrite Hst. }
    split; [intros Had; rewrite Had in Hst; by rewrite Hst|].
    split; [rewrite Hq; apply same_queue_shape_refl|].
    split; [intros _; exact Hq|].
    intros Hg. rewrite Hws in Hg. discriminate Hg.
  - rewrite Hst. split; [reflexivity|].
    split; [apply same_queue_shape_refl|]. split; [reflexivity|].
    intros Hg. rewrite Hb in Hg. discriminate Hg.
  - rewrite Hst. simpl. split; [reflexivity|].
    split; [by rewrite Hq|].
    split; [intros [Hx|Hx]; rewrite Hg in Hx; discriminate Hx|].
    intros _. by exists q0, g, n.
  - apply global_multi_level_select_frame in Hsel as [Ha Hq].
    rewrite Hst. split; [by intros _|]. split; [exact Hq|].
    split; [intros [Hx|Hx]; rewrite Hm in Hx; discriminate Hx|].
    intros Hg. rewrite Hm in Hg. discriminate Hg.
Qed.

Section Adaptive.

Hypothesis texp_nonneg : forall x, 0 <= texp x.
Hypothesis texp_mono : forall x y, x <= y -> texp x <= texp y.
Hypothesis texp_zero : 0 < texp 0.

Lemma texp_sum_pos (x : Q) : 0 < texp x + texp (- x).
Proof using texp_nonneg texp_mono texp_zero.
  pose proof (texp_nonneg x). pose proof (texp_nonneg (- x)).
  destruct (Qlt_le_dec x 0) as [Hx|Hx].
  - assert (texp 0 <= texp (- x)) by (apply texp_mono; lra). lra.
  - assert (texp 0 <= texp x) by (apply texp_mono; lra). lra.
Qed.

Lemma relu_tanh_range (x : Q) :
  0 <= relu (tanh texp x) /\ relu (tanh texp x) <= 1.
Proof using texp_nonneg texp_mono texp_zero.
  unfold relu. destruct (Qle_bool (tanh texp x) 0) eqn:E.
  - split; lra.
  - split.
    + destruct (Qlt_le_dec 0 (tanh texp x)) as [H|H]; [lra|].
      apply Qle_bool_iff in H. congruence.
    + unfold tanh. pose proof (texp_nonneg x). pose proof (texp_nonneg (- x)).
      pose proof (texp_sum_pos x).
      apply Qle_shift_div_r; lra.
Qed.

Lemma relu_tanh_zero (x : Q) : x <= 0 -> relu (tanh texp x) = 0.
Proof using texp_nonneg texp_mono texp_zero.
  intros Hx. unfold relu.
  replace (Qle_bool (tanh texp x) 0) with true; [reflexivity|].
  symmetry. apply Qle_bool_iff. unfold tanh.
  pose proof (texp_sum_pos x).
  assert (texp x <= texp (- x)) by (apply texp_mono; lra).
  apply Qle_shift_div_r; lra.
Qed.

Lemma relu_tanh_saturated (x : Q) : texp (- x) == 0 -> relu (tanh texp x) == 1.
Proof using texp_nonneg texp_mono texp_zero.
  intros Hx.
  pose proof (texp_sum_pos x) as Hs.
  assert (Ht : tanh texp x == 1).
  { unfold tanh. rewrite Hx. rewrite Hx in Hs. field. lra. }
  unfold relu. destruct (Qle_bool (tanh texp x) 0) eqn:E; [|exact Ht].
  apply Qle_bool_iff in E. lra.
Qed.

(** X18. With [use_adaptive_weightage], for a runtime whose exponential is
    nowhere negative, monotone and positive at 0 (it may vanish on large
    negative arguments), a successful [compute_loss] leaves in [self.alpha]
    one weight per token, [relu(tanh(beta * (nll_teacher - nll_student)))]:
    every weight is at least 0 and at most 1; it is exactly 1 where the
    exponential of the negated argument vanishes; and (for [beta >= 0]) it is
    0 wherever the teacher's NLL is not above the student's. *)
Theorem adaptive_alpha_in_unit_interval c st m s epoch mp loss extra st' :
  use_adaptive_weightage c = true ->
  compute_loss texp tlog c st m s epoch mp = ok (loss, extra, st') ->
  exists b a tl golden nll gt nllt,
    beta c = Some b /\
    teacher_lprobs s = Some tl /\
    label_smoothed_nll_loss (fst (get_lprobs_and_target c m s))
      (snd (get_lprobs_and_target c m s)) (eps c) (Some (padding_idx c)) false
      = ok (golden, nll) /\
    label_smoothed_nll_loss (Tensor2 (vocab m) (concat tl))
      (snd (get_lprobs_and_target c m s)) (eps c) (Some (padding_idx c)) false
      = ok (gt, nllt) /\
    alpha st' = Some (Vector a) /\
    a = map (fun p => relu (tanh texp (b * (fst p - snd p))))
            (combine (view1 nllt) (view1 nll)) /\
    length a = length (view1 nll) /\
    Forall (fun x => 0 <= x /\ x <= 1) a /\
    Forall (fun p => texp (- (b * (fst p - snd p))) == 0 ->
                     relu (tanh texp (b * (fst p - snd p))) == 1)
           (combine (view1 nllt) (view1 nll)) /\
    (0 <= b ->
     Forall (fun p => fst p <= snd p -> relu (tanh texp (b * (fst p - snd p))) = 0)
            (combine (view1 nllt) (view1 nll))).
Proof using texp_nonneg texp_mono texp_zero.
  intros Had H. apply compute_loss_inv in H as (loc & out & Hl & _ & <-).
  apply token_level_inv in Hl
    as (t & tl & g & n & gt & nt & _ & Htl & Hls & Hlt & _ & _ & Hcases).
  rewrite Had in Hcases.
  destruct Hcases as [(_ & kd & al & k & g0 & _ & (b & a & Hb & Hz & Hst) & _)
                     |[(? & _)|[(? & _)|(? & _)]]]; try discriminate.
  apply zip_same_inv in Hz as [Hlen ->].
  eexists b, _, tl, g, n, gt, nt.
  split; [exact Hb|]. split; [exact Htl|]. split; [exact Hls|].
  split; [exact Hlt|]. split; [by rewrite Hst|]. split; [reflexivity|].
  split; [rewrite length_map, length_combine; lia|].
  split; [|split].
  - apply List.Forall_forall. intros x Hx.
    apply in_map_iff in Hx as (p & <- & _). apply relu_tanh_range.
  - apply List.Forall_forall. intros p _ Hp. by apply relu_tanh_saturated.
  - intros Hb0. apply List.Forall_forall. intros p _ Hp.
    apply relu_tanh_zero.
    assert (Hm : 0 <= b * (p.2 - p.1)) by (apply Qmult_le_0_compat; lra).
    lra.
Qed.

End Adaptive.


Lemma add_if_keeps name x acc acc' key :
  add_if name x acc = ok acc' -> key <> name -> snd acc' !! key = snd acc !! key.
Proof.
  unfold add_if. intros H Hne.
  destruct x as [q|]; [|by injection H as <-].
  destruct (Qeq_bool q 0); [by injection H as <-|].
  bind_inv H as E. injection H as <-. simpl.
  by rewrite lookup_insert_ne.
Qed.

Lemma uncertainty_return_keeps l a dec f lw loss extra key :
  uncertainty_return texp tlog l a dec f lw = ok (Return loss extra) ->
  ~ In key aux_keys -> extra !! key = l_extra l !! key.
Proof.
  unfold uncertainty_return. intros H Hk.
  repeat (bind_inv H). injection H as _ <-.
  assert (Hne : forall k', In k' aux_keys -> k' <> key)
    by (intros k' Hin ->; contradiction).
  unfold aux_keys in Hne. simpl in Hne.
  destruct lw; rewrite !lookup_insert_ne by (apply Hne; tauto); reflexivity.
Qed.

Lemma loss_type_block_return_keeps c l e mp at_ tat loss extra key :
  loss_type_block texp tlog c l e mp at_ tat = ok (Return loss extra) ->
  ~ In key aux_keys -> extra !! key = l_extra l !! key.
Proof.
  unfold loss_type_block. intros H Hk.
  destruct (String.eqb (loss_type c) "mse").
  { repeat (bind_inv H). discriminate H. }
  destruct (String.eqb (loss_type c) "mse_uncertainty").
  { bind_inv H as Ea. bind_inv H as Ev. bind_inv H as Ed.
    eapply uncertainty_return_keeps; eauto. }
  destruct (String.eqb (loss_type c) "regression").
  { bind_inv H as Ea. bind_inv H as Ev.
    destruct (decoder_kd c); discriminate H. }
  destruct (String.eqb (loss_type c) "kld_uncertainty").
  { bind_inv H as Eg. bind_inv H as Ea. bind_inv H as Ed.
    eapply uncertainty_return_keeps; eauto. }
  destruct (String.eqb (loss_type c) "kld").
  { repeat (bind_inv H). discriminate H. }
  destruct (String.eqb (loss_type c) "decoder").
  { repeat (bind_inv H). discriminate H. }
  destruct (String.eqb (loss_type c) "minilm").
  { repeat (bind_inv H). discriminate H. }
  discriminate H.
Qed.

Lemma auxiliary_return_keeps c l epoch mp loss extra key :
  auxiliary texp tlog c l epoch mp = ok (Return loss extra) ->
  ~ In key aux_keys -> extra !! key = l_extra l !! key.
Proof.
  unfold auxiliary. intros H Hk.
  destruct epoch as [e|]; [|discriminate H].
  destruct (e =? 0)%Z; [discriminate H|].
  destruct (attn mp) as [at_|]; [|discriminate H].
  destruct (teacher_attn mp) as [tat|]; [|discriminate H].
  destruct (e <=? 100)%Z.
  - eapply loss_type_block_return_keeps; eauto.
  - repeat (bind_inv H).
    repeat match type of H with
           | context [match ?o with Some _ => _ | None => _ end] => destruct o
           end; discriminate H.
Qed.

(** Whatever follows the KD strategy leaves the other entries of [extra]
    as the strategy wrote them. *)
Lemma compute_loss_keeps c st m s epoch mp loss extra st' :
  compute_loss texp tlog c st m s epoch mp = ok (loss, extra, st') ->
  exists loc,
    token_level texp tlog c st m s = ok loc /\
    forall key, ~ In key aux_keys -> extra !! key = l_extra loc !! key.
Proof.
  unfold compute_loss. intros H.
  bind_inv H as El. bind_inv H as Ea. exists l. split; [reflexivity|].
  intros key Hk.
  assert (Hne : forall k', In k' aux_keys -> key <> k')
    by (intros k' Hin ->; contradiction).
  unfold aux_keys in Hne. simpl in Hne.
  destruct o as [a|lo ex].
  - bind_inv H as E1. bind_inv H as E2. bind_inv H as E3.
    bind_inv H as E4. bind_inv H as E5. injection H as _ <- _.
    rewrite (add_if_keeps _ _ _ _ key E5) by (apply Hne; tauto).
    rewrite (add_if_keeps _ _ _ _ key E4) by (apply Hne; tauto).
    rewrite (add_if_keeps _ _ _ _ key E3) by (apply Hne; tauto).
    rewrite (add_if_keeps _ _ _ _ key E2) by (apply Hne; tauto).
    rewrite (add_if_keeps _ _ _ _ key E1) by (apply Hne; tauto).
    reflexivity.
  - injection H as _ <- _. eapply auxiliary_return_keeps; eauto.
Qed.

Lemma token_level_logs c st m s loc :
  token_level texp tlog c st m s = ok loc ->
  exists golden nll tl gt nllt,
    label_smoothed_nll_loss (fst (get_lprobs_and_target c m s))
      (snd (get_lprobs_and_target c m s)) (eps c) (Some (padding_idx c)) false
      = ok (golden, nll) /\
    teacher_lprobs s = Some tl /\
    label_smoothed_nll_loss (Tensor2 (vocab m) (concat tl))
      (snd (get_lprobs_and_target c m s)) (eps c) (Some (padding_idx c)) false
      = ok (gt, nllt) /\
    l_extra loc !! "golden_loss"%string = Some (Scalar (tsum (view1 golden))) /\
    l_extra loc !! "nll_loss_student"%string = Some (Scalar (tsum (view1 nll))) /\
    l_extra loc !! "nll_loss_teacher"%string = Some (Scalar (tsum (view1 nllt))).
Proof.
  intros Hl. apply token_level_inv in Hl
    as (t & tl & g & n & gt & nt & _ & Htl & Hls & Hlt & _ & _ & Hcases).
  exists g, n, tl, gt, nt.
  split; [exact Hls|]. split; [exact Htl|]. split; [exact Hlt|].
  assert (Hlook : forall kd : Q,
            log_kd (<["golden_loss"%string := Scalar (tsum (view1 g))]> ∅)
              kd (tsum (view1 n)) (tsum (view1 nt)) !! "golden_loss"%string
            = Some (Scalar (tsum (view1 g))) /\
            log_kd (<["golden_loss"%string := Scalar (tsum (view1 g))]> ∅)
              kd (tsum (view1 n)) (tsum (view1 nt)) !! "nll_loss_student"%string
            = Some (Scalar (tsum (view1 n))) /\
            log_kd (<["golden_loss"%string := Scalar (tsum (view1 g))]> ∅)
              kd (tsum (view1 n)) (tsum (view1 nt)) !! "nll_loss_teacher"%string
            = Some (Scalar (tsum (view1 nt)))).
  { intros kd0. destruct (log_kd_lookup
        (<["golden_loss"%string := Scalar (tsum (view1 g))]> ∅) kd0
        (tsum (view1 n)) (tsum (view1 nt))) as (_ & Hs1 & Ht1 & Hg1).
    split; [|split; assumption]. rewrite Hg1. by rewrite lookup_insert_eq. }
  destruct Hcases as [(_ & kd & al & k & g0 & _ & _ & _ & _ & _ & _ & Hex & _)
                     |[(_ & _ & kept & _ & _ & _ & Hex & _)
                     |[(_ & _ & q0 & gate & kd & kept & _ & _ & _ & _ & _ & _ & Hex & _)
                      |(_ & _ & kd & st1 & total & _ & _ & _ & _ & Hex & _)]]];
    rewrite Hex; apply Hlook.
Qed.

(** X19. In the logging output of a successful [forward], [sample_size] is
    the sentence count under [sentence_avg] and [ntokens] otherwise, [loss]
    is the loss returned, and [golden_loss], [nll_loss_student] and
    [nll_loss_teacher] are the sums of the per-token golden loss, student NLL
    and teacher NLL: the fall-back values (0, and the loss for
    [nll_loss_student]) are never used for them.  [n_correct] and [total] are
    present exactly when [report_accuracy] is set. *)
Theorem forward_logging c st m s epoch loss sample_size logging_output st' :
  forward texp tlog c st m s epoch = ok (loss, sample_size, logging_output, st') ->
  sample_size = (if sentence_avg c then Z.of_nat (length (target s)) else ntokens s) /\
  logging_output !! "sample_size"%string = Some (Scalar (inject_Z sample_size)) /\
  logging_output !! "loss"%string = Some loss /\
  (exists golden nll tl gt nllt,
     label_smoothed_nll_loss (fst (get_lprobs_and_target c m s))
       (snd (get_lprobs_and_target c m s)) (eps c) (Some (padding_idx c)) false
       = ok (golden, nll) /\
     teacher_lprobs s = Some tl /\
     label_smoothed_nll_loss (Tensor2 (vocab m) (concat tl))
       (snd (get_lprobs_and_target c m s)) (eps c) (Some (padding_idx c)) false
       = ok (gt, nllt) /\
     logging_output !! "golden_loss"%string = Some (Scalar (tsum (view1 golden))) /\
     logging_output !! "nll_loss_student"%string = Some (Scalar (tsum (view1 nll))) /\
     logging_output !! "nll_loss_teacher"%string = Some (Scalar (tsum (view1 nllt)))) /\
  (if report_accuracy c
   then exists n_correct total,
          compute_accuracy c m s = ok (n_correct, total) /\
          logging_output !! "n_correct"%string = Some (Scalar (inject_Z n_correct)) /\
          logging_output !! "total"%string = Some (Scalar (inject_Z total))
   else logging_output !! "n_correct"%string = None /\
        logging_output !! "total"%string = None).
Proof.
  intros H. unfold forward in H.
  bind_inv H as Ec. destruct p as [[lo ex] st1].
  apply compute_loss_keeps in Ec as (loc & Hl & Hkeep).
  apply token_level_logs in Hl
    as (g & n & tl & gt & nt & Hls & Htl & Hlt & Hg & Hn & Ht).
  rewrite <- Hkeep in Hg, Hn, Ht
    by (unfold aux_keys; simpl; intros Hin; intuition discriminate).
  bind_inv H as Elog. injection H as <- <- <- <-.
  split; [reflexivity|].
  assert (Hbase : forall lg : gmap string tval,
            (lg !! "sample_size"%string
             = Some (Scalar (inject_Z (if sentence_avg c
                                       then Z.of_nat (length (target s))
                                       else ntokens s))) /\
             lg !! "loss"%string = Some lo /\
             lg !! "golden_loss"%string = Some (Scalar (tsum (view1 g))) /\
             lg !! "nll_loss_student"%string = Some (Scalar (tsum (view1 n))) /\
             lg !! "nll_loss_teacher"%string = Some (Scalar (tsum (view1 nt)))) ->
            lg !! "sample_size"%string
            = Some (Scalar (inject_Z (if sentence_avg c
                                      then Z.of_nat (length (target s))
                                      else ntokens s))) /\
            lg !! "loss"%string = Some lo /\
            exists golden nll tl0 gt0 nllt,
              label_smoothed_nll_loss (fst (get_lprobs_and_target c m s))
                (snd (get_lprobs_and_target c m s)) (eps c) (Some (padding_idx c)) false
                = ok (golden, nll) /\
              teacher_lprobs s = Some tl0 /\
              label_smoothed_nll_loss (Tensor2 (vocab m) (concat tl0))
                (snd (get_lprobs_and_target c m s)) (eps c) (Some (padding_idx c)) false
                = ok (gt0, nllt) /\
              lg !! "golden_loss"%string = Some (Scalar (tsum (view1 golden))) /\
              lg !! "nll_loss_student"%string = Some (Scalar (tsum (view1 nll))) /\
              lg !! "nll_loss_teacher"%string = Some (Scalar (tsum (view1 nllt)))).
  { intros lg (H1 & H2 & H3 & H4 & H5).
    split; [exact H1|]. split; [exact H2|].
    exists g, n, tl, gt, nt. auto 10. }
  assert (Hextra_g : extra_or ex "golden_loss" (Scalar 0) = Scalar (tsum (view1 g)))
    by (unfold extra_or; by rewrite Hg).
  assert (Hextra_n : extra_or ex "nll_loss_student" lo = Scalar (tsum (view1 n)))
    by (unfold extra_or; by rewrite Hn).
  assert (Hextra_t : extra_or ex "nll_loss_teacher" (Scalar 0) = Scalar (tsum (view1 nt)))
    by (unfold extra_or; by rewrite Ht).
  destruct (report_accuracy c).
  - bind_inv Elog as Eacc. injection Elog as <-. destruct p as [nc tot].
    match goal with
    | |- ?lg !! _ = _ /\ _ => destruct (Hbase lg) as (H1 & H2 & H3)
    end.
    { repeat split; lookup_log; congruence. }
    split; [exact H1|]. split; [exact H2|]. split; [exact H3|].
    exists nc, tot. split; [reflexivity|]. split; lookup_log; reflexivity.
  - injection Elog as <-.
    match goal with
    | |- ?lg !! _ = _ /\ _ => destruct (Hbase lg) as (H1 & H2 & H3)
    end.
    { repeat split; lookup_log; congruence. }
    split; [exact H1|]. split; [exact H2|]. split; [exact H3|].
    split; lookup_log; reflexivity.
Qed.


Lemma auxiliary_in_schedule c l e mp at_ tat :
  (1 <= e <= 100)%Z -> attn mp = Some at_ -> teacher_attn mp = Some tat ->
  auxiliary texp tlog c l (Some e) mp = loss_type_block texp tlog c l e mp at_ tat.
Proof.
  intros He Ha Ht. unfold auxiliary. rewrite Ha, Ht.
  replace (e =? 0)%Z with false by (symmetry; apply Z.eqb_neq; lia).
  replace (e <=? 100)%Z with true by (symmetry; apply Z.leb_le; lia).
  reflexivity.
Qed.

Lemma decoder_terms_both c e mp terms dec :
  (decoder_kd c && self_kd c && cross_kd c)%bool = false ->
  (terms = decoder_mse c e mp \/ terms = decoder_kld texp tlog c e mp) ->
  decoder_if c terms = ok dec ->
  fst dec = None \/ snd dec = None.
Proof.
  intros Hf Ht H. unfold decoder_if in H.
  destruct (decoder_kd c); [|injection H as <-; by left].
  simpl in Hf.
  destruct Ht as [-> | ->]; unfold decoder_mse, decoder_kld in H;
    destruct (self_kd c), (cross_kd c); simpl in Hf, H; try discriminate Hf;
    repeat (bind_inv H); injection H as <-; simpl; auto.
Qed.

Lemma uncertainty_return_needs_both l a dec f lw :
  fst dec = None \/ snd dec = None ->
  uncertainty_return texp tlog l a dec f lw = raise TypeError.
Proof.
  intros H. unfold uncertainty_return.
  destruct dec as [[ds|] [dc|]]; simpl in *; destruct H; try discriminate; reflexivity.
Qed.

(** X20. In the loss types [mse_uncertainty] and [kld_uncertainty], for an
    epoch from 1 to 100 with both encoder attention maps present,
    [compute_loss] returns a result only if [decoder_kd], [self_kd] and
    [cross_kd] are all set: otherwise a decoder term is [None] when the three
    terms are added. *)
Theorem uncertainty_modes_need_decoder_terms c st m s e mp at_ tat :
  (1 <= e <= 100)%Z ->
  attn mp = Some at_ -> teacher_attn mp = Some tat ->
  loss_type c = "mse_uncertainty"%string \/ loss_type c = "kld_uncertainty"%string ->
  (decoder_kd c && self_kd c && cross_kd c)%bool = false ->
  forall r, compute_loss texp tlog c st m s (Some e) mp <> ok r.
Proof.
  intros He Ha Ht Hlt Hf [[loss extra] st'] H.
  apply compute_loss_inv in H as (loc & out & _ & Haux & _).
  rewrite (auxiliary_in_schedule c loc e mp at_ tat He Ha Ht) in Haux.
  unfold loss_type_block in Haux.
  destruct Hlt as [Hlt|Hlt]; rewrite Hlt in Haux; simpl in Haux.
  - bind_inv Haux as E1. bind_inv Haux as E2. bind_inv Haux as E3.
    rewrite uncertainty_return_needs_both in Haux; [discriminate Haux|].
    exact (decoder_terms_both c e mp _ p Hf (or_introl eq_refl) E3).
  - bind_inv Haux as E1. bind_inv Haux as E2. bind_inv Haux as E3.
    rewrite uncertainty_return_needs_both in Haux; [discriminate Haux|].
    exact (decoder_terms_both c e mp _ p Hf (or_intror eq_refl) E3).
Qed.

(** X21. For an epoch from 1 to 100 with both encoder attention maps
    present, [compute_loss] never returns a result in the loss type [minilm],
    nor in [regression] with [decoder_kd]: both read the local
    [decoder_attn], which is never assigned.  In [minilm], with both
    value-relation maps present, the exception is [UnboundLocalError]. *)
Theorem unassigned_decoder_attn_modes_never_return c st m s e mp at_ tat :
  (1 <= e <= 100)%Z ->
  attn mp = Some at_ -> teacher_attn mp = Some tat ->
  loss_type c = "minilm"%string \/
  (loss_type c = "regression"%string /\ decoder_kd c = true) ->
  (forall r, compute_loss texp tlog c st m s (Some e) mp <> ok r) /\
  (forall loc,
     token_level texp tlog c st m s = ok loc ->
     m_value_relation mp <> None -> m_teacher_value_relation mp <> None ->
     loss_type c = "minilm"%string ->
     compute_loss texp tlog c st m s (Some e) mp = raise UnboundLocalError).
Proof.
  intros He Ha Ht Hlt. split.
  - intros [[loss extra] st'] H.
    apply compute_loss_inv in H as (loc & out & _ & Haux & _).
    rewrite (auxiliary_in_schedule c loc e mp at_ tat He Ha Ht) in Haux.
    destruct Hlt as [Hlt | [Hlt Hd]].
    + destruct (loss_type_block_minilm texp tlog c loc e mp at_ tat Hlt) as [Hx|Hx];
        rewrite Hx in Haux; discriminate Haux.
    + unfold loss_type_block in Haux. rewrite Hlt, Hd in Haux. simpl in Haux.
      bind_inv Haux as E1. bind_inv Haux as E2. discriminate Haux.
  - intros loc Hl Hv Htv Hm. unfold compute_loss. rewrite Hl, bind_ok.
    rewrite (auxiliary_in_schedule c loc e mp at_ tat He Ha Ht).
    unfold loss_type_block. rewrite Hm. simpl.
    destruct (m_value_relation mp); [|congruence].
    destruct (m_teacher_value_relation mp); [|congruence].
    reflexivity.
Qed.

(** X22. When the student's or the teacher's encoder attention map is
    missing, or (up to epoch 100) the loss type is none of the seven known
    names, the epoch has no effect: [compute_loss] returns what it returns
    without an epoch, and no representation term is added. *)
Theorem epoch_without_effect c st m s e mp :
  attn mp = None \/ teacher_attn mp = None \/
  ((e <= 100)%Z /\
   Forall (fun name => loss_type c <> name)
          ["mse"; "mse_uncertainty"; "regression"; "kld_uncertainty"; "kld";
           "decoder"; "minilm"]%string) ->
  compute_loss texp tlog c st m s (Some e) mp = compute_loss texp tlog c st m s None mp.
Proof.
  intros H. unfold compute_loss.
  destruct (token_level texp tlog c st m s) as [err|loc]; [reflexivity|].
  cbn [bind].
  assert (Haux : auxiliary texp tlog c loc (Some e) mp = ok (Continue no_aux)).
  { unfold auxiliary. destruct (e =? 0)%Z; [reflexivity|].
    destruct H as [-> | [H | [He Hlt]]]; [reflexivity | |].
    - rewrite H. by destruct (attn mp).
    - destruct (attn mp) as [at_|]; [|reflexivity].
      destruct (teacher_attn mp) as [tat|]; [|reflexivity].
      replace (e <=? 100)%Z with true by (symmetry; apply Z.leb_le; lia).
      unfold loss_type_block.
      repeat (match goal with
              | H : Forall _ (_ :: _) |- _ => inversion H; subst; clear H
              end).
      repeat (match goal with
              | H : loss_type c <> ?n |- context [String.eqb (loss_type c) ?n] =>
                  destruct (String.eqb_spec (loss_type c) n); [contradiction|]
              end).
      reflexivity. }
  by rewrite Haux.
Qed.

End TokenLevel.

Lemma teacher_lprobs_required_witness :
  let cs := Criterion.__init__ (Examples.a_task "word_and_seq_level")
              (Examples.a_config 20000 None "mse" false) in
  (forall r, Criterion.forward Examples.exp_q Examples.log_q (fst cs) (snd cs)
               Examples.one_token_model Runs.sample_without_teacher_lprobs None
             <> ok r) /\
  (forall teacher r0,
     Criterion.teacher_output Runs.sample_without_teacher_lprobs = Some teacher ->
     Criterion.label_smoothed_nll_loss
       (fst (Criterion.get_lprobs_and_target (fst cs) Examples.one_token_model
               Runs.sample_without_teacher_lprobs))
       (snd (Criterion.get_lprobs_and_target (fst cs) Examples.one_token_model
               Runs.sample_without_teacher_lprobs))
       (Criterion.eps (fst cs)) (Some (Criterion.padding_idx (fst cs))) false = ok r0 ->
     Criterion.forward Examples.exp_q Examples.log_q (fst cs) (snd cs)
       Examples.one_token_model Runs.sample_without_teacher_lprobs None
     = raise UnboundLocalError).
Proof.
  apply (teacher_lprobs_required Examples.exp_q Examples.log_q
           (fst (Criterion.__init__ (Examples.a_task "word_and_seq_level")
                   (Examples.a_config 20000 None "mse" false)))
           (snd (Criterion.__init__ (Examples.a_task "word_and_seq_level")
                   (Examples.a_config 20000 None "mse" false)))
           Examples.one_token_model Runs.sample_without_teacher_lprobs None).
  reflexivity.
Defined.

Lemma strategy_mismatch_raises_ValueError_witness :
  let cs := Criterion.__init__ (Examples.a_task "sentence_level")
              (Examples.a_config 20000 None "mse" false) in
  Criterion.forward Examples.exp_q Examples.log_q (fst cs) (snd cs)
    Examples.one_token_model Examples.one_token_sample None
  = raise ValueError.
Proof.
  intros cs.
  destruct (Criterion.label_smoothed_nll_loss
              (fst (Criterion.get_lprobs_and_target (fst cs) Examples.one_token_model
                      Examples.one_token_sample))
              (snd (Criterion.get_lprobs_and_target (fst cs) Examples.one_token_model
                      Examples.one_token_sample))
              (Criterion.eps (fst cs)) (Some (Criterion.padding_idx (fst cs))) false)
    as [e0|r0] eqn:E0.
  { exfalso. vm_compute in E0. discriminate E0. }
  destruct (Criterion.label_smoothed_nll_loss
              (Tensor2 (Criterion.vocab Examples.one_token_model)
                 (concat [[[-(3 # 10); -(13 # 10)]]]%Q))
              (snd (Criterion.get_lprobs_and_target (fst cs) Examples.one_token_model
                      Examples.one_token_sample))
              (Criterion.eps (fst cs)) (Some (Criterion.padding_idx (fst cs))) false)
    as [e1|r1] eqn:E1.
  { exfalso. vm_compute in E1. discriminate E1. }
  apply (strategy_mismatch_raises_ValueError Examples.exp_q Examples.log_q
           (fst cs) (snd cs) Examples.one_token_model Examples.one_token_sample None
           [[[1; 0]]]%Q [[[-(3 # 10); -(13 # 10)]]]%Q r0 r1).
  - reflexivity.
  - reflexivity.
  - exact E0.
  - exact E1.
  - discriminate.
  - right. repeat split; discriminate.
Defined.

Lemma loss_is_mix_of_logged_terms_witness :
  let cs := Criterion.__init__ (Examples.a_task "global_level")
              (Examples.a_config 20000 None "mse" false) in
  exists loss extra st' g k v,
    Criterion.compute_loss Examples.exp_q Examples.log_q (fst cs) (snd cs)
      Examples.one_token_model Examples.one_token_sample None Runs.no_maps
      = ok (loss, extra, st') /\
    extra !! "golden_loss"%string = Some (Torch.Scalar g) /\
    extra !! "kd_loss"%string = Some (Torch.Scalar k) /\
    loss = Torch.Scalar v /\
    (v == (1 - (1 # 2)) * g + (1 # 2) * k)%Q /\
    ((1 # 2 == 0)%Q -> (v == g)%Q) /\
    ((1 # 2 == 1)%Q -> (v == k)%Q).
Proof.
  intros cs.
  destruct (Criterion.compute_loss Examples.exp_q Examples.log_q (fst cs) (snd cs)
              Examples.one_token_model Examples.one_token_sample None Runs.no_maps)
    as [e|[[loss extra] st']] eqn:E.
  { exfalso.
    assert (Hr : Laws.returned
                   (Criterion.compute_loss Examples.exp_q Examples.log_q (fst cs) (snd cs)
                      Examples.one_token_model Examples.one_token_sample None Runs.no_maps)
                 = true) by (vm_compute; reflexivity).
    rewrite E in Hr. discriminate Hr. }
  destruct (loss_is_mix_of_logged_terms Examples.exp_q Examples.log_q
              (fst cs) (snd cs) Examples.one_token_model Examples.one_token_sample
              Runs.no_maps (1 # 2)%Q loss extra st' eq_refl eq_refl E)
    as (g & k & v & H).
  exists loss, extra, st', g, k, v. split; [reflexivity | exact H].
Defined.

Lemma compute_loss_state_frame_witness :
  let cs := Criterion.__init__ (Examples.a_task "global_level")
              (Examples.a_config 20000 None "mse" false) in
  exists loss extra st',
    Criterion.compute_loss Examples.exp_q Examples.log_q (fst cs) (snd cs)
      Examples.one_token_model Examples.one_token_sample None Runs.no_maps
      = ok (loss, extra, st') /\
    (Criterion.use_adaptive_weightage (fst cs) = false ->
     Criterion.alpha st' = Criterion.alpha (snd cs)) /\
    Laws.same_queue_shape (Criterion.queue (snd cs)) (Criterion.queue st') /\
    (Criterion.kd_strategy (fst cs) = "word_and_seq_level"%string \/
     Criterion.kd_strategy (fst cs) = "batch_level"%string ->
     Criterion.queue st' = Criterion.queue (snd cs)) /\
    (Criterion.kd_strategy (fst cs) = "global_level"%string ->
     exists q0 golden nll,
       Criterion.queue (snd cs) = Criterion.QueueTensor q0 /\
       Criterion.label_smoothed_nll_loss
         (fst (Criterion.get_lprobs_and_target (fst cs) Examples.one_token_model
                 Examples.one_token_sample))
         (snd (Criterion.get_lprobs_and_target (fst cs) Examples.one_token_model
                 Examples.one_token_sample))
         (Criterion.eps (fst cs)) (Some (Criterion.padding_idx (fst cs))) false
         = ok (golden, nll) /\
       Criterion.queue st'
       = Criterion.QueueTensor
           (Criterion.push (Criterion.kd_queue_size (fst cs)) q0 (Criterion.view1 nll))).
Proof.
  intros cs.
  destruct (Criterion.compute_loss Examples.exp_q Examples.log_q (fst cs) (snd cs)
              Examples.one_token_model Examples.one_token_sample None Runs.no_maps)
    as [e|[[loss extra] st']] eqn:E.
  { exfalso.
    assert (Hr : Laws.returned
                   (Criterion.compute_loss Examples.exp_q Examples.log_q (fst cs) (snd cs)
                      Examples.one_token_model Examples.one_token_sample None Runs.no_maps)
                 = true) by (vm_compute; reflexivity).
    rewrite E in Hr. discriminate Hr. }
  exists loss, extra, st'. split; [reflexivity|].
  exact (compute_loss_state_frame Examples.exp_q Examples.log_q
           (fst cs) (snd cs) Examples.one_token_model Examples.one_token_sample
           None Runs.no_maps loss extra st' E).
Defined.

Lemma monotone_exp_pos (x : Q) : (0 < Runs.monotone_exp x)%Q.
Proof.
  unfold Runs.monotone_exp. destruct (Qle_bool 0 x) eqn:E.
  - apply Qle_bool_iff in E. lra.
  - apply Qle_bool_false in E. apply Qlt_shift_div_l; lra.
Qed.

Lemma monotone_exp_mono (x y : Q) :
  (x <= y)%Q -> (Runs.monotone_exp x <= Runs.monotone_exp y)%Q.
Proof.
  intros Hxy. unfold Runs.monotone_exp.
  destruct (Qle_bool 0 x) eqn:Ex, (Qle_bool 0 y) eqn:Ey;
    repeat match goal with
           | H : Qle_bool _ _ = true |- _ => apply Qle_bool_iff in H
           | H : Qle_bool _ _ = false |- _ => apply Qle_bool_false in H
           end.
  - lra.
  - lra.
  - apply Qle_trans with 1%Q; [|lra]. apply Qle_shift_div_r; lra.
  - apply Qle_shift_div_l; [lra|].
    assert (Heq : (1 / (1 - x) * (1 - y) == (1 - y) / (1 - x))%Q)
      by (unfold Qdiv; ring).
    rewrite Heq.
    apply Qle_shift_div_r; lra.
Qed.

Lemma underflowing_exp_nonneg (x : Q) : (0 <= Runs.underflowing_exp x)%Q.
Proof.
  unfold Runs.underflowing_exp. destruct (Qle_bool (-(18)) x); [|apply Qle_refl].
  apply Qlt_le_weak, monotone_exp_pos.
Qed.

Lemma underflowing_exp_mono (x y : Q) :
  (x <= y)%Q -> (Runs.underflowing_exp x <= Runs.underflowing_exp y)%Q.
Proof.
  intros Hxy. unfold Runs.underflowing_exp.
  destruct (Qle_bool (-(18)) x) eqn:Ex, (Qle_bool (-(18)) y) eqn:Ey;
    repeat match goal with
           | H : Qle_bool _ _ = true |- _ => apply Qle_bool_iff in H
           | H : Qle_bool _ _ = false |- _ => apply Qle_bool_false in H
           end.
  - by apply monotone_exp_mono.
  - lra.
  - apply Qlt_le_weak, monotone_exp_pos.
  - apply Qle_refl.
Qed.

Lemma underflowing_exp_zero : (0 < Runs.underflowing_exp 0)%Q.
Proof. reflexivity. Qed.

Lemma adaptive_alpha_in_unit_interval_witness :
  let cs := Criterion.__init__ (Examples.a_task "word_and_seq_level")
              Runs.adaptive_config in
  let m := Runs.five_token_model in
  let s := Runs.five_token_sample in
  exists loss extra st' b a tl golden nll gt nllt,
    Criterion.compute_loss Runs.underflowing_exp Examples.log_q (fst cs) (snd cs)
      m s None Runs.no_maps
      = ok (loss, extra, st') /\
    Forall2 Qeq a [0; 3 # 5; 0; 0; 1]%Q /\
    Criterion.beta (fst cs) = Some b /\
    Criterion.teacher_lprobs s = Some tl /\
    Criterion.label_smoothed_nll_loss
      (fst (Criterion.get_lprobs_and_target (fst cs) m s))
      (snd (Criterion.get_lprobs_and_target (fst cs) m s))
      (Criterion.eps (fst cs)) (Some (Criterion.padding_idx (fst cs))) false
      = ok (golden, nll) /\
    Criterion.label_smoothed_nll_loss
      (Tensor2 (Criterion.vocab m) (concat tl))
      (snd (Criterion.get_lprobs_and_target (fst cs) m s))
      (Criterion.eps (fst cs)) (Some (Criterion.padding_idx (fst cs))) false
      = ok (gt, nllt) /\
    Criterion.alpha st' = Some (Torch.Vector a) /\
    a = map (fun p => Criterion.relu
                        (Criterion.tanh Runs.underflowing_exp (b * (fst p - snd p))%Q))
            (combine (Criterion.view1 nllt) (Criterion.view1 nll)) /\
    length a = length (Criterion.view1 nll) /\
    Forall (fun x => (0 <= x)%Q /\ (x <= 1)%Q) a /\
    Forall (fun p => (Runs.underflowing_exp (- (b * (fst p - snd p))) == 0)%Q ->
                     (Criterion.relu
                        (Criterion.tanh Runs.underflowing_exp (b * (fst p - snd p)))
                      == 1)%Q)
           (combine (Criterion.view1 nllt) (Criterion.view1 nll)) /\
    ((0 <= b)%Q ->
     Forall (fun p => (fst p <= snd p)%Q ->
                      Criterion.relu
                        (Criterion.tanh Runs.underflowing_exp (b * (fst p - snd p))%Q)
                      = 0%Q)
            (combine (Criterion.view1 nllt) (Criterion.view1 nll))).
Proof.
  intros cs m s.
  assert (Ha : Laws.alpha_after
                 (Criterion.compute_loss Runs.underflowing_exp Examples.log_q
                    (fst cs) (snd cs) m s None Runs.no_maps)
               = Some (Torch.Vector [0; 600000000 # 1000000000; 0; 0; 4090 # 4090]%Q))
    by (vm_compute; reflexivity).
  destruct (Criterion.compute_loss Runs.underflowing_exp Examples.log_q (fst cs) (snd cs)
              m s None Runs.no_maps)
    as [e|[[loss extra] st']] eqn:E; [discriminate Ha|].
  simpl in Ha.
  destruct (adaptive_alpha_in_unit_interval Runs.underflowing_exp Examples.log_q
              underflowing_exp_nonneg underflowing_exp_mono underflowing_exp_zero
              (fst cs) (snd cs) m s
              None Runs.no_maps loss extra st' eq_refl E)
    as (b & a & tl & golden & nll & gt & nllt & H).
  exists loss, extra, st', b, a, tl, golden, nll, gt, nllt.
  split; [reflexivity|]. split; [|exact H].
  destruct H as (_ & _ & _ & _ & Hal & _).
  rewrite Ha in Hal. injection Hal as <-.
  repeat constructor.
Defined.

Lemma forward_logging_witness :
  let cs := Criterion.__init__ (Examples.a_task "batch_level")
              (Examples.a_config 20000 None "mse" false) in
  let c := fst cs in
  let m := Examples.one_token_model in
  let s := Examples.one_token_sample in
  exists loss sample_size logging_output st',
    Criterion.forward Examples.exp_q Examples.log_q c (snd cs) m s (Some 3%Z)
      = ok (loss, sample_size, logging_output, st') /\
    sample_size = (if Criterion.sentence_avg c
                   then Z.of_nat (length (Criterion.target s))
                   else Criterion.ntokens s) /\
    logging_output !! "sample_size"%string
      = Some (Torch.Scalar (inject_Z sample_size)) /\
    logging_output !! "loss"%string = Some loss /\
    (exists golden nll tl gt nllt,
       Criterion.label_smoothed_nll_loss
         (fst (Criterion.get_lprobs_and_target c m s))
         (snd (Criterion.get_lprobs_and_target c m s))
         (Criterion.eps c) (Some (Criterion.padding_idx c)) false
         = ok (golden, nll) /\
       Criterion.teacher_lprobs s = Some tl /\
       Criterion.label_smoothed_nll_loss
         (Tensor2 (Criterion.vocab m) (concat tl))
         (snd (Criterion.get_lprobs_and_target c m s))
         (Criterion.eps c) (Some (Criterion.padding_idx c)) false
         = ok (gt, nllt) /\
       logging_output !! "golden_loss"%string
         = Some (Torch.Scalar (Torch.tsum (Criterion.view1 golden))) /\
       logging_output !! "nll_loss_student"%string
         = Some (Torch.Scalar (Torch.tsum (Criterion.view1 nll))) /\
       logging_output !! "nll_loss_teacher"%string
         = Some (Torch.Scalar (Torch.tsum (Criterion.view1 nllt)))) /\
    (if Criterion.report_accuracy c
     then exists n_correct total,
            Criterion.compute_accuracy c m s = ok (n_correct, total) /\
            logging_output !! "n_correct"%string
              = Some (Torch.Scalar (inject_Z n_correct)) /\
            logging_output !! "total"%string = Some (Torch.Scalar (inject_Z total))
     else logging_output !! "n_correct"%string = None /\
          logging_output !! "total"%string = None).
Proof.
  intros cs c m s.
  destruct (Criterion.forward Examples.exp_q Examples.log_q c (snd cs) m s (Some 3%Z))
    as [e|[[[loss sample_size] logging_output] st']] eqn:E.
  { exfalso.
    assert (Hr : Laws.returned
                   (Criterion.forward Examples.exp_q Examples.log_q c (snd cs) m s
                      (Some 3%Z)) = true) by (vm_compute; reflexivity).
    rewrite E in Hr. discriminate Hr. }
  exists loss, sample_size, logging_output, st'. split; [reflexivity|].
  exact (forward_logging Examples.exp_q Examples.log_q c (snd cs) m s (Some 3%Z)
           loss sample_size logging_output st' E).
Defined.

Lemma uncertainty_modes_need_decoder_terms_witness :
  let cs := Criterion.__init__ (Examples.a_task "word_and_seq_level")
              (Examples.a_config 20000 None "mse_uncertainty" false) in
  (Criterion.decoder_kd (fst cs) && Criterion.self_kd (fst cs)
   && Criterion.cross_kd (fst cs))%bool = false /\
  forall r,
    Criterion.compute_loss Examples.exp_q Examples.log_q (fst cs) (snd cs)
      Examples.one_token_model Examples.one_token_sample (Some 3%Z)
      (Examples.maps_of Examples.one_token_model Examples.one_token_sample)
    <> ok r.
Proof.
  split; [reflexivity|].
  apply (uncertainty_modes_need_decoder_terms Examples.exp_q Examples.log_q
           (fst (Criterion.__init__ (Examples.a_task "word_and_seq_level")
                   (Examples.a_config 20000 None "mse_uncertainty" false)))
           (snd (Criterion.__init__ (Examples.a_task "word_and_seq_level")
                   (Examples.a_config 20000 None "mse_uncertainty" false)))
           Examples.one_token_model Examples.one_token_sample 3
           (Examples.maps_of Examples.one_token_model Examples.one_token_sample)
           [[[[1]]]]%Q [[[[2]]]]%Q).
  - lia.
  - reflexivity.
  - reflexivity.
  - left. reflexivity.
  - reflexivity.
Defined.

Lemma unassigned_decoder_attn_modes_never_return_witness :
  let cs := Criterion.__init__ (Examples.a_task "word_and_seq_level")
              (Examples.a_config 20000 None "regression" true) in
  let mp := Examples.maps_of Examples.one_token_model Examples.one_token_sample in
  (forall r,
     Criterion.compute_loss Examples.exp_q Examples.log_q (fst cs) (snd cs)
       Examples.one_token_model Examples.one_token_sample (Some 3%Z) mp <> ok r) /\
  (forall loc,
     Criterion.token_level Examples.exp_q Examples.log_q (fst cs) (snd cs)
       Examples.one_token_model Examples.one_token_sample = ok loc ->
     Criterion.m_value_relation mp <> None ->
     Criterion.m_teacher_value_relation mp <> None ->
     Criterion.loss_type (fst cs) = "minilm"%string ->
     Criterion.compute_loss Examples.exp_q Examples.log_q (fst cs) (snd cs)
       Examples.one_token_model Examples.one_token_sample (Some 3%Z) mp
     = raise UnboundLocalError).
Proof.
  apply (unassigned_decoder_attn_modes_never_return Examples.exp_q Examples.log_q
           (fst (Criterion.__init__ (Examples.a_task "word_and_seq_level")
                   (Examples.a_config 20000 None "regression" true)))
           (snd (Criterion.__init__ (Examples.a_task "word_and_seq_level")
                   (Examples.a_config 20000 None "regression" true)))
           Examples.one_token_model Examples.one_token_sample 3
           (Examples.maps_of Examples.one_token_model Examples.one_token_sample)
           [[[[1]]]]%Q [[[[2]]]]%Q).
  - lia.
  - reflexivity.
  - reflexivity.
  - right. split; reflexivity.
Defined.

Lemma epoch_without_effect_witness :
  let cs := Criterion.__init__ (Examples.a_task "word_and_seq_level")
              (Examples.a_config 20000 None "MSE" false) in
  let mp := Examples.maps_of Examples.one_token_model Examples.one_token_sample in
  Criterion.compute_loss Examples.exp_q Examples.log_q (fst cs) (snd cs)
    Examples.one_token_model Examples.one_token_sample (Some 3%Z) mp
  = Criterion.compute_loss Examples.exp_q Examples.log_q (fst cs) (snd cs)
      Examples.one_token_model Examples.one_token_sample None mp.
Proof.
  apply (epoch_without_effect Examples.exp_q Examples.log_q
           (fst (Criterion.__init__ (Examples.a_task "word_and_seq_level")
                   (Examples.a_config 20000 None "MSE" false)))
           (snd (Criterion.__init__ (Examples.a_task "word_and_seq_level")
                   (Examples.a_config 20000 None "MSE" false)))
           Examples.one_token_model Examples.one_token_sample 3
           (Examples.maps_of Examples.one_token_model Examples.one_token_sample)).
  right. right. split; [lia|].
  repeat constructor; discriminate.
Defined.

(** ** The real-number reading: rates and the weighted KD loss *)

Section RealKernels.

Import Criterion Laws.
Local Open Scope R_scope.

Local Abbreviation total := (Kernels.total Arith.Rops).
#[local] Arguments Kernels.tiny : simpl never.

Lemma setdefault_append_not_nil indices val idx :
  setdefault_append indices val idx <> [].
Proof.
  destruct indices as [|[k l] rest]; simpl; [discriminate|].
  destruct (k =? val)%Z; discriminate.
Qed.

Lemma group_from_not_nil lang_ids :
  forall idx indices, indices <> [] -> group_from idx lang_ids indices <> [].
Proof.
  induction lang_ids as [|v rest IH]; intros idx indices H; simpl; [exact H|].
  apply IH. apply setdefault_append_not_nil.
Qed.

Lemma group_by_lang_not_nil lang_ids : lang_ids <> [] -> group_by_lang lang_ids <> [].
Proof.
  destruct lang_ids as [|v rest]; [congruence|]. intros _.
  unfold group_by_lang. simpl. apply group_from_not_nil. discriminate.
Qed.

(** X23. With [use_adaptive_kd_rates], on a batch with at least one
    sentence, [get_lang_kd_rates] returns one rate per language of the batch;
    every rate is positive and the rates add up to 1, whatever the
    temperature.  Without it, every language gets [kd_rate]; and with it but
    no temperature ([T] is [None]) the call raises [TypeError]. *)
Theorem adaptive_rates_form_distribution (lang_ids : list Z) (kd_rate : option R) (T : R) :
  lang_ids <> [] ->
  T <> 0 ->
  (exists rates,
     Kernels.get_lang_kd_rates Arith.Rops true kd_rate (group_by_lang lang_ids) (Some T)
       = ok (map Some rates) /\
     length rates = length (group_by_lang lang_ids) /\
     Forall (fun r => 0 < r) rates /\
     total rates = 1) /\
  Kernels.get_lang_kd_rates Arith.Rops false kd_rate (group_by_lang lang_ids) (Some T)
    = ok (repeat kd_rate (length (group_by_lang lang_ids))) /\
  Kernels.get_lang_kd_rates Arith.Rops true kd_rate (group_by_lang lang_ids) None
    = raise TypeError.
Proof.
  intros Hne _. split; [|split; reflexivity].
  unfold Kernels.get_lang_kd_rates. simpl.
  eexists. split; [reflexivity|].
  set (x := map _ (map _ (group_by_lang lang_ids))).
  assert (Hx : x <> []).
  { unfold x. pose proof (group_by_lang_not_nil lang_ids Hne).
    destruct (group_by_lang lang_ids); [congruence | discriminate]. }
  destruct (softmax_probability x Hx) as (Hpos & Hsum & Hlen).
  split; [|split; assumption].
  rewrite Hlen. unfold x. by rewrite !length_map.
Qed.

Lemma exp_log_softmax_total (x : list R) :
  x <> [] ->
  total (map Rtrigo_def.exp (Kernels.log_softmax Arith.Rops x)) = 1.
Proof.
  intros Hne. unfold Kernels.log_softmax. simpl.
  set (S := total (map Rtrigo_def.exp x)).
  assert (HS : 0 < S).
  { apply total_Rops_pos; [|apply Forall_exp_pos]. by destruct x. }
  rewrite map_map.
  rewrite map_ext with (g := fun a => Rtrigo_def.exp a / S).
  - rewrite <- (map_map Rtrigo_def.exp (fun e => e / S)).
    rewrite total_map_div. fold S. field. lra.
  - intros a. unfold Rminus. rewrite exp_plus, exp_Ropp, exp_ln by exact HS.
    reflexivity.
Qed.

(** Gibbs' inequality, term by term: for positive targets,
    [sum p (ln p - a) >= sum p - sum exp a]. *)
Lemma kl_terms_lower (l : list (R * R)) :
  Forall (fun p => 0 < snd p) l ->
  total (map snd l) - total (map (fun p => Rtrigo_def.exp (fst p)) l)
  <= total (map (fun p => snd p * (ln (snd p) - fst p)) l).
Proof.
  induction 1 as [|[a p] l Hp Hl IH]; simpl in *; [lra|].
  assert (Hy : 0 < p / Rtrigo_def.exp a)
    by (apply Rdiv_lt_0_compat; [exact Hp | apply exp_pos]).
  pose proof (ln_lower _ Hy) as Hln.
  unfold Rdiv in Hln. rewrite ln_mult in Hln
    by (try exact Hp; apply Rinv_0_lt_compat, exp_pos).
  rewrite ln_Rinv, ln_exp in Hln by apply exp_pos.
  rewrite Rinv_mult, Rinv_inv in Hln.
  assert (Hm : p * (1 - / p * Rtrigo_def.exp a) <= p * (ln p + - a))
    by (apply Rmult_le_compat_l; lra).
  replace (p * (1 - / p * Rtrigo_def.exp a)) with (p - Rtrigo_def.exp a) in Hm
    by (field; lra).
  lra.
Qed.

Lemma map_fst_combine {A B} (a : list A) (b : list B) :
  length a = length b -> map fst (combine a b) = a.
Proof.
  revert b. induction a as [|x a IH]; intros [|y b] H; try discriminate; simpl;
    [reflexivity|]. f_equal. apply IH. simpl in H. lia.
Qed.

Lemma map_snd_combine {A B} (a : list A) (b : list B) :
  length a = length b -> map snd (combine a b) = b.
Proof.
  revert b. induction a as [|x a IH]; intros [|y b] H; try discriminate; simpl;
    [reflexivity|]. f_equal. apply IH. simpl in H. lia.
Qed.

(** The KL divergence of two soft-max rows of the same size is not
    negative. *)
Lemma kl_div_row_nonneg (s t : list R) :
  s <> [] -> length s = length t ->
  0 <= Kernels.kl_div_row Arith.Rops (Kernels.log_softmax Arith.Rops s)
         (Kernels.softmax Arith.Rops t).
Proof.
  intros Hs Hlen.
  assert (Ht : t <> []) by (intros ->; destruct s; [congruence | discriminate]).
  destruct (softmax_probability t Ht) as (Hpos & Hsum & Hl).
  pose proof (exp_log_softmax_total s Hs) as Hexp.
  unfold Kernels.kl_div_row. simpl.
  set (a := Kernels.log_softmax Arith.Rops s) in *.
  set (p := Kernels.softmax Arith.Rops t) in *.
  assert (Hap : length a = length p).
  { unfold a, Kernels.log_softmax. rewrite length_map. lia. }
  pose proof (kl_terms_lower (combine a p)) as H.
  rewrite (map_snd_combine a p Hap) in H.
  rewrite <- (map_map fst Rtrigo_def.exp) in H.
  rewrite (map_fst_combine a p Hap) in H.
  rewrite Hsum, Hexp in H.
  assert (Hc : Forall (fun q : R * R => 0 < snd q) (combine a p)).
  { apply List.Forall_forall. intros [x y] Hin. simpl.
    rewrite List.Forall_forall in Hpos. apply Hpos. eapply in_combine_r; eauto. }
  specialize (H Hc). lra.
Qed.


Lemma kl_div_row_self (x : list R) :
  x <> [] ->
  Kernels.kl_div_row Arith.Rops (Kernels.log_softmax Arith.Rops x)
    (Kernels.softmax Arith.Rops x) = 0.
Proof.
  intros Hne. unfold Kernels.kl_div_row, Kernels.log_softmax, Kernels.softmax. simpl.
  set (S := total (map Rtrigo_def.exp x)).
  assert (HS : 0 < S).
  { apply total_Rops_pos; [|apply Forall_exp_pos]. by destruct x. }
  rewrite map_map, combine_map_same, map_map. simpl.
  clearbody S. induction x as [|a x IH]; simpl; [reflexivity|].
  assert (Hrest : total (map (fun a0 => Rtrigo_def.exp a0 / S
                                        * (ln (Rtrigo_def.exp a0 / S) - (a0 - ln S))) x) = 0).
  { destruct x as [|b x]; [reflexivity|]. apply IH. discriminate. }
  simpl in Hrest. rewrite Hrest.
  unfold Rdiv at 2. rewrite ln_mult by (try apply exp_pos; by apply Rinv_0_lt_compat).
  rewrite ln_exp, ln_Rinv by exact HS. ring.
Qed.

Lemma total_all_zero (l : list R) : Forall (fun a => a = 0) l -> total l = 0.
Proof. induction 1 as [|a l -> Hl IH]; simpl in *; lra. Qed.

Lemma dynamic_kd_loss_unfold (SL TL : tensor2 R) (T : R) :
  Kernels.dynamic_kd_loss Arith.Rops SL TL T
  = Kernels.mean Arith.Rops
      (map (fun p => fst p * snd p)
           (combine (kd_batch_loss Arith.Rops SL TL T)
                    (Kernels.instance_weight Arith.Rops SL))).
Proof. reflexivity. Qed.

(** X24. When the teacher's logits are the student's, every per-example KD
    term of [dynamic_kd_loss] is 0 and so is the loss, at every
    temperature. *)
Theorem dynamic_kd_loss_zero_when_teacher_equals_student
    (V : nat) (logits : list (list R)) (T : R) :
  (2 <= V)%nat -> logits <> [] -> Forall (fun row => length row = V) logits ->
  T <> 0 ->
  Forall (fun b => b = 0) (kd_batch_loss Arith.Rops (Tensor2 V logits) (Tensor2 V logits) T) /\
  Kernels.dynamic_kd_loss Arith.Rops (Tensor2 V logits) (Tensor2 V logits) T = 0.
Proof.
  intros HV _ Hrows _.
  assert (Hbl : Forall (fun b => b = 0)
                  (kd_batch_loss Arith.Rops (Tensor2 V logits) (Tensor2 V logits) T)).
  { unfold kd_batch_loss. simpl. rewrite combine_map_same, map_map. simpl.
    apply List.Forall_forall. intros b Hb.
    apply in_map_iff in Hb as (row & <- & Hin).
    rewrite kl_div_row_self; [ring|].
    rewrite List.Forall_forall in Hrows. specialize (Hrows row Hin).
    destruct row; [simpl in Hrows; lia | discriminate]. }
  split; [exact Hbl|].
  rewrite dynamic_kd_loss_unfold. unfold Kernels.mean. simpl.
  rewrite total_all_zero; [unfold Rdiv; ring|].
  apply List.Forall_forall. intros x Hx.
  apply in_map_iff in Hx as ([b w] & <- & Hin). simpl.
  rewrite List.Forall_forall in Hbl.
  rewrite (Hbl b) by (eapply in_combine_l; eauto). ring.
Qed.

Lemma weighted_total_bounds (c : R) (bl w : list R) :
  Forall (fun b => 0 <= b) bl ->
  Forall (fun x => - c <= x < 1) w ->
  - c * total bl <= total (map (fun p => fst p * snd p) (combine bl w)) + 
                    - c * total (skipn (length w) bl) /\
  total (map (fun p => fst p * snd p) (combine bl w)) <= total (firstn (length w) bl).
Proof.
  intros Hbl. revert w. induction Hbl as [|b bl Hb Hbl IH]; intros w Hw.
  - simpl. rewrite skipn_nil, firstn_nil. simpl. lra.
  - destruct Hw as [|x w Hx Hw]; simpl in *; [lra|].
    destruct (IH w Hw) as [H1 H2].
    assert (Hm1 : b * x <= b * 1) by (apply Rmult_le_compat_l; lra).
    assert (Hm2 : b * - c <= b * x) by (apply Rmult_le_compat_l; lra).
    lra.
Qed.

(** X25. For student and teacher logits of the same shape over V >= 2
    classes, every per-example KD term of [dynamic_kd_loss] (a KL divergence
    times the squared temperature) is at least 0, and the entropy-weighted
    loss is at most the plain mean of these terms and at least
    [- ln (1 + 1e-6) / ln V] times that mean. *)
Theorem weighted_kd_loss_bounds
    (V : nat) (student teacher : list (list R)) (T : R) :
  (2 <= V)%nat -> student <> [] -> length student = length teacher ->
  Forall (fun row => length row = V) student ->
  Forall (fun row => length row = V) teacher ->
  T <> 0 ->
  let batch_loss := kd_batch_loss Arith.Rops (Tensor2 V student) (Tensor2 V teacher) T in
  let loss := Kernels.dynamic_kd_loss Arith.Rops (Tensor2 V student) (Tensor2 V teacher) T in
  Forall (fun b => 0 <= b) batch_loss /\
  loss <= Kernels.mean Arith.Rops batch_loss /\
  - (ln (1 + 1 / 1000000) / ln (INR V)) * Kernels.mean Arith.Rops batch_loss <= loss.
Proof.
  intros HV Hne Hlen Hs Ht _ batch_loss loss.
  assert (Hbl : Forall (fun b => 0 <= b) batch_loss).
  { unfold batch_loss, kd_batch_loss. simpl.
    apply List.Forall_forall. intros b Hb.
    apply in_map_iff in Hb as ([a p] & <- & Hin). simpl.
    apply in_combine_l in Hin as Ha. apply in_combine_r in Hin as Hp.
    apply in_map_iff in Ha as (srow & <- & Hsrow).
    apply in_map_iff in Hp as (trow & <- & Htrow).
    rewrite List.Forall_forall in Hs, Ht.
    specialize (Hs srow Hsrow). specialize (Ht trow Htrow).
    apply Rmult_le_pos; [|nra].
    apply kl_div_row_nonneg.
    - destruct srow; [simpl in Hs; lia | discriminate].
    - rewrite !length_map. lia. }
  split; [exact Hbl|].
  pose proof (instance_weight_bounds V student HV Hs) as Hw.
  assert (Hlw : length (Kernels.instance_weight Arith.Rops (Tensor2 V student))
                = length batch_loss).
  { unfold batch_loss, kd_batch_loss, Kernels.instance_weight. simpl.
    rewrite !length_map, length_combine, !length_map. lia. }
  assert (HB : 0 < Kernels.of_nat Arith.Rops (length batch_loss)).
  { unfold Kernels.of_nat. simpl. apply IZR_lt.
    rewrite <- Hlw. unfold Kernels.instance_weight. simpl. rewrite length_map.
    destruct student; [congruence | simpl; lia]. }
  set (c := ln (1 + 1 / 1000000) / ln (INR V)).
  assert (Hw' : Forall (fun x => - c <= x < 1)
                  (Kernels.instance_weight Arith.Rops (Tensor2 V student))).
  { eapply List.Forall_impl; [|exact Hw]. intros x Hx. unfold c.
    change (1 / 1000000) with (Kernels.tiny Arith.Rops).
    unfold Rdiv in *. lra. }
  destruct (weighted_total_bounds c batch_loss _ Hbl Hw') as [H1 H2].
  rewrite Hlw, skipn_all, firstn_all in *. simpl in H1.
  unfold loss. rewrite dynamic_kd_loss_unfold. fold batch_loss.
  unfold Kernels.mean. simpl.
  rewrite length_map, length_combine, Hlw, Nat.min_id.
  set (n := Kernels.of_nat Arith.Rops (length batch_loss)) in *.
  set (tw := total (map _ (combine batch_loss _))) in *.
  split.
  - apply Rmult_le_compat_r; [left; by apply Rinv_0_lt_compat | exact H2].
  - unfold Rdiv. rewrite <- Rmult_assoc.
    apply Rmult_le_compat_r; [left; by apply Rinv_0_lt_compat | lra].
Qed.

End RealKernels.

Lemma adaptive_rates_form_distribution_witness :
  (exists rates,
     Kernels.get_lang_kd_rates Arith.Rops true None
       (Criterion.group_by_lang [100; 200; 200]%Z) (Some 1%R)
       = ok (map Some rates) /\
     length rates = length (Criterion.group_by_lang [100; 200; 200]%Z) /\
     Forall (fun r => (0 < r)%R) rates /\
     Kernels.total Arith.Rops rates = 1%R) /\
  Kernels.get_lang_kd_rates Arith.Rops false None
    (Criterion.group_by_lang [100; 200; 200]%Z) (Some 1%R)
    = ok (repeat None (length (Criterion.group_by_lang [100; 200; 200]%Z))) /\
  Kernels.get_lang_kd_rates Arith.Rops true None
    (Criterion.group_by_lang [100; 200; 200]%Z) None
    = raise TypeError.
Proof.
  apply (adaptive_rates_form_distribution [100; 200; 200]%Z None 1%R).
  - discriminate.
  - lra.
Defined.

Lemma dynamic_kd_loss_zero_when_teacher_equals_student_witness :
  Forall (fun b => b = 0%R)
    (Laws.kd_batch_loss Arith.Rops (Tensor2 2 [[0; 1]; [3; 2]]%R)
       (Tensor2 2 [[0; 1]; [3; 2]]%R) 2%R) /\
  Kernels.dynamic_kd_loss Arith.Rops (Tensor2 2 [[0; 1]; [3; 2]]%R)
    (Tensor2 2 [[0; 1]; [3; 2]]%R) 2%R = 0%R.
Proof.
  apply (dynamic_kd_loss_zero_when_teacher_equals_student 2 [[0; 1]; [3; 2]]%R 2%R).
  - lia.
  - discriminate.
  - repeat constructor.
  - lra.
Defined.

Lemma weighted_kd_loss_bounds_witness :
  let batch_loss :=
    Laws.kd_batch_loss Arith.Rops (Tensor2 2 [[0; 1]; [3; 2]]%R)
      (Tensor2 2 [[1; 0]; [2; 2]]%R) 2%R in
  let loss :=
    Kernels.dynamic_kd_loss Arith.Rops (Tensor2 2 [[0; 1]; [3; 2]]%R)
      (Tensor2 2 [[1; 0]; [2; 2]]%R) 2%R in
  Forall (fun b => (0 <= b)%R) batch_loss /\
  (loss <= Kernels.mean Arith.Rops batch_loss)%R /\
  (- (ln (1 + 1 / 1000000) / ln (INR 2)) * Kernels.mean Arith.Rops batch_loss <= loss)%R.
Proof.
  apply (weighted_kd_loss_bounds 2 [[0; 1]; [3; 2]]%R [[1; 0]; [2; 2]]%R 2%R).
  - lia.
  - discriminate.
  - reflexivity.
  - repeat constructor.
  - repeat constructor.
  - lra.
Defined.

(** ** [reduce_metrics] *)

Section MetricsProperties.

Import Metrics Laws.
Local Open Scope Q_scope.

Variable ln2 : Q.

Lemma sum_of_acc (key : string) (logs : list logging_output) (a : Q) :
  fold_left (fun acc log => acc + get log key) logs a
  == a + fold_left (fun acc log => acc + get log key) logs 0.
Proof.
  revert a. induction logs as [|l logs IH]; intros a; simpl; [ring|].
  rewrite (IH (a + get l key)), (IH (0 + get l key)). ring.
Qed.

Lemma sum_of_cons (key : string) (l : logging_output) (logs : list logging_output) :
  sum_of key (l :: logs) == get l key + sum_of key logs.
Proof.
  unfold sum_of. simpl. rewrite sum_of_acc. ring.
Qed.

Lemma sum_of_perm (key : string) (logs logs' : list logging_output) :
  Permutation logs logs' -> sum_of key logs == sum_of key logs'.
Proof.
  induction 1 as [|l logs logs' Hp IH|l1 l2 logs|logs1 logs2 logs3 H1 IH1 H2 IH2].
  - reflexivity.
  - rewrite !sum_of_cons, IH. reflexivity.
  - rewrite !sum_of_cons. ring.
  - by rewrite IH1.
Qed.

Lemma Qltb_comp (a b c d : Q) : a == c -> b == d -> Torch.Qltb a b = Torch.Qltb c d.
Proof.
  intros Hac Hbd. unfold Torch.Qltb. f_equal.
  destruct (Qle_bool b a) eqn:E1, (Qle_bool d c) eqn:E2; try reflexivity.
  - apply Qle_bool_iff in E1. rewrite Hac, Hbd in E1.
    apply Qle_bool_iff in E1. congruence.
  - apply Qle_bool_iff in E2. rewrite <- Hac, <- Hbd in E2.
    apply Qle_bool_iff in E2. congruence.
Qed.

(** [reduce_metrics] reads the logging outputs only through the sum of
    each key. *)
Lemma reduce_metrics_by_sums (logs logs' : list logging_output) :
  (forall key, sum_of key logs == sum_of key logs') ->
  Forall2 call_equiv (reduce_metrics ln2 logs) (reduce_metrics ln2 logs').
Proof.
  intros H. unfold reduce_metrics. apply Forall2_app.
  - repeat constructor; rewrite ?H; reflexivity.
  - rewrite (Qltb_comp 0 (sum_of "total" logs) 0 (sum_of "total" logs'))
      by (try reflexivity; apply H).
    destruct (Torch.Qltb 0 (sum_of "total" logs')); [|constructor].
    repeat constructor; rewrite ?H; reflexivity.
Qed.

(** X26. [reduce_metrics] depends on the logging outputs only through the
    sum of each key: it logs the same metrics, with equal values and
    weights, for a single logging output that holds these sums as for the
    list of the workers' outputs, and for the list in any order; which is
    what [logging_outputs_can_be_summed] returning [True] promises. *)
Theorem reduce_metrics_of_summed_outputs
    (total : logging_output) (logs logs' : list logging_output) :
  summed total logs ->
  Permutation logs logs' ->
  ~ sum_of "sample_size" logs == 0 ->
  ~ sum_of "ntokens" logs == 0 ->
  Forall2 call_equiv (reduce_metrics ln2 [total]) (reduce_metrics ln2 logs) /\
  Forall2 call_equiv (reduce_metrics ln2 logs') (reduce_metrics ln2 logs) /\
  logging_outputs_can_be_summed = true.
Proof.
  intros Hsum Hperm _ _. split; [|split; [|reflexivity]].
  - apply reduce_metrics_by_sums. intros key.
    rewrite sum_of_cons. unfold sum_of at 1. simpl. rewrite (Hsum key). ring.
  - apply reduce_metrics_by_sums. intros key.
    symmetry. by apply sum_of_perm.
Qed.

End MetricsProperties.

Lemma reduce_metrics_of_summed_outputs_witness :
  let l1 : Metrics.logging_output :=
    list_to_map [("loss", 6); ("sample_size", 2); ("ntokens", 5); ("kd_loss", 1)]%string%Q in
  let l2 : Metrics.logging_output :=
    list_to_map [("loss", 4); ("sample_size", 3); ("ntokens", 7); ("total", 7);
                 ("n_correct", 4)]%string%Q in
  let total : Metrics.logging_output :=
    list_to_map [("loss", 10); ("sample_size", 5); ("ntokens", 12); ("kd_loss", 1);
                 ("total", 7); ("n_correct", 4)]%string%Q in
  Forall2 Laws.call_equiv (Metrics.reduce_metrics (7 # 10) [total])
          (Metrics.reduce_metrics (7 # 10) [l1; l2]) /\
  Forall2 Laws.call_equiv (Metrics.reduce_metrics (7 # 10) [l2; l1])
          (Metrics.reduce_metrics (7 # 10) [l1; l2]) /\
  Metrics.logging_outputs_can_be_summed = true.
Proof.
  intros l1 l2 total.
  apply (reduce_metrics_of_summed_outputs (7 # 10) total [l1; l2] [l2; l1]).
  - intros key. unfold Metrics.sum_of, Metrics.get, total, l1, l2. simpl.
    rewrite !lookup_insert.
    repeat (destruct (decide _)); subst; try discriminate;
      rewrite ?lookup_empty; reflexivity.
  - apply perm_swap.
  - vm_compute. discriminate.
  - vm_compute. discriminate.
Defined.

(** ** The selections of [global_level] and [global_multi_level] *)

Section GlobalSelections.

Import Torch Criterion Spec Laws.
Local Open Scope Q_scope.

Variables texp tlog : Q -> Q.

Lemma select_at_or_above_inv (nll : list Q) (g : Q) (kd kept : list Q) :
  select_at_or_above nll g kd = ok kept ->
  length nll = length kd /\ kept = kd_at_or_above_gate g nll kd.
Proof.
  intros H.
  assert (Hlen : length nll = length kd).
  { unfold select_at_or_above, select in H. rewrite !length_map in H.
    destruct (Nat.eqb_spec (length kd) (length nll)); [lia | discriminate H]. }
  split; [exact Hlen|].
  rewrite (select_at_or_above_spec g nll kd Hlen) in H. by injection H as <-.
Qed.

(** X27. Under [global_level] (no epoch), a successful [compute_loss]
    pushes the batch's per-token student NLL to the queue, takes the gate
    from the queue after the push (the entry at rank
    [math.ceil(queue.size(0) * kd_rate)], the product being the double the
    code computes and not the exact one), and logs as [kd_loss] the sum of
    the masked KD values of exactly the tokens whose student NLL is at or
    above that gate. *)
Theorem global_level_selection c st m s mp loss extra st' :
  kd_strategy c = "global_level"%string ->
  compute_loss texp tlog c st m s None mp = ok (loss, extra, st') ->
  exists q0 golden nll teacher kd gate,
    queue st = QueueTensor q0 /\
    label_smoothed_nll_loss (fst (get_lprobs_and_target c m s))
      (snd (get_lprobs_and_target c m s)) (eps c) (Some (padding_idx c)) false
      = ok (golden, nll) /\
    teacher_output s = Some teacher /\
    kd_cross_entropy texp tlog c (concat (logits m)) (concat teacher)
      (map (fun t => (t =? padding_idx c)%Z) (snd (get_lprobs_and_target c m s)))
      = ok kd /\
    loss_gate (push (kd_queue_size c) q0 (view1 nll)) (kd_rate c) = ok gate /\
    queue st' = QueueTensor (push (kd_queue_size c) q0 (view1 nll)) /\
    extra !! "kd_loss"%string
    = Some (Scalar (tsum (kd_at_or_above_gate gate (view1 nll) kd))).
Proof.
  intros Hs H.
  apply compute_loss_no_epoch_inv in H as (loc & Hl & -> & -> & ->).
  apply token_level_inv in Hl
    as (t & tl & g & n & gt & nt & Ht & _ & Hls & _ & _ & _ & Hcases).
  destruct Hcases as [(Hx & _)|[(_ & Hx & _)
                     |[(_ & _ & q0 & gate & kd & kept & Hq & Hst & Hgate & Hkd & Hsel & _ & Hex & _)
                      |(_ & Hx & _)]]];
    try (rewrite Hs in Hx; discriminate Hx).
  apply select_at_or_above_inv in Hsel as [_ ->].
  exists q0, g, n, t, kd, gate.
  split; [exact Hq|]. split; [exact Hls|]. split; [exact Ht|].
  split; [exact Hkd|]. split; [exact Hgate|].
  split; [by rewrite Hst|].
  rewrite Hex. apply log_kd_lookup.
Qed.


Lemma group_from_single (id : Z) (n : nat) :
  forall idx l,
    group_from idx (repeat id n) [(id, l)] = [(id, l ++ seq idx n)].
Proof.
  induction n as [|n IH]; intros idx l; simpl.
  - by rewrite app_nil_r.
  - rewrite Z.eqb_refl. rewrite IH. by rewrite <- app_assoc.
Qed.

Lemma group_by_lang_single (id : Z) (n : nat) :
  group_by_lang (repeat id (S n)) = [(id, seq 0 (S n))].
Proof.
  unfold group_by_lang. simpl. rewrite group_from_single. reflexivity.
Qed.

Lemma index_select0_all {A} (pre l : list A) :
  index_select0 (pre ++ l) (seq (length pre) (length l)) = ok l.
Proof.
  revert pre. induction l as [|a l IH]; intros pre; simpl; [reflexivity|].
  unfold index_select0 in *. simpl.
  rewrite nth_error_app2 by lia. rewrite Nat.sub_diag. simpl.
  specialize (IH (pre ++ [a])). rewrite <- app_assoc, length_app in IH. simpl in IH.
  rewrite Nat.add_1_r in IH. by rewrite IH.
Qed.

Lemma concat_chunks {A} (fuel w : nat) (x : list A) :
  concat (chunks fuel w x) = firstn (fuel * w) x.
Proof.
  revert x. induction fuel as [|fuel IH]; intros x; simpl; [reflexivity|].
  rewrite IH. rewrite <- (firstn_skipn w x) at 3.
  rewrite firstn_app.
  destruct (Nat.le_gt_cases w (length x)) as [Hle|Hgt].
  - rewrite firstn_firstn, length_firstn.
    replace (Nat.min (w + fuel * w) w) with w by lia.
    replace (w + fuel * w - Nat.min w (length x))%nat with (fuel * w)%nat by lia.
    reflexivity.
  - rewrite (skipn_all2 x) by lia. rewrite !firstn_nil, !app_nil_r.
    rewrite firstn_firstn. replace (Nat.min (w + fuel * w) w) with w by lia.
    reflexivity.
Qed.

Lemma length_chunks {A} (fuel w : nat) (x : list A) : length (chunks fuel w x) = fuel.
Proof.
  revert x. induction fuel as [|fuel IH]; intros x; simpl; [reflexivity|]. by rewrite IH.
Qed.

Lemma view_rows_inv {A} (b : nat) (x : list A) (r : list (list A)) :
  view_rows b x = ok r -> length r = b /\ concat r = x.
Proof.
  unfold view_rows. destruct b as [|b].
  - destruct (Nat.eqb_spec (length x) 0); [|discriminate].
    intros H. injection H as <-. split; [reflexivity|].
    destruct x; [reflexivity | discriminate].
  - destruct (Nat.eqb_spec (length x mod S b) 0) as [Hm|]; [|discriminate].
    intros H. injection H as <-.
    change (length (chunks (S b) (length x / S b) x) = S b /\
            concat (chunks (S b) (length x / S b) x) = x).
    split; [apply length_chunks|].
    rewrite concat_chunks. apply firstn_all2.
    apply Nat.Div0.div_exact in Hm. lia.
Qed.

Lemma gather0_nonzero (f : Q -> bool) (pre : list Q) (nll kd : list Q) :
  length nll = length kd ->
  gather0 (pre ++ kd) (nonzero_from (length pre) (map f nll)) = ok (kd_where f nll kd).
Proof.
  revert pre kd. induction nll as [|x nll IH]; intros pre [|y kd] Hlen;
    try discriminate; [reflexivity|].
  simpl in Hlen.
  specialize (IH (pre ++ [y]) kd ltac:(lia)).
  rewrite <- app_assoc, length_app in IH. simpl in IH. rewrite Nat.add_1_r in IH.
  unfold kd_where in *. simpl. destruct (f x); simpl.
  - unfold gather0 in *. simpl.
    rewrite nth_error_app2 by lia. rewrite Nat.sub_diag. simpl.
    by rewrite IH.
  - exact IH.
Qed.

(** X28. When all sentences of the batch are of one language that has a
    queue, and rates are not adaptive, [global_multi_level] pushes the
    batch's NLL values to that language's queue and sums the KD values of the
    tokens whose NLL is at or above the gate of that queue (the entry at
    rank [math.ceil(queue.size(0) * kd_rate)], the product being the double
    the code computes): on such a batch the code's total equals the
    per-language reading of the selection. *)
Theorem single_language_batch_selection c st inp id d q0 nll kd gate :
  inp <> [] ->
  get_lang_ids c inp = ok (repeat id (length inp)) ->
  queue st = QueueDict d -> d !! id = Some q0 ->
  use_adaptive_kd_rates c = false ->
  length nll = length kd ->
  (length nll mod length inp = 0)%nat ->
  loss_gate (push (kd_queue_size c) q0 nll) (kd_rate c) = ok gate ->
  exists total expected,
    global_multi_level_select texp tlog c st inp nll kd
      = ok (State (alpha st) (QueueDict (<[id := push (kd_queue_size c) q0 nll]> d)),
            total) /\
    total == tsum (kd_at_or_above_gate gate nll kd) /\
    global_multi_level_expected texp tlog c st inp nll kd = ok expected /\
    total == expected.
Proof.
  intros Hne Hids Hq Hd Hna Hlen Hmod Hgate.
  destruct (length inp) as [|B] eqn:HB; [destruct inp; [congruence | discriminate]|].
  assert (Hvn : exists rows, view_rows (S B) nll = ok rows).
  { unfold view_rows. rewrite Hmod. simpl. by eexists. }
  destruct Hvn as (nrows & Hvn).
  assert (Hvk : exists rows, view_rows (S B) kd = ok rows).
  { unfold view_rows. rewrite <- Hlen, Hmod. simpl. by eexists. }
  destruct Hvk as (krows & Hvk).
  destruct (view_rows_inv _ _ _ Hvn) as [Hln Hcn].
  destruct (view_rows_inv _ _ _ Hvk) as [Hlk Hck].
  assert (Hsn : index_select0 nrows (seq 0 (S B)) = ok nrows)
    by (rewrite <- Hln; apply (index_select0_all [] nrows)).
  assert (Hsk : index_select0 krows (seq 0 (S B)) = ok krows)
    by (rewrite <- Hlk; apply (index_select0_all [] krows)).
  assert (Hpush : push_languages c st nrows [(id, seq 0 (S B))] None
                  = ok (State (alpha st)
                          (QueueDict (<[id := push (kd_queue_size c) q0 nll]> d)),
                        Some nll)).
  { cbn [push_languages]. rewrite Hsn, bind_ok, Hcn.
    unfold push_to_lang_FIFO_queue. rewrite Hq, Hd. reflexivity. }
  assert (Hqof : queue_of (State (alpha st)
                             (QueueDict (<[id := push (kd_queue_size c) q0 nll]> d))) id
                 = ok (push (kd_queue_size c) q0 nll)).
  { unfold queue_of. simpl. by rewrite lookup_insert_eq. }
  exists (0 + tsum (kd_at_or_above_gate gate nll kd)),
         (tsum (kd_at_or_above_gate gate nll kd) + 0).
  split; [|split; [ring|split; [|ring]]].
  - unfold global_multi_level_select.
    rewrite Hids, bind_ok, HB, group_by_lang_single, Hvn, bind_ok, Hpush, bind_ok.
    unfold Kernels.get_lang_kd_rates. rewrite Hna. simpl length.
    cbn [repeat map fst combine bind ok].
    cbn [select_languages]. rewrite Hqof, bind_ok, Hgate, bind_ok.
    cbn [bound bind ok]. unfold nonzero.
    pose proof (gather0_nonzero (fun x => Qle_bool gate x) [] nll kd Hlen) as Hg.
    simpl in Hg. rewrite Hg. reflexivity.
  - unfold global_multi_level_expected.
    rewrite Hids, bind_ok, HB, group_by_lang_single, Hvn, bind_ok, Hvk, bind_ok,
      Hpush, bind_ok.
    unfold Kernels.get_lang_kd_rates. rewrite Hna. simpl length.
    cbn [repeat map fst snd combine bind ok].
    cbn [per_language_total]. rewrite Hqof, bind_ok, Hgate, bind_ok, Hsn, bind_ok,
      Hsk, bind_ok, Hcn, Hck.
    reflexivity.
Qed.

End GlobalSelections.

Lemma global_level_selection_witness :
  let cs := Criterion.__init__ (Examples.a_task "global_level")
              (Runs.rate_config (Runs.float_literal (2 # 10))) in
  let c := fst cs in
  let m := Runs.five_token_model in
  let s := Runs.five_token_sample in
  exists loss extra st' q0 golden nll teacher kd gate,
    Criterion.compute_loss Examples.exp_q Examples.log_q c (snd cs) m s None Runs.no_maps
      = ok (loss, extra, st') /\
    (q0 = [] /\ length (Criterion.view1 nll) = 5%nat /\
     Torch.ceil_mul 5 (Runs.float_literal (2 # 10)) = 1%Z /\
     Qceiling (inject_Z 5 * Runs.float_literal (2 # 10)) = 2%Z /\
     (gate == 21 # 10)%Q /\
     length (Spec.kd_at_or_above_gate gate (Criterion.view1 nll) kd) = 1%nat) /\
    Criterion.queue (snd cs) = Criterion.QueueTensor q0 /\
    Criterion.label_smoothed_nll_loss
      (fst (Criterion.get_lprobs_and_target c m s))
      (snd (Criterion.get_lprobs_and_target c m s))
      (Criterion.eps c) (Some (Criterion.padding_idx c)) false
      = ok (golden, nll) /\
    Criterion.teacher_output s = Some teacher /\
    Criterion.kd_cross_entropy Examples.exp_q Examples.log_q c
      (concat (Criterion.logits m)) (concat teacher)
      (map (fun t => (t =? Criterion.padding_idx c)%Z)
           (snd (Criterion.get_lprobs_and_target c m s)))
      = ok kd /\
    Criterion.loss_gate
      (Criterion.push (Criterion.kd_queue_size c) q0 (Criterion.view1 nll))
      (Criterion.kd_rate c) = ok gate /\
    Criterion.queue st'
    = Criterion.QueueTensor
        (Criterion.push (Criterion.kd_queue_size c) q0 (Criterion.view1 nll)) /\
    extra !! "kd_loss"%string
    = Some (Torch.Scalar
              (Torch.tsum (Spec.kd_at_or_above_gate gate (Criterion.view1 nll) kd))).
Proof.
  intros cs c m s.
  destruct (Criterion.compute_loss Examples.exp_q Examples.log_q c (snd cs) m s None
              Runs.no_maps) as [e|[[loss extra] st']] eqn:E.
  { exfalso.
    assert (Hr : Laws.returned
                   (Criterion.compute_loss Examples.exp_q Examples.log_q c (snd cs) m s
                      None Runs.no_maps) = true) by (vm_compute; reflexivity).
    rewrite E in Hr. discriminate Hr. }
  destruct (global_level_selection Examples.exp_q Examples.log_q c (snd cs) m s
              Runs.no_maps loss extra st' eq_refl E)
    as (q0 & golden & nll & teacher & kd & gate & H).
  exists loss, extra, st', q0, golden, nll, teacher, kd, gate.
  split; [reflexivity|]. split; [|exact H].
  destruct H as (Hq & Hls & Ht & Hkd & Hg & _).
  vm_compute in Hq. injection Hq as Hq. subst q0.
  vm_compute in Hls. injection Hls as Hgold Hnll. subst golden nll.
  vm_compute in Ht. injection Ht as Ht. subst teacher.
  vm_compute in Hkd. injection Hkd as Hkd. subst kd.
  vm_compute in Hg. injection Hg as Hg. subst gate.
  repeat split; vm_compute; reflexivity.
Defined.

Lemma single_language_batch_selection_witness :
  let cs := Criterion.__init__ (Examples.a_task "global_multi_level")
              (Runs.rate_config (Runs.float_literal (1 # 10))) in
  let inp := [[100; 5; 6; 7; 8; 9]; [100; 10; 11; 12; 13; 14]]%Z in
  let nll := [1; 2; 3; 4; 5; 6; 7; 8; 9; 10]%Q in
  let kd := [10; 20; 30; 40; 50; 60; 70; 80; 90; 100]%Q in
  let d : gmap Z (list Q) := <[200%Z := []]> (<[100%Z := []]> ∅) in
  exists total expected,
    (Torch.ceil_mul 10 (Runs.float_literal (1 # 10)) = 1%Z /\
     Qceiling (inject_Z 10 * Runs.float_literal (1 # 10)) = 2%Z /\
     (total == 100)%Q) /\
    Criterion.global_multi_level_select Examples.exp_q Examples.log_q (fst cs) (snd cs)
      inp nll kd
    = ok (Criterion.State (Criterion.alpha (snd cs))
            (Criterion.QueueDict
               (<[100%Z := Criterion.push (Criterion.kd_queue_size (fst cs)) [] nll]> d)),
          total) /\
    (total == Torch.tsum (Spec.kd_at_or_above_gate 10 nll kd))%Q /\
    Spec.global_multi_level_expected Examples.exp_q Examples.log_q (fst cs) (snd cs)
      inp nll kd = ok expected /\
    (total == expected)%Q.
Proof.
  intros cs inp nll kd d.
  destruct (single_language_batch_selection Examples.exp_q Examples.log_q
              (fst cs) (snd cs) inp 100%Z d [] nll kd 10%Q)
    as (total & expected & H).
  - discriminate.
  - reflexivity.
  - reflexivity.
  - reflexivity.
  - reflexivity.
  - reflexivity.
  - reflexivity.
  - vm_compute. reflexivity.
  - exists total, expected. split; [|exact H].
    split; [vm_compute; reflexivity|]. split; [vm_compute; reflexivity|].
    destruct H as (_ & Ht & _). rewrite Ht. vm_compute. reflexivity.
Defined.

(** ** [batch_level] on any batch, and a batch on which [forward] returns *)

Section BatchLevel.

Import Torch Criterion Spec Laws.
Local Open Scope Q_scope.

Variables texp tlog : Q -> Q.

(** X29. Under [batch_level] (no epoch), whatever the size of the batch and
    the rate, a successful [compute_loss] takes as gate an NLL value of the
    batch, logs as [kd_loss] the sum of the masked KD values of exactly the
    tokens whose student NLL is at or above the gate, keeps at least
    [math.ceil(N * kd_rate)] of the N tokens, with the product as the code
    computes it, rounded to a double (more only when NLL values tie with the
    gate), and leaves the criterion's state as it was. *)
Theorem batch_level_selection c st m s mp loss extra st' :
  kd_strategy c = "batch_level"%string ->
  compute_loss texp tlog c st m s None mp = ok (loss, extra, st') ->
  exists golden nll teacher kd rate gate,
    label_smoothed_nll_loss (fst (get_lprobs_and_target c m s))
      (snd (get_lprobs_and_target c m s)) (eps c) (Some (padding_idx c)) false
      = ok (golden, nll) /\
    teacher_output s = Some teacher /\
    kd_cross_entropy texp tlog c (concat (logits m)) (concat teacher)
      (map (fun t => (t =? padding_idx c)%Z) (snd (get_lprobs_and_target c m s)))
      = ok kd /\
    kd_rate c = Some rate /\
    loss_gate (view1 nll) (Some rate) = ok gate /\
    In gate (view1 nll) /\
    extra !! "kd_loss"%string
    = Some (Scalar (tsum (kd_at_or_above_gate gate (view1 nll) kd))) /\
    (ceil_mul (length (view1 nll)) rate
     <= Z.of_nat (length (kd_at_or_above_gate gate (view1 nll) kd)))%Z /\
    st' = st.
Proof.
  intros Hs H.
  apply compute_loss_no_epoch_inv in H as (loc & Hl & -> & -> & ->).
  apply token_level_inv in Hl
    as (t & tl & g & n & gt & nt & Ht & _ & Hls & _ & _ & _ & Hcases).
  destruct Hcases as [(Hx & _)
                     |[(_ & _ & kept & Hsel & Hst & _ & Hex & _)
                     |[(_ & Hx & _)|(_ & Hx & _)]]];
    try (rewrite Hs in Hx; discriminate Hx).
  unfold batch_level_select in Hsel.
  bind_inv Hsel as Egate. bind_inv Hsel as Ekd.
  apply select_at_or_above_inv in Hsel as [Hlen ->].
  destruct (kd_rate c) as [rate|] eqn:Er; [|discriminate Egate].
  pose proof Egate as Hgate.
  apply loss_gate_ok_inv in Egate as (k & Hceil & Hk & Hnth).
  destruct (descending_rank _ (sort_desc_sorted (view1 n)) k q Hnth) as [Hcount _].
  rewrite <- (filter_length_perm _ (view1 n) (sort_desc (view1 n))) in Hcount
    by (symmetry; apply sort_desc_perm).
  exists g, n, t, l, rate, q.
  split; [exact Hls|]. split; [exact Ht|]. split; [exact Ekd|].
  split; [reflexivity|]. split; [exact Hgate|].
  split.
  { apply (Permutation_in q (sort_desc_perm (view1 n))). eapply nth_error_In; eauto. }
  split; [rewrite Hex; apply log_kd_lookup|].
  split; [|exact Hst].
  unfold kd_at_or_above_gate. rewrite kd_where_length by exact Hlen. lia.
Qed.


Lemma kd_cross_entropy_ok c (student teacher : list (list Q)) (pad_mask : list bool) :
  length student = length teacher -> length student = length pad_mask ->
  exists kd, kd_cross_entropy texp tlog c student teacher pad_mask = ok kd /\
             length kd = length student.
Proof.
  intros H1 H2. unfold kd_cross_entropy, cross_entropy.
  rewrite zip_same_ok by (rewrite !length_map; exact H1). simpl.
  rewrite masked_fill_same
    by (rewrite !length_map, length_combine, !length_map; lia).
  eexists. split; [reflexivity|].
  rewrite !length_map, !length_combine, !length_map, length_combine, !length_map. lia.
Qed.

Lemma compute_accuracy_ok c m s :
  length (rows (fst (get_lprobs_and_target c m s)))
  = length (snd (get_lprobs_and_target c m s)) ->
  exists r, compute_accuracy c m s = ok r.
Proof.
  intros Hlen. unfold compute_accuracy.
  destruct (get_lprobs_and_target c m s) as [lprobs tgt]. simpl in *.
  rewrite zip_same_ok by exact Hlen. simpl.
  rewrite zip_same_ok by (rewrite !length_map, length_combine; lia).
  simpl. by eexists.
Qed.

(** X30. [forward] returns on every well-formed batch: under
    [word_and_seq_level] without adaptive weightage, with a number as
    [alpha], no prefix to ignore, no epoch, a vocabulary of V >= 2 classes,
    targets of shape (B, T) that are class indices, and student and teacher
    logits and log-probabilities all of shape (B, T, V), it returns a loss
    that is a number and leaves the criterion's state unchanged. *)
Theorem forward_returns_on_well_formed_batch c st m s a teacher tl :
  kd_strategy c = "word_and_seq_level"%string ->
  use_adaptive_weightage c = false ->
  alpha st = Some (Scalar a) ->
  (ignore_prefix_size c <= 0)%Z ->
  (2 <= vocab m)%nat ->
  Forall2 (fun lp tg => length lp = length tg) (normalized_lprobs m) (target s) ->
  Forall (Forall (fun row => length row = vocab m)) (normalized_lprobs m) ->
  Forall (Forall (fun t => (0 <= t < Z.of_nat (vocab m))%Z)) (target s) ->
  teacher_lprobs s = Some tl ->
  Forall2 (fun lp tg => length lp = length tg) tl (target s) ->
  Forall (Forall (fun row => length row = vocab m)) tl ->
  teacher_output s = Some teacher ->
  Forall2 (fun lg tg => length lg = length tg) (logits m) (target s) ->
  Forall (Forall (fun row => length row = vocab m)) (logits m) ->
  Forall2 (fun lg tg => length lg = length tg) teacher (target s) ->
  Forall (Forall (fun row => length row = vocab m)) teacher ->
  exists loss sample_size logging_output,
    forward texp tlog c st m s None = ok (Scalar loss, sample_size, logging_output, st).
Proof.
  intros Hs Had Hal Hpre HV2 Hsh1 Hsh2 Htg Htl Htl1 Htl2 Hto Hlg1 _ Hlt1 _.
  assert (HV : vocab m <> 1%nat) by lia.
  pose proof (concat_aligned _ _ Hlg1) as Hlg.
  pose proof (concat_aligned _ _ Hlt1) as Hlt.
  assert (Hlt_eq : get_lprobs_and_target c m s
                   = (Tensor2 (vocab m) (concat (normalized_lprobs m)), concat (target s))).
  { unfold get_lprobs_and_target.
    replace (0 <? ignore_prefix_size c)%Z with false
      by (symmetry; apply Z.ltb_ge; lia).
    reflexivity. }
  assert (Hstu := label_smoothed_unreduced
                    (Tensor2 (vocab m) (concat (normalized_lprobs m)))
                    (concat (target s)) (eps c) (padding_idx c)).
  simpl in Hstu.
  specialize (Hstu (concat_aligned _ _ Hsh1)
                   (proj2 (Forall_concat _ _) Hsh2)
                   (proj2 (Forall_concat _ _) Htg) HV).
  assert (Htea := label_smoothed_unreduced
                    (Tensor2 (vocab m) (concat tl))
                    (concat (target s)) (eps c) (padding_idx c)).
  simpl in Htea.
  specialize (Htea (concat_aligned _ _ Htl1)
                   (proj2 (Forall_concat _ _) Htl2)
                   (proj2 (Forall_concat _ _) Htg) HV).
  destruct (kd_cross_entropy_ok c (concat (logits m)) (concat teacher)
              (map (fun t => (t =? padding_idx c)%Z) (concat (target s))))
    as (kd & Hkd & _); [lia | rewrite length_map; lia |].
  assert (Htok : exists loc,
            token_level texp tlog c st m s = ok loc /\
            l_state loc = st /\ exists v, l_loss loc = Scalar v).
  { unfold token_level. rewrite Hlt_eq, Hto. cbn [not_none bind ok].
    rewrite Hstu. cbn [bind ok]. rewrite Htl, Htea. cbn [bind ok snd bound view1].
    rewrite Hs. cbn [String.eqb Ascii.eqb Bool.eqb].
    rewrite Hkd. cbn [bind ok]. rewrite Had. cbn [bind ok]. rewrite Hal.
    eexists. split; [reflexivity|]. split; [reflexivity|]. by eexists. }
  destruct Htok as (loc & Hloc & Hst & v & Hv).
  unfold forward, compute_loss. rewrite Hloc. cbn [bind ok auxiliary].
  cbn [no_aux attn_loss decoder_self_attn_loss decoder_cross_attn_loss
       value_relation_loss regression_loss add_if bind ok fst snd].
  rewrite Hst, Hv.
  destruct (report_accuracy c).
  - destruct (compute_accuracy_ok c m s) as (r & Hr).
    { rewrite Hlt_eq. simpl. by apply concat_aligned. }
    rewrite Hr. cbn [bind ok]. by eexists _, _, _.
  - cbn [bind ok]. by eexists _, _, _.
Qed.

End BatchLevel.

Lemma batch_level_selection_witness :
  let cs := Criterion.__init__ (Examples.a_task "batch_level")
              (Runs.rate_config (Runs.float_literal (2 # 10))) in
  let c := fst cs in
  let m := Runs.five_token_model in
  let s := Runs.five_token_sample in
  exists loss extra st' golden nll teacher kd rate gate,
    Criterion.compute_loss Examples.exp_q Examples.log_q c (snd cs) m s None Runs.no_maps
      = ok (loss, extra, st') /\
    (length (Criterion.view1 nll) = 5%nat /\
     rate = Runs.float_literal (2 # 10) /\
     Torch.ceil_mul 5 rate = 1%Z /\
     Qceiling (inject_Z 5 * rate) = 2%Z /\
     (gate == 21 # 10)%Q /\
     length (Spec.kd_at_or_above_gate gate (Criterion.view1 nll) kd) = 1%nat) /\
    Criterion.label_smoothed_nll_loss
      (fst (Criterion.get_lprobs_and_target c m s))
      (snd (Criterion.get_lprobs_and_target c m s))
      (Criterion.eps c) (Some (Criterion.padding_idx c)) false
      = ok (golden, nll) /\
    Criterion.teacher_output s = Some teacher /\
    Criterion.kd_cross_entropy Examples.exp_q Examples.log_q c
      (concat (Criterion.logits m)) (concat teacher)
      (map (fun t => (t =? Criterion.padding_idx c)%Z)
           (snd (Criterion.get_lprobs_and_target c m s)))
      = ok kd /\
    Criterion.kd_rate c = Some rate /\
    Criterion.loss_gate (Criterion.view1 nll) (Some rate) = ok gate /\
    In gate (Criterion.view1 nll) /\
    extra !! "kd_loss"%string
    = Some (Torch.Scalar
              (Torch.tsum (Spec.kd_at_or_above_gate gate (Criterion.view1 nll) kd))) /\
    (Torch.ceil_mul (length (Criterion.view1 nll)) rate
     <= Z.of_nat (length (Spec.kd_at_or_above_gate gate (Criterion.view1 nll) kd)))%Z /\
    st' = snd cs.
Proof.
  intros cs c m s.
  destruct (Criterion.compute_loss Examples.exp_q Examples.log_q c (snd cs) m s None
              Runs.no_maps) as [e|[[loss extra] st']] eqn:E.
  { exfalso.
    assert (Hr : Laws.returned
                   (Criterion.compute_loss Examples.exp_q Examples.log_q c (snd cs) m s
                      None Runs.no_maps) = true) by (vm_compute; reflexivity).
    rewrite E in Hr. discriminate Hr. }
  destruct (batch_level_selection Examples.exp_q Examples.log_q c (snd cs) m s
              Runs.no_maps loss extra st' eq_refl E)
    as (golden & nll & teacher & kd & rate & gate & H).
  exists loss, extra, st', golden, nll, teacher, kd, rate, gate.
  split; [reflexivity|]. split; [|exact H].
  destruct H as (Hls & Ht & Hkd & Hr & Hg & _).
  vm_compute in Hls. injection Hls as Hgold Hnll. subst golden nll.
  vm_compute in Ht. injection Ht as Ht. subst teacher.
  vm_compute in Hkd. injection Hkd as Hkd. subst kd.
  vm_compute in Hr. injection Hr as Hr. subst rate.
  vm_compute in Hg. injection Hg as Hg. subst gate.
  repeat split; vm_compute; reflexivity.
Defined.

Lemma forward_returns_on_well_formed_batch_witness :
  let cs := Criterion.__init__ (Examples.a_task "word_and_seq_level")
              (Examples.a_config 20000 None "mse" false) in
  exists loss sample_size logging_output,
    Criterion.forward Examples.exp_q Examples.log_q (fst cs) (snd cs)
      Examples.one_token_model Examples.one_token_sample None
    = ok (Torch.Scalar loss, sample_size, logging_output, snd cs).
Proof.
  apply (forward_returns_on_well_formed_batch Examples.exp_q Examples.log_q
           (fst (Criterion.__init__ (Examples.a_task "word_and_seq_level")
                   (Examples.a_config 20000 None "mse" false)))
           (snd (Criterion.__init__ (Examples.a_task "word_and_seq_level")
                   (Examples.a_config 20000 None "mse" false)))
           Examples.one_token_model Examples.one_token_sample (1 # 2)%Q
           [[[1; 0]]]%Q [[[-(3 # 10); -(13 # 10)]]]%Q).
  - reflexivity.
  - reflexivity.
  - reflexivity.
  - simpl. lia.
  - simpl. lia.
  - repeat constructor.
  - repeat constructor.
  - repeat constructor; simpl; lia.
  - reflexivity.
  - repeat constructor.
  - repeat constructor.
  - reflexivity.
  - repeat constructor.
  - repeat constructor.
  - repeat constructor.
  - repeat constructor.
Defined.
